(** * ScriptMentor PDF service: the line classifier and the scene assembler

    A shallow embedding of [screenplay_parser.py] ([ElementClassifier],
    [ScreenplayParser]) and of [utils/pattern_enhancer.py]
    ([EnhancedScreenplayPatterns]), with the properties of the classifier
    state machine, of artifact repair and of scene assembly.

    Modelling conventions.
    - A Python [str] is a list of characters ([str]).  Character classes
      (upper and lower case, white space, word characters, digits) follow
      Python on the code points 0..127, the domain of the screenplay text
      handled here; a code point above 127 is a caseless symbol.
    - A pattern of the [re] module is kept as the text the source has and
      read by [rx]; matching is a backtracking matcher with the priorities
      of [re] (leftmost, alternatives in order, greedy repetition).
    - The confidence scores are sums of two-decimal weights compared with
      two-decimal thresholds; they are counted in hundredths ([nat]).
    - The mutable classifier object is a state value passed in and out. *)

From Stdlib Require Import String Ascii Bool Arith Lia ZArith List.
Import ListNotations.
Open Scope string_scope.
Open Scope list_scope.
Open Scope nat_scope.

Set Implicit Arguments.

(** ** Python strings *)

Module Py.

Definition str := list ascii.

Coercion list_ascii_of_string : string >-> list.

Definition strs (l : list string) : list str := map list_ascii_of_string l.

Definition code (c : ascii) : nat := nat_of_ascii c.

Definition between (lo hi : nat) (c : ascii) : bool :=
  (lo <=? code c) && (code c <=? hi).

Definition is_upper_c (c : ascii) : bool := between 65 90 c.
Definition is_lower_c (c : ascii) : bool := between 97 122 c.
Definition is_digit_c (c : ascii) : bool := between 48 57 c.

(** [str.isspace] on one character: tab, line feed, vertical tab, form
    feed, carriage return, the separators 28..31 and the blank. *)
Definition is_space_c (c : ascii) : bool :=
  between 9 13 c || between 28 31 c || (code c =? 32).

(** A word character of [re]: letter, digit or underscore. *)
Definition is_word_c (c : ascii) : bool :=
  is_upper_c c || is_lower_c c || is_digit_c c || (code c =? 95).

Definition upper_c (c : ascii) : ascii :=
  if is_lower_c c then ascii_of_nat (code c - 32) else c.

Definition lower_c (c : ascii) : ascii :=
  if is_upper_c c then ascii_of_nat (code c + 32) else c.

Definition nl : ascii := ascii_of_nat 10.
Definition sp : ascii := ascii_of_nat 32.

Definition upper (s : str) : str := map upper_c s.
Definition lower (s : str) : str := map lower_c s.

Fixpoint str_eqb (a b : str) : bool :=
  match a, b with
  | [], [] => true
  | x :: a', y :: b' => Ascii.eqb x y && str_eqb a' b'
  | _, _ => false
  end.

Fixpoint lstrip (s : str) : str :=
  match s with
  | c :: s' => if is_space_c c then lstrip s' else s
  | [] => []
  end.

Definition rstrip (s : str) : str := rev (lstrip (rev s)).

Definition strip (s : str) : str := rstrip (lstrip s).

(** [s.rstrip(chars)] for a one-character set. *)
Fixpoint lstrip_char (x : ascii) (s : str) : str :=
  match s with
  | c :: s' => if Ascii.eqb c x then lstrip_char x s' else s
  | [] => []
  end.

Definition rstrip_char (x : ascii) (s : str) : str :=
  rev (lstrip_char x (rev s)).

Fixpoint startswith (s p : str) : bool :=
  match p, s with
  | [], _ => true
  | x :: p', y :: s' => Ascii.eqb x y && startswith s' p'
  | _ :: _, [] => false
  end.

Definition endswith (s p : str) : bool := startswith (rev s) (rev p).

(** [p in s] for strings. *)
Fixpoint contains (s p : str) : bool :=
  startswith s p ||
  match s with
  | [] => false
  | _ :: s' => contains s' p
  end.

(** [str.isupper]: some cased character, and no lower-case one. *)
Definition isupper (s : str) : bool :=
  existsb is_upper_c s && negb (existsb is_lower_c s).

(** [str.isdigit] on the modelled code points. *)
Definition isdigit (s : str) : bool :=
  negb (Nat.eqb (length s) 0) && forallb is_digit_c s.

Definition spaces (n : nat) : str := repeat sp n.

(** [sep.join(l)] *)
Fixpoint join (sep : str) (l : list str) : str :=
  match l with
  | [] => []
  | [x] => x
  | x :: l' => x ++ sep ++ join sep l'
  end.

(** The truth value of a string: non-empty. *)
Definition truthy (s : str) : bool :=
  match s with [] => false | _ => true end.

End Py.

Import Py.

(** ** Regular expressions of the [re] module *)

Module Re.

Inductive citem : Type :=
| CChar (c : ascii)
| CRange (lo hi : ascii)
| CDigit
| CSpace
| CWord.

Inductive re : Type :=
| REps
| RChar (c : ascii)
| RAny
| RSet (neg : bool) (items : list citem)
| RSeq (r1 r2 : re)
| RAlt (r1 r2 : re)
| RRep (r : re) (lo : nat) (hi : option nat)
| RGroup (n : nat) (r : re)
| RBackref (n : nat)
| RBol
| REol
| RWordB
| RNegLook (r : re).

Record flags : Type := Flags { ignorecase : bool; multiline : bool }.

Definition no_flags : flags := Flags false false.
Definition IGNORECASE : flags := Flags true false.
Definition MULTILINE : flags := Flags false true.
Definition MULTILINE_IGNORECASE : flags := Flags true true.

(** The state of a match in progress: the character before the current
    position (none at the start of the text), the text still to read and
    the groups captured so far. *)
Record mstate : Type :=
  MState { prev : option ascii; rest : str; caps : list (nat * str) }.

Definition item_match (x : ascii) (i : citem) : bool :=
  match i with
  | CChar c => Ascii.eqb c x
  | CRange lo hi => between (code lo) (code hi) x
  | CDigit => is_digit_c x
  | CSpace => is_space_c x
  | CWord => is_word_c x
  end.

Definition in_items (items : list citem) (x : ascii) : bool :=
  existsb (item_match x) items.

Definition set_match (fl : flags) (neg : bool) (items : list citem)
  (x : ascii) : bool :=
  let hit :=
    if ignorecase fl
    then in_items items x || in_items items (lower_c x)
         || in_items items (upper_c x)
    else in_items items x in
  if neg then negb hit else hit.

Definition char_match (fl : flags) (c x : ascii) : bool :=
  if ignorecase fl then Ascii.eqb (lower_c c) (lower_c x) else Ascii.eqb c x.

Definition advance (x : ascii) (s : str) (st : mstate) : mstate :=
  MState (Some x) s (caps st).

Definition step_if (ok : ascii -> bool) (st : mstate)
  (k : mstate -> option mstate) : option mstate :=
  match rest st with
  | x :: s => if ok x then k (advance x s st) else None
  | [] => None
  end.

Fixpoint get_cap (n : nat) (l : list (nat * str)) : option str :=
  match l with
  | [] => None
  | (m, v) :: l' => if Nat.eqb n m then Some v else get_cap n l'
  end.

Definition set_cap (n : nat) (v : str) (st : mstate) : mstate :=
  MState (prev st) (rest st) ((n, v) :: caps st).

(** The text read between two states of one match. *)
Definition consumed (st st1 : mstate) : str :=
  firstn (length (rest st) - length (rest st1)) (rest st).

Fixpoint match_lit (fl : flags) (g : str) (st : mstate) : option mstate :=
  match g with
  | [] => Some st
  | c :: g' =>
      match rest st with
      | x :: s =>
          if char_match fl c x then match_lit fl g' (advance x s st) else None
      | [] => None
      end
  end.

Definition at_bol (fl : flags) (st : mstate) : bool :=
  match prev st with
  | None => true
  | Some c => multiline fl && Ascii.eqb c nl
  end.

(** [$]: at the end, or before a final line feed; with MULTILINE before
    any line feed. *)
Definition at_eol (fl : flags) (st : mstate) : bool :=
  match rest st with
  | [] => true
  | c :: s =>
      Ascii.eqb c nl && (multiline fl || match s with [] => true | _ => false end)
  end.

Definition word_before (st : mstate) : bool :=
  match prev st with Some c => is_word_c c | None => false end.

Definition word_after (st : mstate) : bool :=
  match rest st with c :: _ => is_word_c c | [] => false end.

Definition at_wordb (st : mstate) : bool :=
  xorb (word_before st) (word_after st).

Definition more (hi : option nat) : bool :=
  match hi with Some 0 => false | _ => true end.

Definition less (hi : option nat) : option nat :=
  match hi with Some n => Some (pred n) | None => None end.

Section Repeat.

Variable body : mstate -> (mstate -> option mstate) -> option mstate.

(** The compulsory repetitions. *)
Fixpoint rep_min (lo : nat) (st : mstate)
  (k : mstate -> option mstate) : option mstate :=
  match lo with
  | 0 => k st
  | S lo' => body st (fun st1 => rep_min lo' st1 k)
  end.

(** The optional repetitions, greedy: one more repetition is tried
    first, and it has to read something. *)
Fixpoint rep_opt (fuel : nat) (hi : option nat) (st : mstate)
  (k : mstate -> option mstate) : option mstate :=
  match fuel with
  | 0 => k st
  | S fuel' =>
      if more hi then
        match
          body st (fun st1 =>
            if length (rest st1) <? length (rest st)
            then rep_opt fuel' (less hi) st1 k
            else None)
        with
        | Some m => Some m
        | None => k st
        end
      else k st
  end.

End Repeat.

Definition hi_left (lo : nat) (hi : option nat) : option nat :=
  match hi with Some n => Some (n - lo) | None => None end.

Fixpoint rmatch (fl : flags) (r : re) (st : mstate)
  (k : mstate -> option mstate) : option mstate :=
  match r with
  | REps => k st
  | RChar c => step_if (char_match fl c) st k
  | RAny => step_if (fun x => negb (Ascii.eqb x nl)) st k
  | RSet neg items => step_if (set_match fl neg items) st k
  | RSeq r1 r2 => rmatch fl r1 st (fun st1 => rmatch fl r2 st1 k)
  | RAlt r1 r2 =>
      match rmatch fl r1 st k with
      | Some m => Some m
      | None => rmatch fl r2 st k
      end
  | RRep r' lo hi =>
      rep_min (rmatch fl r') lo st (fun st1 =>
        rep_opt (rmatch fl r') (S (length (rest st1))) (hi_left lo hi) st1 k)
  | RGroup n r' =>
      rmatch fl r' st (fun st1 => k (set_cap n (consumed st st1) st1))
  | RBackref n =>
      match get_cap n (caps st) with
      | Some g =>
          match match_lit fl g st with
          | Some st1 => k st1
          | None => None
          end
      | None => None
      end
  | RBol => if at_bol fl st then k st else None
  | REol => if at_eol fl st then k st else None
  | RWordB => if at_wordb st then k st else None
  | RNegLook r' =>
      match rmatch fl r' st (fun st1 => Some st1) with
      | Some _ => None
      | None => k st
      end
  end.

(** One attempt at a given position. *)
Definition match_here (fl : flags) (r : re) (p : option ascii) (s : str)
  : option mstate :=
  rmatch fl r (MState p s []) (fun st => Some st).

(** [re.match]: at the start of the text only. *)
Definition re_match (fl : flags) (r : re) (s : str) : bool :=
  match match_here fl r None s with Some _ => true | None => false end.

Fixpoint search_from (fl : flags) (r : re) (p : option ascii) (s : str)
  : bool :=
  match match_here fl r p s with
  | Some _ => true
  | None =>
      match s with
      | [] => false
      | c :: s' => search_from fl r (Some c) s'
      end
  end.

(** [re.search]: the first position where the pattern matches. *)
Definition re_search (fl : flags) (r : re) (s : str) : bool :=
  search_from fl r None s.

(** [re.sub]: the matches are taken from left to right and do not overlap;
    [skip] counts the characters of the last match still to pass.  A
    replacement is computed from the groups and the matched text. *)
Fixpoint sub_from (fl : flags) (r : re) (repl : list (nat * str) -> str -> str)
  (p : option ascii) (s : str) (skip : nat) : str :=
  match skip with
  | S n =>
      match s with
      | [] => []
      | c :: s' => sub_from fl r repl (Some c) s' n
      end
  | 0 =>
      match match_here fl r p s with
      | Some m =>
          let out := repl (caps m) (firstn (length s - length (rest m)) s) in
          match length s - length (rest m) with
          | 0 =>
              out ++ match s with
                     | [] => []
                     | c :: s' => c :: sub_from fl r repl (Some c) s' 0
                     end
          | S n =>
              out ++ match s with
                     | [] => []
                     | c :: s' => sub_from fl r repl (Some c) s' n
                     end
          end
      | None =>
          match s with
          | [] => []
          | c :: s' => c :: sub_from fl r repl (Some c) s' 0
          end
      end
  end.

Definition re_sub (fl : flags) (r : re) (repl : list (nat * str) -> str -> str)
  (s : str) : str :=
  sub_from fl r repl None s 0.

(** Replacement by a constant text. *)
Definition const_repl (t : str) : list (nat * str) -> str -> str :=
  fun _ _ => t.

(** The text of group [n] in a replacement template (empty when the group
    took no part in the match). *)
Definition group (n : nat) (c : list (nat * str)) : str :=
  match get_cap n c with Some v => v | None => [] end.

End Re.

Import Re.

(** ** Reading a pattern

    The patterns are kept as the source writes them.  [parse] reads the
    part of the pattern syntax that the source uses: literals and escapes,
    classes, groups (capturing, [(?:...)], [(?!...)]), alternatives, the
    greedy quantifiers, [^], [$], [.] and [\b]. *)

Module RxSyntax.

Local Open Scope char_scope.

Inductive esc : Type :=
| EChar (c : ascii)
| EItem (i : citem)
| EWordB
| EBackref (n : nat).

Definition hexval (c : ascii) : option nat :=
  if is_digit_c c then Some (code c - 48)
  else if between 97 102 c then Some (code c - 87)
  else if between 65 70 c then Some (code c - 55)
  else None.

Definition p_escape (s : str) : option (esc * str) :=
  match s with
  | [] => None
  | c :: s' =>
      match c with
      | "s" => Some (EItem CSpace, s')
      | "d" => Some (EItem CDigit, s')
      | "w" => Some (EItem CWord, s')
      | "b" => Some (EWordB, s')
      | "n" => Some (EChar nl, s')
      | "t" => Some (EChar (ascii_of_nat 9), s')
      | "x" =>
          match s' with
          | h :: l :: s'' =>
              match hexval h, hexval l with
              | Some a, Some b => Some (EChar (ascii_of_nat (16 * a + b)), s'')
              | _, _ => None
              end
          | _ => None
          end
      | _ =>
          if is_digit_c c then
            if Ascii.eqb c "0" then None else Some (EBackref (code c - 48), s')
          else if is_word_c c then None
          else Some (EChar c, s')
      end
  end.

Fixpoint p_num (s : str) (acc : option nat) : option nat * str :=
  match s with
  | c :: s' =>
      if is_digit_c c
      then p_num s' (Some (10 * match acc with Some a => a | None => 0 end
                           + (code c - 48)))
      else (acc, s)
  | [] => (acc, s)
  end.

Fixpoint p_class (fuel : nat) (s : str) (acc : list citem)
  : option (list citem * str) :=
  match fuel with
  | 0 => None
  | S f =>
      match s with
      | [] => None
      | "]" :: s' => Some (rev acc, s')
      | "\" :: s1 =>
          match p_escape s1 with
          | Some (EChar c, s2) => p_class f s2 (CChar c :: acc)
          | Some (EItem i, s2) => p_class f s2 (i :: acc)
          | _ => None
          end
      | c :: s1 =>
          match s1 with
          | "-" :: d :: s2 =>
              if Ascii.eqb d "]" then p_class f s1 (CChar c :: acc)
              else if Ascii.eqb d "\" then None
              else p_class f s2 (CRange c d :: acc)
          | _ => p_class f s1 (CChar c :: acc)
          end
      end
  end.

Definition quantifier_next (s : str) : bool :=
  match s with
  | "?" :: _ | "*" :: _ | "+" :: _ => true
  | _ => false
  end.

Definition p_quant (a : re) (s : str) : option (re * str) :=
  let done (r : re) (s' : str) :=
    if quantifier_next s' then None else Some (r, s') in
  match s with
  | "*" :: s' => done (RRep a 0 None) s'
  | "+" :: s' => done (RRep a 1 None) s'
  | "?" :: s' => done (RRep a 0 (Some 1)) s'
  | "{" :: s' =>
      match p_num s' None with
      | (Some m, "}" :: s2) => done (RRep a m (Some m)) s2
      | (Some m, "," :: s2) =>
          match p_num s2 None with
          | (hi, "}" :: s3) => done (RRep a m hi) s3
          | _ => None
          end
      | _ => None
      end
  | _ => Some (a, s)
  end.

Definition mk_seq (a r : re) : re :=
  match r with REps => a | _ => RSeq a r end.

Fixpoint p_alt (fuel : nat) (s : str) (n : nat) {struct fuel}
  : option (re * str * nat) :=
  match fuel with
  | 0 => None
  | S f =>
      match p_seq f s n with
      | Some (r1, "|" :: s1, n1) =>
          match p_alt f s1 n1 with
          | Some (r2, s2, n2) => Some (RAlt r1 r2, s2, n2)
          | None => None
          end
      | other => other
      end
  end

with p_seq (fuel : nat) (s : str) (n : nat) {struct fuel}
  : option (re * str * nat) :=
  match fuel with
  | 0 => None
  | S f =>
      match s with
      | [] => Some (REps, s, n)
      | "|" :: _ => Some (REps, s, n)
      | ")" :: _ => Some (REps, s, n)
      | _ =>
          match p_atom f s n with
          | Some (a, s1, n1) =>
              match p_quant a s1 with
              | Some (q, s2) =>
                  match p_seq f s2 n1 with
                  | Some (r, s3, n3) => Some (mk_seq q r, s3, n3)
                  | None => None
                  end
              | None => None
              end
          | None => None
          end
      end
  end

with p_atom (fuel : nat) (s : str) (n : nat) {struct fuel}
  : option (re * str * nat) :=
  match fuel with
  | 0 => None
  | S f =>
      let closed (wrap : re -> re) (res : option (re * str * nat)) :=
        match res with
        | Some (r, ")" :: s2, n2) => Some (wrap r, s2, n2)
        | _ => None
        end in
      match s with
      | [] => None
      | "(" :: "?" :: ":" :: s1 => closed (fun r => r) (p_alt f s1 n)
      | "(" :: "?" :: "!" :: s1 => closed RNegLook (p_alt f s1 n)
      | "(" :: "?" :: _ => None
      | "(" :: s1 => closed (RGroup n) (p_alt f s1 (S n))
      | "[" :: "^" :: s1 =>
          match p_class f s1 [] with
          | Some (items, s2) => Some (RSet true items, s2, n)
          | None => None
          end
      | "[" :: s1 =>
          match p_class f s1 [] with
          | Some (items, s2) => Some (RSet false items, s2, n)
          | None => None
          end
      | "." :: s1 => Some (RAny, s1, n)
      | "^" :: s1 => Some (RBol, s1, n)
      | "$" :: s1 => Some (REol, s1, n)
      | "\" :: s1 =>
          match p_escape s1 with
          | Some (EChar c, s2) => Some (RChar c, s2, n)
          | Some (EItem i, s2) => Some (RSet false [i], s2, n)
          | Some (EWordB, s2) => Some (RWordB, s2, n)
          | Some (EBackref k, s2) => Some (RBackref k, s2, n)
          | None => None
          end
      | "*" :: _ | "+" :: _ | "?" :: _ | "{" :: _ => None
      | c :: s1 => Some (RChar c, s1, n)
      end
  end.

Definition parse (p : str) : option re :=
  match p_alt (4 * length p + 8) p 1 with
  | Some (r, [], _) => Some r
  | _ => None
  end.

(** A pattern that matches nothing, for a text that is not a pattern. *)
Definition never : re := RSet false [].

Definition rx (p : string) : re :=
  match parse p with Some r => r | None => never end.

End RxSyntax.

Import RxSyntax.

(** ** The pattern library ([EnhancedScreenplayPatterns]) *)

Module Patterns.

(** [self.scene_patterns] *)
Definition scene_patterns : list re :=
  [ rx "^(INT\.|EXT\.|EST\.|INT\/EXT\.)";
    rx "^(INTERIOR|EXTERIOR)";
    rx "- (DAY|NIGHT|DAWN|DUSK|MORNING|AFTERNOON|EVENING|LATER|CONTINUOUS)" ].

(** [self.character_exclusions] *)
Definition character_exclusions : list str := strs
  [ "WINDOW"; "DOOR"; "TABLE"; "CHAIR"; "BAR"; "HALLWAY"; "ROOM";
    "KITCHEN"; "BATHROOM"; "OFFICE"; "CAR"; "PHONE"; "COMPUTER";
    "BUILDING"; "HOUSE"; "STREET"; "PARK"; "STORE"; "RESTAURANT";
    "WORK DESK"; "CLOTHING RACK"; "WALL MIRROR"; "DANCE FLOOR";
    "ANGLE ON"; "CLOSE ON"; "PHONE CAM POV"; "END PHONE CAM POV";
    "WIDE SHOT"; "CLOSE UP"; "MEDIUM SHOT"; "POV"; "INSERT";
    "FADE IN"; "FADE OUT"; "CUT TO"; "DISSOLVE TO"; "SMASH CUT";
    "THE END"; "CONTINUED"; "MORE"; "BEAT"; "FADE TO";
    "SUPER TITLE"; "TITLE CARD"; "SUPER"; "GRAPHICS"; "TEXT ON SCREEN";
    "BEGIN MONTAGE"; "END MONTAGE"; "MONTAGE"; "SEQUENCE";
    "LATER"; "MOMENTS LATER"; "CONTINUOUS"; "SAME TIME";
    "MEANWHILE"; "ELSEWHERE"; "NEXT DAY"; "THAT NIGHT";
    "PRE-LAP"; "MUSIC"; "SOUND"; "VOICE OVER"; "NARRATOR";
    "CRYPTO ART"; "LED SCREEN"; "DIGITAL WALLET"; "COLD WALLET";
    "VIP BOOTHS"; "BODYGUARDS"; "CHAMPAGNE"; "BOMBER JACKET" ].

(** [self.transition_patterns] *)
Definition transition_patterns : list re :=
  [ rx "^(FADE IN|FADE OUT|CUT TO|DISSOLVE TO|SMASH CUT TO)";
    rx "^(MATCH CUT|JUMP CUT|CROSS CUT)" ].

(** [is_scene_heading]: the line is stripped and put in upper case, then
    compared with its own upper case and tested for its length and for
    the scene patterns. *)
Definition is_scene_heading (line0 : str) : bool :=
  let line := upper (strip line0) in
  if negb (str_eqb line (upper line)
           && (10 <=? length line) && (length line <=? 100))
  then false
  else existsb (fun pattern => re_search no_flags pattern line) scene_patterns.

Definition contd_pattern : re :=
  rx "^[A-Z][A-Z\s\-\.#0-9]+\s*\((CONT\'?D|MORE|[C]{1,3}[O]{1,3}[N]{1,3}[T]{1,3}[\'\']*D{1,2})\)$".

(** [is_character_name] of the pattern library (no indentation). *)
Definition is_character_name (line0 : str) : bool :=
  let line := strip line0 in
  if re_search IGNORECASE contd_pattern line then true
  else if negb (str_eqb line (upper line)
                && (2 <=? length line) && (length line <=? 30))
  then false
  else
    let clean_line :=
      strip (re_sub no_flags (rx "\s*\([^)]+\)") (const_repl []) line) in
    if existsb (str_eqb clean_line) character_exclusions then false
    else if is_scene_heading line then false
    else if existsb (fun pattern => re_search no_flags pattern line)
              transition_patterns then false
    else if (length clean_line <=? 2) || isdigit clean_line then false
    else if negb (re_search no_flags (rx "[A-Z]") clean_line) then false
    else true.

End Patterns.

(** ** The element classifier ([ElementClassifier]) *)

Module Classifier.

Inductive etype : Type :=
| scene_heading | character | dialogue | parenthetical
| transition | pre_scene | action.

Definition etype_eqb (a b : etype) : bool :=
  match a, b with
  | scene_heading, scene_heading | character, character
  | dialogue, dialogue | parenthetical, parenthetical
  | transition, transition | pre_scene, pre_scene | action, action => true
  | _, _ => false
  end.

(** The tag that the source stores under the key ['type']. *)
Definition type_name (t : etype) : str :=
  match t with
  | scene_heading => "scene_heading"
  | character => "character"
  | dialogue => "dialogue"
  | parenthetical => "parenthetical"
  | transition => "transition"
  | pre_scene => "pre_scene"
  | action => "action"
  end.

Definition element_types : list str := strs
  [ "scene_heading"; "character"; "dialogue"; "parenthetical";
    "transition"; "pre_scene"; "action" ].

(** The dictionary returned by [classify_line]; the parser adds the page. *)
Record Element : Type := mkElement
  { el_type : etype; el_text : str; el_indent : nat; el_page : option Z }.

Definition element (t : etype) (text : str) (indent : nat) : Element :=
  mkElement t text indent None.

(** The fields of the classifier object that the classification reads
    and writes ([dialogue_context] is never used, [patterns] has no
    state). *)
Record CState : Type := mkCState
  { last_element : option etype; in_dialogue_block : bool }.

(** [ElementClassifier()] *)
Definition init : CState := mkCState None false.

(** [self.last_element in [...]] *)
Definition last_in (st : CState) (l : list etype) : bool :=
  match last_element st with
  | Some t => existsb (etype_eqb t) l
  | None => false
  end.

(** An index out of range raises; [None] stands for the exception. *)
Definition getitem {A : Type} (l : list A) (i : nat) : option A :=
  nth_error l i.

Notation "x <- c ;; k" :=
  (match c with Some x => k | None => None end)
  (at level 61, c at next level, right associativity).

(** [len(line) - len(line.lstrip())] *)
Definition leading (line : str) : nat := length line - length (lstrip line).

Definition any_in (text : str) (l : list string) : bool :=
  existsb (fun i : string => contains text i) l.

Definition any_prefix (text : str) (l : list string) : bool :=
  existsb (fun i : string => startswith text i) l.

Definition pre_scene_patterns : list re :=
  [ rx "^OVER BLACK.*";
    rx "^FADE IN:?.*";
    rx "^BLACK SCREEN.*";
    rx "^TITLE CARD:?.*";
    rx "^SUPER:?.*";
    rx "^SUPER TITLE:?.*";
    rx "^PRELAP:?.*";
    rx "^PRE-LAP:?.*";
    rx "^INSERT.*";
    rx "^TEASER.*";
    rx "^COLD OPEN.*";
    rx "^OPENING TITLE.*";
    rx "^MAIN TITLE.*";
    rx "^END TITLE.*";
    rx "^CREDITS.*";
    rx "^VOICE.?OVER.*";
    rx "^V\.?O\.?.*" ].

Definition _is_pre_scene_element (text : str) : bool :=
  existsb (fun p => re_match no_flags p (upper text)) pre_scene_patterns.

Definition transitions : list string :=
  [ "FADE OUT"; "FADE TO"; "CUT TO:"; "DISSOLVE TO:";
    "SMASH CUT TO:"; "MATCH CUT:"; "JUMP CUT:";
    "FADE TO BLACK"; "FADE TO WHITE"; "THE END";
    "BEGIN MONTAGE"; "END MONTAGE"; "START MONTAGE";
    "MONTAGE:"; "SERIES OF SHOTS:"; "SEQUENCE:" ].

Definition _is_transition (text : str) : bool :=
  any_prefix (upper text) transitions.

(** [_is_character_name].  The pattern object has no attribute
    [CHARACTER_EXCLUSIONS], so the exclusion list is empty; the look at the
    next line reads [lines[position + 1]] and returns [True] either way. *)
Definition _is_character_name (text : str) (leading_spaces position : nat)
  (lines : list str) : option bool :=
  if re_search IGNORECASE Patterns.contd_pattern text then Some true
  else if negb ((32 <=? leading_spaces) && (leading_spaces <=? 48))
  then Some false
  else
    match text with
    | [] => Some false
    | c0 :: _ =>
        if negb (Ascii.eqb c0 (upper_c c0)) then Some false
        else if re_match no_flags
                  (rx "^[A-Z][A-Z\s\-\.\']+(\s*\([A-Z\.\s\']+\))?$") text
        then
          let exclusions : list str := [] in
          if existsb (str_eqb (upper text)) exclusions then Some false
          else if position + 1 <? length lines then
            next_raw <- getitem lines (position + 1) ;;
            let next_line := strip next_raw in
            if truthy next_line && negb (str_eqb next_line (upper next_line))
            then Some true
            else Some true
          else Some true
        else Some false
    end.

Definition _is_scene_element (text : str) : bool :=
  any_prefix (upper text) ["INT."; "EXT."; "INT/"; "EXT/"; "I/E."].

(** Adds a weight, in hundredths, when a signal is present. *)
Definition add_if (b : bool) (w score : nat) : nat :=
  if b then score + w else score.

Definition _contains_definitive_action_patterns (text : str) : bool :=
  existsb (fun p => re_search IGNORECASE p text)
    [ rx "^(INT\.|EXT\.|FADE|CUT TO:|DISSOLVE)";
      rx "^(He|She|It|They)\s+(walks?|runs?|moves?|enters?|exits?)";
      rx "\b(CAMERA|ANGLE ON|CLOSE ON|WIDE SHOT)\b";
      rx "^(Meanwhile|Suddenly|Later|Then)\b" ].

Definition basic_action_patterns : list re :=
  [ rx "\b[a-z]{2,}\s+(pulls?|grabs?|opens?|closes?|walks?|moves?|turns?|looks?|puts?|dries?|follows?|slips?|steps?|rolls?|runs?|hands?)\b(?!\s+(a\s+(dump|break|chance|look|while|moment)|an?\s+))";
    rx "^(the|a|an)\s+\w+\s+(approaches?|interjects?|opens?|closes?|rings?|buzzes?|don\'t|doesn\'t)\b";
    rx "[a-z]+\'s\s+(phone|hands?|eyes?|face|laptop|wallet|clutches|jacket)\b";
    rx "\b(pulls? out|puts? down|picks? up|turns? around|walks? to|moves? to|slips? out|steps? out|grabs?|clutches?)\b";
    rx "\([0-9]+s?\),?\s+[a-z]";
    rx "\bsurrounded by\b|\bframe a\b|\bhang\b|\bsparkles? in\b|\bapproaches\b";
    rx "\b(she|he|they)\s+(slips?|grabs?|steps?|rolls?|runs?|heads?|hands?)\b";
    rx "\b(phone|wallet|device)\s+(buzzes?|rings?|opens?|displays?)\b";
    rx "\b(out of his|into his|around her|to her|from the)\b" ].

Definition _is_basic_action_line (text : str) : bool :=
  let text_lower := strip (lower text) in
  existsb (fun p => re_search no_flags p text_lower) basic_action_patterns.

(** The dialogue confidence of [_is_likely_dialogue], in hundredths. *)
Definition dialogue_score (text : str) : nat :=
  let s0 := 0 in
  let s1 := add_if (re_search IGNORECASE
    (rx "\b(I|me|my|mine|myself|I\'m|I\'ll|I\'d|I\'ve)\b") text) 89 s0 in
  let s2 := add_if (re_search IGNORECASE
    (rx "\b(you|your|yours|yourself|you\'re|you\'ll|you\'d|you\'ve)\b") text)
    84 s1 in
  let s3 := add_if (re_search IGNORECASE
    (rx "\b(can't|won't|don't|didn't|wouldn't|couldn't|shouldn't|isn't|aren't|wasn't|weren't|hasn't|haven't|hadn't|that's|what's|where's|who's|it's|he's|she's|we're|they're|I'm|you're|I'll|you'll|we'll|they'll|I'd|you'd|we'd|they'd|I've|you've|we've|they've|let's|here's|there's)\b")
    text) 86 s2 in
  let s4 := add_if (endswith (strip text) "?" || re_match IGNORECASE
    (rx "^(What|Where|When|Who|Why|How|Can|Could|Would|Should|Will|Do|Does|Did|Are|Is|Was|Were|Have|Has|Had|Am)\b")
    text) 91 s3 in
  let s5 := add_if (re_match IGNORECASE
    (rx "^(Come|Go|Look|Wait|Stop|Listen|Tell|Give|Take|Get|Put|Let|Bring|Hold|Shut|Move|Stay|Keep|Try|Help|Show|Make|Leave|Sit|Stand|Drop|Open|Close|Turn|Run|Walk|Call|Check|Find)\b")
    text) 81 s4 in
  let s6 := add_if (re_search IGNORECASE
    (rx "\b(yeah|yes|no|nope|yep|uh-huh|uh|um|ah|oh|hey|well|so|anyway|maybe|just|really|actually|basically|literally|honestly|seriously|definitely|absolutely|exactly|totally|right|sure|fine|okay|OK|alright)\b")
    text) 83 s5 in
  let s7 := add_if (re_search IGNORECASE
    (rx "\b(Jesus|Christ|God|damn|dammit|hell|shit|fuck|fucking|crap|wow|whoa|holy|geez|gosh|bastard)\b")
    text) 85 s6 in
  let s8 := add_if (re_search no_flags (rx "(\.\.\.|--|\s-\s)") text) 76 s7 in
  let s9 := add_if (re_match IGNORECASE
    (rx "^(I think|I know|I believe|I feel|I mean|I guess|I suppose|I bet|I wish|I hope|I want|I need)\b")
    text) 87 s8 in
  s9.

(** The three thresholds of [_is_likely_dialogue]: 0.85, 0.75 with a
    dialogue context, 0.60 after a character cue. *)
Definition score_decides (st : CState) (score : nat) : bool :=
  if 85 <=? score then true
  else if (75 <=? score) && last_in st [character; parenthetical; dialogue]
  then true
  else if (60 <=? score) && last_in st [character] then true
  else false.

Definition _is_likely_dialogue (st : CState) (text : str)
  (leading_spaces position : nat) (lines : list str) : bool :=
  if (leading_spaces <? 18) || (35 <? leading_spaces) then false
  else if _is_basic_action_line text then false
  else if negb (truthy (strip (lower text))) then false
  else
    let score := dialogue_score text in
    if _contains_definitive_action_patterns text then false
    else score_decides st score.

Definition strong_dialogue_breakers : list string :=
  [ "hannah walks"; "hannah moves"; "hannah enters"; "hannah exits";
    "she walks"; "he walks"; "she moves"; "he moves"; "she enters";
    "he enters";
    "angle on"; "close on"; "wide shot"; "work desk"; "clothing rack";
    "as we push in"; "we push in"; "push in on"; "pull out"; "zoom in";
    "zoom out";
    "the view of"; "we see"; "we witness"; "fade in"; "fade out"; "cut to" ].

Definition clear_action_indicators : list string :=
  [ "hannah walks"; "hannah moves"; "hannah runs"; "hannah sits";
    "hannah stands";
    "hannah enters"; "hannah exits"; "hannah approaches"; "hannah leaves";
    "hannah picks up"; "hannah puts down"; "hannah grabs"; "hannah throws";
    "hannah examines"; "hannah studies"; "hannah looks at"; "hannah stares";
    "hannah opens"; "hannah closes"; "hannah turns"; "hannah spins";
    "she walks"; "he walks"; "she moves"; "he moves"; "she runs"; "he runs";
    "she sits"; "he sits"; "she stands"; "he stands"; "she enters";
    "he enters";
    "she exits"; "he exits"; "she picks"; "he picks"; "she grabs";
    "he grabs";
    "she examines"; "he examines"; "she looks"; "he looks"; "she opens";
    "he opens";
    " points to"; " walks to"; " moves to"; " turns to"; " looks at";
    " stares at";
    " grabs the"; " picks up"; " puts down"; " throws the"; " holds the";
    " waves to"; " nods to"; " gestures"; " approaches"; " enters"; " exits";
    "billionaire"; "millionaire"; "trust-funder"; "crypto billionaire";
    "influencer";
    "turned crypto"; "turned into"; "is a "; "was a "; "became a ";
    "the view of"; "we see"; "we witness"; "as we push in"; "over black";
    "fade in"; "fade out"; "cut to"; "dissolve to"; "begin montage";
    "end montage";
    "work desk"; "clothing rack"; "wall mirror"; "phone cam pov";
    "end phone cam";
    "angle on"; "close on"; "wide shot"; "tight shot"; "dance floor";
    "it's complete"; "it's finished"; "the door"; "the window"; "the room";
    "the table"; "the chair"; "the phone"; "the computer"; "surrounded by";
    "girls protest"; "proud boys"; "storm the capitol"; "world trade center";
    "is attacked"; "is laid to rest"; "laid to rest"; "oil fields";
    "on fire in"; "is beaten";
    "nuclear bomb"; "ignites"; "blinding white"; "consumes the screen";
    "covid-19 pandemic"; "hoarding toilet paper"; "protesting masks";
    "refusing to get"; "saying goodbye"; "dying family members";
    "million deaths"; "antarctic ice shelf"; "collapses into";
    "putin shakes hands"; "donald trump"; "tiananmen square"; "massacre";
    "hurricane katrina"; "polar bear"; "takes its last breath";
    "afghanistan";
    "women's rights march"; "citizens in myanmar"; "war in ukraine";
    "arab spring"; "economic collapse"; "amazon rainforest"; "columbine";
    "school shooting"; "troops in"; "slaughter of"; "princess diana" ].

(** [_is_clearly_action]: inside a dialogue block only the strong
    breakers count. *)
Definition _is_clearly_action (st : CState) (text : str) : bool :=
  let text_lower := lower text in
  if in_dialogue_block st then any_in text_lower strong_dialogue_breakers
  else if any_in text_lower clear_action_indicators then true
  else if re_match no_flags (rx "^[A-Z][A-Z\s\-\.]{3,}(?::|--|\s-\s)") text
  then true
  else if any_in text_lower ["montage"; "sequence"; "series of"] then true
  else false.

Definition celebrity_actions : list string :=
  [ "dan bilzerian jet skis"; "jeff bezos emerges"; "elon musk smokes";
    "dan bilzerian"; "jeff bezos"; "elon musk"; "joe rogan podcast";
    "emerges from his"; "jet skis"; "smokes weed on" ].

(** The action confidence of [_contains_action_indicators], in
    hundredths.  In the last class of the pattern of sound effects the
    double quote is written [\x22]. *)
Definition action_score (text : str) : nat :=
  let text_lower := strip (lower text) in
  let s0 := 0 in
  let s1 := add_if (re_match IGNORECASE
    (rx "^(INT\.|EXT\.|INT\s|EXT\s|FADE IN:|FADE OUT:|FADE TO:|CUT TO:|DISSOLVE TO:|SMASH CUT:|MATCH CUT:|JUMP CUT:|CLOSE ON|ANGLE ON|INSERT|MONTAGE|FLASHBACK|FLASH FORWARD|INTERCUT|CONTINUOUS|LATER|MOMENTS LATER)")
    text) 98 s0 in
  let s2 := add_if (re_match IGNORECASE
    (rx "^(He|She|It|They|His|Her|Its|Their|The\s+\w+|A\s+\w+|An\s+\w+)\s+(walks?|stands?|sits?|moves?|turns?|looks?|takes?|goes?|runs?|enters?|exits?|crosses?|approaches?|reaches?|grabs?|opens?|closes?|stares?|watches?|waits?|stops?|starts?|continues?|follows?|leads?|pushes?|pulls?)")
    text) 94 s1 in
  let s3 := add_if (re_search IGNORECASE
    (rx "\b(is|are|was|were)\s+\w+ing\b") text) 88 s2 in
  let s4 := add_if (re_search IGNORECASE
    (rx "\b(CAMERA|CRANE|PAN|ZOOM|TRACK|DOLLY|PULL BACK|PUSH IN|REVEAL|FOCUS|FRAME|SHOT|ANGLE|POV|P\.O\.V\.|VIEW|WIDER|CLOSER|TIGHT ON|MOVING|HANDHELD|STEADICAM|AERIAL|ESTABLISHING)\b")
    text) 95 s3 in
  let s5 := add_if (re_search IGNORECASE
    (rx "\((continuing|CONT\'D|O\.S\.|V\.O\.|beat|pause|then|to\s+[A-Z][a-z]+|into\s+phone|on\s+phone|whispers?|shouts?|yells?|screams?|quietly|loudly|sarcastically|[a-z]+ing|[a-z]+ly)\)")
    text) 93 s4 in
  let s6 := add_if (re_match IGNORECASE
    (rx "^(Meanwhile|Suddenly|Now|Then|Later|Finally|Just then|At that moment|Behind|Above|Below|Inside|Outside|Across|Through|Beyond|Near|From|During|Before|After|As|While)\b")
    text) 84 s5 in
  let s7 := add_if (re_match IGNORECASE
    (rx "^(The|A|An)\s+\w+\s+(is|are|stands|sits|lies|hangs|rests|covers|fills|enters|appears|emerges)")
    text) 86 s6 in
  let s8 := add_if (re_search no_flags
    (rx "\b[A-Z]{2,}(?:\s+[A-Z]{2,})*\b(?![\'\x22])") text
    && negb (isupper text)) 81 s7 in
  let s9 := add_if (any_in text_lower celebrity_actions) 95 s8 in
  let s10 := add_if (re_match IGNORECASE
    (rx "^(It\'s|It is|There\'s|There is|There are)\s+") text) 77 s9 in
  let s11 := add_if (re_search IGNORECASE
    (rx "\b(as|while|when|during)\s+(he|she|they|it|[A-Z][a-z]+)\s+\w+s?\b")
    text) 79 s10 in
  s11.

Definition _contains_action_indicators (text : str) : bool :=
  let text_lower := strip (lower text) in
  if negb (truthy text_lower) then false
  else 85 <=? action_score text.

(** [_is_specific_hyphenated_continuation] *)
Definition _is_specific_hyphenated_continuation (text : str) (position : nat)
  (lines : list str) : option bool :=
  if position <? 2 then Some false
  else if _contains_action_indicators text || _is_basic_action_line text
  then Some false
  else if 2 <=? position then
    let hyphen_line_pos := position - 2 in
    if hyphen_line_pos <? length lines then
      hyphen_raw <- getitem lines hyphen_line_pos ;;
      let hyphen_line := strip hyphen_raw in
      if endswith hyphen_line "-" && (10 <? length hyphen_line)
         && negb (_is_basic_action_line hyphen_line)
      then
        if 0 <? hyphen_line_pos then
          prev_raw <- getitem lines (hyphen_line_pos - 1) ;;
          let prev_line := strip prev_raw in
          let prev_spaces := leading prev_raw in
          is_name <-
            _is_character_name prev_line prev_spaces (hyphen_line_pos - 1)
              lines ;;
          if is_name then Some true else Some false
        else Some false
      else Some false
    else Some false
  else Some false.

Definition _is_continuation_character_name (text : str) : bool :=
  re_search IGNORECASE
    (rx "^[A-Z][A-Z\s\-\.#0-9]+\s*\((CONT\'?D|MORE|[C]{1,3}[O]{1,3}[N]{1,3}[T]{1,3}[\'\']*D{1,2})\)$")
    text.

(** The inner loop of [_is_in_continuation_dialogue_block]: the lines
    between the cue and the current one; [Some false] is the early
    [return False]. *)
Fixpoint block_is_dialogue (lines : list str) (js : list nat)
  : option bool :=
  match js with
  | [] => Some true
  | j :: js' =>
      if length lines <=? j then block_is_dialogue lines js'
      else
        raw <- getitem lines j ;;
        let check_line := strip raw in
        if negb (truthy check_line)
           || Patterns.is_scene_heading check_line
           || Patterns.is_character_name check_line
           || _contains_definitive_action_patterns check_line
        then Some false
        else block_is_dialogue lines js'
  end.

(** The outer loop, over the positions [position - 1] down to
    [max(0, position - 5)]. *)
Fixpoint find_continuation_cue (lines : list str) (position : nat)
  (idxs : list nat) : option bool :=
  match idxs with
  | [] => Some false
  | i :: idxs' =>
      if length lines <=? i then find_continuation_cue lines position idxs'
      else
        raw <- getitem lines i ;;
        let line := strip raw in
        if _is_continuation_character_name line
        then block_is_dialogue lines (seq (i + 1) (position - (i + 1)))
        else if Patterns.is_character_name line
                || Patterns.is_scene_heading line
        then Some false
        else find_continuation_cue lines position idxs'
  end.

Definition _is_in_continuation_dialogue_block (position : nat)
  (lines : list str) : option bool :=
  let start_pos := position - 5 in
  find_continuation_cue lines position
    (rev (seq start_pos (position - start_pos))).

(** The guards of the rule cascade of [classify_line], named after the
    rule they open. *)

(** Rule 0: a name-shaped line that ends in a continuation marker. *)
Definition contd_cue (trimmed : str) : bool :=
  re_match no_flags
    (rx "^[A-Z][A-Z\-\.#0-9]*(\s+[A-Z][A-Z\-\.#0-9]*){0,2}\s*\(") trimmed
  && re_search IGNORECASE
    (rx "\((CONT\'?D|MORE|[C]{1,3}[O]{1,3}[N]{1,3}[T]{1,3}[\'\']*D{1,2})\)$")
    trimmed.

(** Rule 1: [trimmed and self._is_specific_hyphenated_continuation(...)] *)
Definition hyphenated_guard (trimmed : str) (position : nat)
  (lines : list str) : option bool :=
  if truthy trimmed
  then _is_specific_hyphenated_continuation trimmed position lines
  else Some false.

(** Rule 5 (parentheticals). *)
Definition parenthetical_guard (st : CState) (trimmed : str) : bool :=
  in_dialogue_block st && startswith trimmed "(" && endswith trimmed ")".

(** Rule 6: the dialogue/action step is entered inside a dialogue block
    after a character cue, a parenthetical or dialogue. *)
Definition dialogue_guard (st : CState) : bool :=
  in_dialogue_block st && last_in st [character; parenthetical; dialogue].

(** The strong action signal that ends the block at once. *)
Definition strong_action_signal (st : CState) (trimmed : str) : bool :=
  _contains_action_indicators trimmed || _is_clearly_action st trimmed.

(** The score test of rule 6. *)
Definition score_test (st : CState) (trimmed : str)
  (leading_spaces position : nat) (lines : list str) : bool :=
  truthy trimmed && negb (_is_scene_element trimmed)
  && _is_likely_dialogue st trimmed leading_spaces position lines.

(** [position > 0 and self._is_in_continuation_dialogue_block(...)] *)
Definition continuation_guard (position : nat) (lines : list str)
  : option bool :=
  if 0 <? position
  then _is_in_continuation_dialogue_block position lines
  else Some false.

(** Rule 7, the default: action; the block is closed for clear action
    only. *)
Definition default_action (st : CState) (trimmed : str)
  : Element * CState :=
  (element action trimmed 12,
   mkCState (Some action)
     (if _is_clearly_action st trimmed || _is_scene_element trimmed
      then false else in_dialogue_block st)).

(** [classify_line]: the rules in their order; the result is the element
    and the state after the call. *)
Definition classify_line (st : CState) (line : str) (position : nat)
  (lines : list str) : option (Element * CState) :=
  let trimmed := strip line in
  let leading_spaces := leading line in
  if contd_cue trimmed
  then Some (element character trimmed 38, mkCState (Some character) true)
  else
  hyphenated <- hyphenated_guard trimmed position lines ;;
  if hyphenated
  then Some (element dialogue trimmed 25, mkCState (Some dialogue) true)
  else if _is_pre_scene_element trimmed
  then Some (element pre_scene trimmed 0, mkCState (Some pre_scene) false)
  else if Patterns.is_scene_heading trimmed
  then Some (element scene_heading trimmed 12,
             mkCState (Some scene_heading) false)
  else if _is_transition trimmed
  then Some (element transition trimmed 55, mkCState (Some transition) false)
  else
  is_name <- _is_character_name trimmed leading_spaces position lines ;;
  if is_name
  then Some (element character trimmed 38, mkCState (Some character) true)
  else if parenthetical_guard st trimmed
  then Some (element parenthetical trimmed 30,
             mkCState (Some parenthetical) (in_dialogue_block st))
  else if dialogue_guard st
  then
    if strong_action_signal st trimmed
    then Some (element action trimmed 12, mkCState (Some action) false)
    else if score_test st trimmed leading_spaces position lines
    then Some (element dialogue trimmed 25,
               mkCState (Some dialogue) (in_dialogue_block st))
    else if last_in st [character; dialogue] && truthy trimmed
    then
      if _contains_action_indicators trimmed || _is_basic_action_line trimmed
      then Some (element action trimmed 12, mkCState (Some action) false)
      else
        in_block <- continuation_guard position lines ;;
        if in_block
        then Some (element dialogue trimmed 25,
                   mkCState (Some dialogue) (in_dialogue_block st))
        else if (18 <=? leading_spaces) && (leading_spaces <=? 35)
        then Some (element dialogue trimmed 25,
                   mkCState (Some dialogue) (in_dialogue_block st))
        else Some (element action trimmed 12, mkCState (Some action) false)
    else Some (default_action st trimmed)
  else Some (default_action st trimmed).

(** The indentation that the classifier gives to each type. *)
Definition canonical_indent (t : etype) : nat :=
  match t with
  | character => 38
  | dialogue => 25
  | parenthetical => 30
  | action => 12
  | scene_heading => 12
  | transition => 55
  | pre_scene => 0
  end.

Definition is_false (o : option bool) : bool :=
  match o with Some false => true | _ => false end.

Definition is_true (o : option bool) : bool :=
  match o with Some true => true | _ => false end.

(** The line passes the rules 0 to 5 and enters the dialogue/action step
    of rule 6. *)
Definition reaches_dialogue_step (st : CState) (line : str) (position : nat)
  (lines : list str) : bool :=
  let trimmed := strip line in
  negb (contd_cue trimmed)
  && is_false (hyphenated_guard trimmed position lines)
  && negb (_is_pre_scene_element trimmed)
  && negb (Patterns.is_scene_heading trimmed)
  && negb (_is_transition trimmed)
  && is_false (_is_character_name trimmed (leading line) position lines)
  && negb (parenthetical_guard st trimmed)
  && dialogue_guard st.

(** The second override of rule 6, in the continuation check: the score
    test has failed and the line is a basic action line. *)
Definition continuation_override (st : CState) (line : str) (position : nat)
  (lines : list str) : bool :=
  let trimmed := strip line in
  negb (score_test st trimmed (leading line) position lines)
  && last_in st [character; dialogue] && truthy trimmed
  && (_contains_action_indicators trimmed || _is_basic_action_line trimmed).

End Classifier.

Import Classifier.

(** ** The parser ([ScreenplayParser]): artifact repair, page numbers,
       scene assembly and formatting *)

Module Parser.

(** [_is_page_number] *)
Definition page_patterns : list re :=
  [ rx "^\d{1,4}\.{0,2}$";
    rx "^\d{1,4}\s*$";
    rx "^Page\s+\d+";
    rx "^\d{1,4}/\d{1,4}$";
    rx "^-\s*\d+\s*-$";
    rx "^\(\d+\)$" ].

Definition _is_page_number (line : str) : bool :=
  let stripped := strip line in
  if negb (truthy stripped) then false
  else existsb (fun pattern => re_match IGNORECASE pattern stripped)
         page_patterns.

(** [fix_repeated_chars]: the characters of the match, each kept at its
    first occurrence. *)
Fixpoint unique_chars (corrupted : str) (seen : str) : str :=
  match corrupted with
  | [] => seen
  | c :: rest' =>
      if existsb (Ascii.eqb c) seen then unique_chars rest' seen
      else unique_chars rest' (seen ++ [c])
  end.

Definition fix_repeated_chars : list (nat * str) -> str -> str :=
  fun _ corrupted => unique_chars corrupted [].

(** [character_fixes], in the order of the dictionary. *)
Definition character_fixes : list (re * str) :=
  [ (rx "H+A+N+A+H+", "HANNAH" : str);
    (rx "D+E+E+[-\s]*F+I+[-\s]*D+O+M+", "DE-FI DOM" : str);
    (rx "D+E+[-\s]*F+I+[-\s]*D+O+M+", "DE-FI DOM" : str);
    (rx "P+A+T+R+I+C+K+", "PATRICK" : str);
    (rx "P+A+T+R+I+C+[RK]+", "PATRICK" : str);
    (rx "R+O+G+E+R+", "ROGER" : str);
    (rx "B+O+U+N+C+E+R+", "BOUNCER" : str);
    (rx "K+E+V+I+N+", "KEVIN" : str);
    (rx "B+R+I+A+N+", "BRIAN" : str);
    (rx "S+A+M+", "SAM" : str) ].

(** One substitution of the pipeline: flags, pattern, replacement. *)
Record repair : Type := mkRepair
  { rp_flags : flags; rp_pattern : re;
    rp_repl : list (nat * str) -> str -> str }.

Definition apply_repair (text : str) (r : repair) : str :=
  re_sub (rp_flags r) (rp_pattern r) (rp_repl r) text.

(** The substitutions of [_clean_extraction_artifacts], in their order.
    In the classes of quotes the double quote is written [\x22]. *)
Definition repairs : list repair :=
  map (fun cf => mkRepair IGNORECASE (fst cf) (const_repl (snd cf)))
      character_fixes
  ++
  [ mkRepair no_flags (rx "([A-Z])\1{2,}([A-Z])\2{2,}([A-Z])\3{2,}")
      fix_repeated_chars;
    mkRepair no_flags (rx "([A-Z])\1{2,}([A-Z])\2{2,}") fix_repeated_chars;
    mkRepair no_flags (rx "([A-Z])\1{3,}") (fun c _ => group 1 c);
    mkRepair IGNORECASE (rx "C+O+N+T+[\'\x22]*D+") (const_repl "CONT'D");
    mkRepair IGNORECASE (rx "CONT[\'\x22]{2,}DD?") (const_repl "CONT'D");
    mkRepair IGNORECASE (rx "CONT[\'\x22]*DD") (const_repl "CONT'D");
    mkRepair no_flags (rx "\(\(([^)]+)\)\)")
      (fun c _ => "(" ++ group 1 c ++ ")");
    mkRepair no_flags (rx "''") (const_repl "'");
    mkRepair no_flags (rx "([A-Z]+)\s*\(\(([A-Z\s\']+)\)\)")
      (fun c _ => group 1 c ++ " (" ++ group 2 c ++ ")");
    mkRepair MULTILINE (rx "^\d{1,4}\.{0,2}$") (const_repl []);
    mkRepair MULTILINE (rx "^\d{1,4}\s*$") (const_repl []);
    mkRepair MULTILINE_IGNORECASE (rx "^Page\s+\d+") (const_repl []);
    mkRepair MULTILINE (rx "^\d{1,4}/\d{1,4}$") (const_repl []);
    mkRepair MULTILINE (rx "^-\s*\d+\s*-$") (const_repl []);
    mkRepair MULTILINE (rx "^\(\d+\)$") (const_repl []);
    mkRepair no_flags (rx "\n{4,}") (const_repl [nl; nl; nl]) ].

(** [_clean_extraction_artifacts] *)
Definition _clean_extraction_artifacts (text : str) : str :=
  if negb (truthy text) then text
  else fold_left apply_repair repairs text.

(** The record of a scene in the result. *)
Record Scene : Type := mkScene
  { heading : str; content : str; characters : list str;
    page_start : Z; page_end : Z }.

Record Page : Type := mkPage { page_num : Z; lines : list str }.

(** [_needs_spacing]: the table of the pairs that take a blank line. *)
Definition _needs_spacing (last_type current_type : etype) : bool :=
  match last_type, current_type with
  | action, character | dialogue, character
  | parenthetical, character | transition, character => true
  | dialogue, action | character, action
  | parenthetical, action | transition, action => true
  | action, scene_heading | dialogue, scene_heading
  | character, scene_heading | parenthetical, scene_heading
  | transition, scene_heading | pre_scene, scene_heading => true
  | action, transition | dialogue, transition
  | character, transition | parenthetical, transition => true
  | action, pre_scene | dialogue, pre_scene | character, pre_scene => true
  | _, _ => false
  end.

Definition focus_names : list string :=
  [ "hannah"; "de-fi dom"; "patrick"; "roger"; "kevin"; "brian"; "sam" ].

(** [next((name for name in names if text.startswith(name.lower())), None)] *)
Definition first_name (text_lower : str) : option str :=
  find (fun name : str => startswith text_lower (lower name))
       (strs focus_names).

Definition opt_str_eqb (a b : option str) : bool :=
  match a, b with
  | Some x, Some y => str_eqb x y
  | None, None => true
  | _, _ => false
  end.

(** [_is_new_action_paragraph]; the list of elements and the index are
    not read. *)
Definition _is_new_action_paragraph (last_action current_action : str)
  : bool :=
  let last_lower := lower last_action in
  let current_lower := lower current_action in
  let last_starts_with_char :=
    existsb (fun name : string => startswith last_lower (lower name))
      focus_names in
  let current_starts_with_char :=
    existsb (fun name : string => startswith current_lower (lower name))
      focus_names in
  if last_starts_with_char && current_starts_with_char
     && negb (opt_str_eqb (first_name last_lower) (first_name current_lower))
  then true
  else
    let scene_elements :=
      [ "work desk"; "clothing rack"; "wall mirror"; "phone cam pov";
        "angle on"; "close on" ] in
    if any_in last_lower scene_elements && any_in current_lower scene_elements
    then true
    else if endswith (strip last_action) "."
            && match strip current_action with
               | c :: _ => is_upper_c c
               | [] => false
               end
            && any_prefix current_lower
                 [ "the "; "a "; "an "; "buzzing"; "hannah"; "de-fi";
                   "patrick" ]
    then true
    else if any_in current_lower
              [ "later"; "moments later"; "meanwhile"; "suddenly"; "then";
                "now" ]
    then true
    else false.

Definition SCENE_ELEMENTS : list string :=
  [ "WORK DESK"; "CLOTHING RACK"; "WALL MIRROR"; "DANCE FLOOR";
    "ANGLE ON:"; "CLOSE ON:"; "INSERT:"; "BACK TO SCENE";
    "PHONE CAM POV:"; "END PHONE CAM POV:"; "PRE-LAP:"; "PRELAP:";
    "ANGLE ON"; "CLOSE ON"; "INSERT"; "TIGHT ON"; "WIDE ON" ].

(** The working variables of the loop of [format_screenplay_content]. *)
Record FState : Type := mkFState
  { formatted_lines : list str;
    last_type : option etype;
    last_action_text : option str }.

Definition opt_truthy (o : option str) : bool :=
  match o with Some s => truthy s | None => false end.

Definition is_type (o : option etype) (t : etype) : bool :=
  match o with Some u => etype_eqb u t | None => false end.

(** The working variables of the loop of [_parse_sequential_content]. *)
Record PState : Type := mkPState
  { scenes : list Scene;
    current_scene_heading : option str;
    current_scene_elements : list Element;
    scene_characters : list str;
    current_scene_page : Z;
    classifier : CState }.

Definition initial : PState := mkPState [] None [] [] 1%Z init.

(** [set.add]; the model keeps the order of first insertion. *)
Definition set_add (x : str) (l : list str) : list str :=
  if existsb (str_eqb x) l then l else l ++ [x].

(** [current_scene_heading or current_scene_elements] *)
Definition scene_open (ps : PState) : bool :=
  opt_truthy (current_scene_heading ps)
  || match current_scene_elements ps with [] => false | _ => true end.

Fixpoint fold_opt {A B : Type} (f : A -> B -> option A) (l : list B)
  (a : A) : option A :=
  match l with
  | [] => Some a
  | b :: l' => a' <- f a b ;; fold_opt f l' a'
  end.

(** [enumerate(lines)] *)
Definition enumerate {A : Type} (l : list A) : list (nat * A) :=
  combine (seq 0 (length l)) l.

(** [element['page'] = page_num] *)
Definition stamp (page : Z) (e : Element) : Element :=
  mkElement (el_type e) (el_text e) (el_indent e) (Some page).

(** [page_num - 1 if page_num > 1 else 1] *)
Definition page_before (page : Z) : Z :=
  if (1 <? page)%Z then (page - 1)%Z else 1%Z.

(** [pages_data[-1]['page_num'] if pages_data else 1] *)
Definition last_page (pages_data : list Page) : Z :=
  match rev pages_data with
  | p :: _ => page_num p
  | [] => 1%Z
  end.

(** The element that a line gives, if any: blank lines, page numbers
    and lines that artifact repair empties give none.  The outer [None]
    is an exception of the classifier. *)
Definition classify_raw (cs : CState) (i : nat) (raw_line : str)
  (page_lines : list str) : option (option (Element * CState)) :=
  if negb (truthy (strip raw_line)) then Some None
  else if _is_page_number raw_line then Some None
  else
    let clean_line := _clean_extraction_artifacts raw_line in
    if negb (truthy (strip clean_line)) then Some None
    else
      r <- classify_line cs clean_line i page_lines ;;
      Some (Some r).

(** The elements that the classifier emits over a document, in their
    order: the loop of [_parse_sequential_content] without the assembly
    of scenes.  The state is the classifier and the elements so far. *)
Definition trace_step (page : Page) (ct : CState * list Element)
  (il : nat * str) : option (CState * list Element) :=
  r <- classify_raw (fst ct) (fst il) (snd il) (lines page) ;;
  match r with
  | None => Some ct
  | Some (e, cs) => Some (cs, snd ct ++ [stamp (page_num page) e])
  end.

Definition trace_page (ct : CState * list Element) (page : Page)
  : option (CState * list Element) :=
  fold_opt (trace_step page) (enumerate (lines page)) ct.

Definition classified_elements (pages_data : list Page)
  : option (list Element) :=
  ct <- fold_opt trace_page pages_data (init, []) ;;
  Some (snd ct).

Definition not_heading (e : Element) : bool :=
  negb (etype_eqb (el_type e) scene_heading).

Section Formatting.

(** [textwrap.wrap(text, width=width, break_long_words=False)] of the
    standard library of Python. *)
Variable textwrap_wrap : str -> nat -> list str.

Definition _wrap_text (text : str) (width : nat) : list str :=
  textwrap_wrap text width.

(** The lines that an element itself gives, at its indentation. *)
Definition rendered (e : Element) : list str :=
  let text := strip (el_text e) in
  let indent := el_indent e in
  match el_type e with
  | pre_scene => [spaces 12 ++ text]
  | scene_heading => [spaces indent ++ upper text]
  | action => if truthy text then [spaces indent ++ text] else []
  | character => [spaces indent ++ upper text]
  | dialogue => map (fun line => spaces indent ++ line) (_wrap_text text 35)
  | parenthetical => [spaces indent ++ text]
  | transition => [spaces (72 - length text) ++ upper text]
  end.

Definition is_scene_element (text : str) : bool :=
  existsb (fun se : string =>
             startswith (upper text) (rstrip_char ":" se))
    SCENE_ELEMENTS.

(** The blank lines put before the element. *)
Definition blanks_before (fs : FState) (e : Element) : list str :=
  let element_type := el_type e in
  let text := strip (el_text e) in
  (if is_scene_element text
      && match last_type fs with
         | Some t => negb (etype_eqb t scene_heading)
         | None => false
         end
   then [[]] else [])
  ++ (if match last_type fs with
         | Some t => _needs_spacing t element_type
         | None => false
         end
      then [[]] else [])
  ++ (if etype_eqb element_type action && is_type (last_type fs) action
         && opt_truthy (last_action_text fs)
         && negb (is_scene_element text)
      then
        match last_action_text fs with
        | Some last_action =>
            if _is_new_action_paragraph last_action text
            then [[]] else []
        | None => []
        end
      else [])
  ++ (if etype_eqb element_type character && is_type (last_type fs) action
      then [[]] else []).

(** The blank lines put after the element. *)
Definition blanks_after (e : Element) : list str :=
  let text := strip (el_text e) in
  match el_type e with
  | pre_scene => if truthy text then [[]] else []
  | scene_heading => [[]]
  | action =>
      if truthy text && is_scene_element text then [[]] else []
  | transition => [[]]
  | _ => []
  end.

(** One turn of the loop of [format_screenplay_content]. *)
Definition format_step (fs : FState) (e : Element) : FState :=
  let text := strip (el_text e) in
  mkFState
    (formatted_lines fs ++ blanks_before fs e ++ rendered e
       ++ blanks_after e)
    (Some (el_type e))
    (if etype_eqb (el_type e) action && truthy text
     then Some text else last_action_text fs).

Definition format_lines (elements : list Element) : list str :=
  formatted_lines (fold_left format_step elements (mkFState [] None None)).

(** [format_screenplay_content] *)
Definition format_screenplay_content (elements : list Element) : str :=
  let result := join [nl] (format_lines elements) in
  re_sub no_flags (rx "\n{4,}") (const_repl [nl; nl; nl]) result.

(** The scene appended when a heading arrives or the document ends. *)
Definition close_scene (ps : PState) (page_end : Z) : Scene :=
  mkScene
    (if opt_truthy (current_scene_heading ps)
     then match current_scene_heading ps with
          | Some h => spaces 12 ++ upper h
          | None => []
          end
     else [])
    (format_screenplay_content (current_scene_elements ps))
    (scene_characters ps)
    (current_scene_page ps)
    page_end.

(** What the loop does with a classified element. *)
Definition assemble (ps : PState) (page : Z) (e0 : Element) (cs : CState)
  : PState :=
  let e := stamp page e0 in
  match el_type e with
  | scene_heading =>
      mkPState
        (if scene_open ps
         then scenes ps ++ [close_scene ps (page_before page)]
         else scenes ps)
        (Some (el_text e)) [] [] page cs
  | character =>
      let clean_name :=
        strip (re_sub no_flags (rx "\s*\([^)]+\)") (const_repl [])
                 (el_text e)) in
      mkPState (scenes ps) (current_scene_heading ps)
        (current_scene_elements ps ++ [e])
        (if truthy clean_name && (2 <=? length clean_name)
            && (length clean_name <=? 35)
         then set_add clean_name (scene_characters ps)
         else scene_characters ps)
        (current_scene_page ps) cs
  | _ =>
      mkPState (scenes ps) (current_scene_heading ps)
        (current_scene_elements ps ++ [e])
        (scene_characters ps) (current_scene_page ps) cs
  end.

(** One turn of the inner loop, on line [i] of the page. *)
Definition line_step (page : Page) (ps : PState) (il : nat * str)
  : option PState :=
  r <- classify_raw (classifier ps) (fst il) (snd il) (lines page) ;;
  match r with
  | None => Some ps
  | Some (e, cs) => Some (assemble ps (page_num page) e cs)
  end.

Definition page_step (ps : PState) (page : Page) : option PState :=
  fold_opt (line_step page) (enumerate (lines page)) ps.

(** The scenes when the document ends. *)
Definition finish (pages_data : list Page) (ps : PState) : list Scene :=
  if scene_open ps
  then scenes ps ++ [close_scene ps (last_page pages_data)]
  else scenes ps.

(** [_parse_sequential_content] *)
Definition _parse_sequential_content (pages_data : list Page)
  : option (list Scene) :=
  ps <- fold_opt page_step pages_data initial ;;
  Some (finish pages_data ps).

End Formatting.

End Parser.

Import Parser.

(** ** Notions used in the statements *)

(** The thresholds as the specification words them: above 0.85; above
    0.75 after a character cue, a parenthetical or dialogue; at least 0.60
    after a character cue. *)
Definition spec_score_rule (st : CState) (score : nat) : bool :=
  (85 <? score)
  || ((75 <? score) && last_in st [character; parenthetical; dialogue])
  || ((60 <=? score) && last_in st [character]).

(** The two ways to dialogue in the dialogue/action step: the score test
    with its side conditions, and the fall-back of the continuation
    check. *)
Definition score_path (st : CState) (line : str) : bool :=
  let trimmed := strip line in
  let leading_spaces := leading line in
  truthy trimmed
  && negb (_is_scene_element trimmed)
  && (18 <=? leading_spaces) && (leading_spaces <=? 35)
  && negb (_is_basic_action_line trimmed)
  && negb (_contains_definitive_action_patterns trimmed)
  && spec_score_rule st (dialogue_score trimmed).

Definition fallback_path (st : CState) (line : str) (position : nat)
  (lines : list str) : bool :=
  let trimmed := strip line in
  let leading_spaces := leading line in
  last_in st [character; dialogue]
  && truthy trimmed
  && negb (_is_basic_action_line trimmed)
  && (is_true (continuation_guard position lines)
      || ((18 <=? leading_spaces) && (leading_spaces <=? 35))).

(** The claim on the score as the specification states it: in the
    dialogue/action step, with no strong action signal, dialogue is
    emitted exactly when the score passes the thresholds. *)
Definition dialogue_iff_score : Prop :=
  forall st line position lines e st',
    reaches_dialogue_step st line position lines = true ->
    strong_action_signal st (strip line) = false ->
    classify_line st line position lines = Some (e, st') ->
    (el_type e = dialogue
     <-> spec_score_rule st (dialogue_score (strip line)) = true).


(** The character before the position, once [run] has been read. *)
Definition after (p : option ascii) (run : str) : option ascii :=
  fold_left (fun _ c => Some c) run p.

(** A pattern that reads one character, those that pass [test]. *)
Definition one_char (fl : flags) (r : re) (test : ascii -> bool) : Prop :=
  forall st k, rmatch fl r st k = step_if test st k.

(** The result depends on the continuation only at states with no more
    text left than the current one. *)
Definition local (body : mstate -> (mstate -> option mstate) -> option mstate)
  : Prop :=
  forall st k k',
    (forall st1, length (rest st1) <= length (rest st) -> k st1 = k' st1) ->
    body st k = body st k'.

(** Whether a match has been found. *)
Definition found (o : option mstate) : bool :=
  match o with Some _ => true | None => false end.

(** The texts of a pattern made of literal characters, sequences,
    alternatives and groups only. *)
Fixpoint literals (r : re) : option (list str) :=
  match r with
  | REps => Some [[]]
  | RChar c => Some [[c]]
  | RSeq a b =>
      match literals a, literals b with
      | Some la, Some lb =>
          Some (flat_map (fun x => map (fun y => x ++ y) lb) la)
      | _, _ => None
      end
  | RAlt a b =>
      match literals a, literals b with
      | Some la, Some lb => Some (la ++ lb)
      | _, _ => None
      end
  | RGroup _ a => literals a
  | _ => None
  end.

(** A continuation whose success does not depend on the groups. *)
Definition blind (k : mstate -> option mstate) : Prop :=
  forall p s c c', found (k (MState p s c)) = found (k (MState p s c')).

(** What the claim on scene headings asks of an upper-case line: a
    length of 10 to 100 and a scene opening or a time of day. *)
Definition heading_shape (line : str) : bool :=
  (10 <=? length line) && (length line <=? 100)
  && (any_prefix line ["INT."; "EXT."; "EST."; "INT/EXT."]
      || any_prefix line ["INTERIOR"; "EXTERIOR"]
      || any_in line ["- DAY"; "- NIGHT"; "- DAWN"; "- DUSK"; "- MORNING";
                      "- AFTERNOON"; "- EVENING"; "- LATER";
                      "- CONTINUOUS"]).

(** The forms of a page number, as the specification lists them: a bare
    number of one to four digits with up to two periods, [Page N],
    [N/M], [- N -] and [(N)]. *)
Definition digits (ds : str) : Prop :=
  ds <> [] /\ forallb is_digit_c ds = true.

Definition blanks (ws : str) : Prop := forallb is_space_c ws = true.

Inductive page_number_form : str -> Prop :=
| pn_bare (ds : str) (periods : nat) :
    digits ds -> length ds <= 4 -> periods <= 2 ->
    page_number_form (ds ++ repeat "."%char periods)
| pn_page (ws ds : str) :
    ws <> [] -> blanks ws -> digits ds ->
    page_number_form ("Page" ++ ws ++ ds)
| pn_ratio (ds1 ds2 : str) :
    digits ds1 -> length ds1 <= 4 -> digits ds2 -> length ds2 <= 4 ->
    page_number_form (ds1 ++ "/" ++ ds2)
| pn_dashes (ws1 ds ws2 : str) :
    blanks ws1 -> digits ds -> blanks ws2 ->
    page_number_form ("-" ++ ws1 ++ ds ++ ws2 ++ "-")
| pn_parens (ds : str) :
    digits ds -> page_number_form ("(" ++ ds ++ ")").

(** The heading of a scene is empty or comes from a classified heading. *)
Definition heading_from (tr : list Element) (s : Scene) : Prop :=
  heading s = []
  \/ exists e, In e tr /\ el_type e = scene_heading
               /\ heading s = spaces 12 ++ upper (el_text e).

(** What the loop of [_parse_sequential_content] keeps true: the closed
    scenes render groups of elements; these groups, then the elements of
    the open scene, are the classified elements that are not headings, in
    their order; the headings come from classified headings; the
    classified elements have the indentation of their type. *)
Definition assembled (textwrap_wrap : str -> nat -> list str) (ps : PState)
  (tr : list Element) : Prop :=
  (exists groups,
     map content (scenes ps)
     = map (format_screenplay_content textwrap_wrap) groups
     /\ concat groups ++ current_scene_elements ps = filter not_heading tr)
  /\ Forall (heading_from tr) (scenes ps)
  /\ (forall h, current_scene_heading ps = Some h ->
        exists e, In e tr /\ el_type e = scene_heading /\ el_text e = h)
  /\ Forall (fun e => el_indent e = canonical_indent (el_type e)) tr.

Definition in_step (textwrap_wrap : str -> nat -> list str) (ps : PState)
  (ct : CState * list Element) : Prop :=
  classifier ps = fst ct /\ assembled textwrap_wrap ps (snd ct).

(** ** Sample inputs *)

Definition in_block_after (last : etype) : CState := mkCState (Some last) true.

Definition vegas_line : str :=
  "                         Old Town Vegas with cheap vodka".

Definition know_line : str := "I know.".

Definition dan_line : str := "Dan Bilzerian jet skis across the water.".

Definition believe_text : str := "I can't believe this is happening.".

Definition believe_line : str := spaces 25 ++ believe_text.

Definition lower_case_heading : str := "int. kitchen - day".



Definition kitchen_pages : list Page :=
  [ mkPage 1 (strs ["INT. KITCHEN - DAY"; "John opens the fridge."]) ].

Definition page_then_repair : list Page :=
  [ mkPage 1 (strs ["(42)"; " ((42))"]) ].

(** A stand-in for [textwrap.wrap] on the sample documents: their
    dialogue, if any, fits in one line of 35 columns. *)
Definition one_line (text : str) (width : nat) : list str := [text].

(** ** Python text methods: [split], [count], [str] of a number *)

Module Text.

(** [str.split()]: the words between runs of white space; [word] is the
    word being read. *)
Fixpoint words_from (s word : str) : list str :=
  match s with
  | [] => if truthy word then [word] else []
  | c :: s' =>
      if is_space_c c
      then if truthy word then word :: words_from s' [] else words_from s' []
      else words_from s' (word ++ [c])
  end.

Definition split (s : str) : list str := words_from s [].


(** [s.count(sub)]: the occurrences of [sub] that do not overlap, from
    the left; [skip] counts the characters of the last occurrence still
    to pass. *)
Fixpoint count_from (s sub : str) (skip : nat) {struct s} : nat :=
  match s with
  | [] =>
      match skip with
      | 0 => if startswith [] sub then 1 else 0
      | S _ => 0
      end
  | _ :: s' =>
      match skip with
      | 0 =>
          if startswith s sub
          then S (count_from s' sub (pred (length sub)))
          else count_from s' sub 0
      | S n => count_from s' sub n
      end
  end.

Definition count (s sub : str) : nat := count_from s sub 0.

(** The decimal digits of a number, the last ones first in [acc]. *)
Fixpoint digits_of (fuel n : nat) (acc : str) : str :=
  match fuel with
  | 0 => acc
  | S fuel' =>
      let acc' := ascii_of_nat (48 + n mod 10) :: acc in
      if n <? 10 then acc' else digits_of fuel' (n / 10) acc'
  end.

(** [str(n)], also [f"{n}"] *)
Definition str_of_nat (n : nat) : str := digits_of (S n) n [].

(** [f"{n:03d}"] for the width 3 *)
Definition zero_padded (width n : nat) : str :=
  repeat "0"%char (width - length (str_of_nat n)) ++ str_of_nat n.


End Text.

Import Text.

(** ** The pattern library: cleaning a line *)

Module Cleaner.

(** [self.pdf_artifacts]; the last pattern is the class of the control
    characters, [[\x00-\x1F\x7F-\x9F]], given by its two ranges. *)
Definition pdf_artifacts : list re :=
  [ rx "\(\([A-Z\s]+\)\)";
    rx "([A-Z])\1{3,}";
    rx "^\d{2,4}\.{0,2}$";
    rx "^Page\s+\d+";
    rx "^\d+$";
    RSet false [ CRange (ascii_of_nat 0) (ascii_of_nat 31);
                 CRange (ascii_of_nat 127) (ascii_of_nat 159) ] ].

(** [clean_pdf_artifacts] of the pattern library. *)
Definition clean_pdf_artifacts (text : str) : str :=
  if negb (truthy text) then text
  else
    let text1 :=
      fold_left (fun t pattern => re_sub IGNORECASE pattern (const_repl []) t)
        pdf_artifacts text in
    strip (join " " (split text1)).


End Cleaner.

Import Cleaner.

(** ** The parser: wrapping, dialogue blocks, the report *)

Module Service.

(** [_wrap_dialogue_text]: one turn of the loop over the words, on the
    lines so far and the current line. *)
Definition wrap_step (max_width : nat) (st : list str * str) (word : str)
  : list str * str :=
  let (wrapped, current_line) := st in
  let test_line := strip (current_line ++ " " ++ word) in
  if length test_line <=? max_width
  then (wrapped, test_line)
  else ((if truthy current_line then wrapped ++ [current_line] else wrapped),
        word).

Definition _wrap_dialogue_text (text : str) (max_width : nat) : list str :=
  if length text <=? max_width then [text]
  else
    let (wrapped, current_line) :=
      fold_left (wrap_step max_width) (split text) ([], []) in
    if truthy current_line then wrapped ++ [current_line] else wrapped.


(** The working variables of the loop of [_detect_dialogue]. *)
Record DState : Type := mkDState
  { dialogue_blocks : list str;
    current_dialogue : list str;
    in_dialogue : bool }.

(** [if current_dialogue: dialogue_blocks.append('\n'.join(...))] *)
Definition flush (blocks : list str) (current : list str) : list str :=
  match current with
  | [] => blocks
  | _ => blocks ++ [join [nl] current]
  end.

(** One turn of the loop over the lines of a page. *)
Definition detect_line (ds : DState) (line : str) : DState :=
  if Patterns.is_character_name line
  then mkDState (flush (dialogue_blocks ds) (current_dialogue ds)) [line] true
  else if in_dialogue ds && negb (Patterns.is_scene_heading line)
  then mkDState (dialogue_blocks ds) (current_dialogue ds ++ [line])
         (in_dialogue ds)
  else mkDState (flush (dialogue_blocks ds) (current_dialogue ds)) [] false.

(** One page: the block in progress is closed at the end of the page. *)
Definition detect_page (blocks : list str) (page : Page) : list str :=
  let ds := fold_left detect_line (lines page) (mkDState blocks [] false) in
  flush (dialogue_blocks ds) (current_dialogue ds).

(** [_detect_dialogue] *)
Definition _detect_dialogue (pages_data : list Page) : list str :=
  fold_left detect_page pages_data [].


(** The entry of a character in the result of [_format_for_scriptorly]. *)
Record Profile : Type := mkProfile
  { appearances : nat;
    scenes_present : list str;
    arc_phase : str;
    emotional_state : str;
    notes : str;
    triggers : list str;
    support : list str;
    dialogueCount : nat }.

Definition new_profile : Profile := mkProfile 0 [] [] [] [] [] [] 0.

(** The dictionary of the characters: the keys in the order of their
    insertion, each one once. *)
Definition Profiles : Type := list (str * Profile).

(** [char in scriptorly_characters] *)
Definition has_key (d : Profiles) (char : str) : bool :=
  existsb (fun kv => str_eqb char (fst kv)) d.

(** [scriptorly_characters[char]] *)
Fixpoint get (d : Profiles) (char : str) : option Profile :=
  match d with
  | [] => None
  | (k, p) :: d' => if str_eqb char k then Some p else get d' char
  end.

(** An update of the entry of [char]. *)
Fixpoint update (d : Profiles) (char : str) (f : Profile -> Profile)
  : Profiles :=
  match d with
  | [] => []
  | (k, p) :: d' =>
      if str_eqb char k then (k, f p) :: d' else (k, p) :: update d' char f
  end.

(** [f"scene_{n:03d}"] *)
Definition scene_id (n : nat) : str := "scene_" ++ zero_padded 3 n.

(** The statistics of a character after one more scene. *)
Definition count_appearance (scene_content char : str) (p : Profile)
  : Profile :=
  mkProfile (appearances p + 1)
    (scenes_present p ++ [scene_id (length (scenes_present p) + 1)])
    (arc_phase p) (emotional_state p) (notes p) (triggers p) (support p)
    (dialogueCount p + count scene_content (upper char)).

(** One turn of the inner loop, for a character of a scene. *)
Definition visit (scene_content : str) (d : Profiles) (char : str)
  : Profiles :=
  let d1 := if has_key d char then d else d ++ [(char, new_profile)] in
  update d1 char (count_appearance scene_content char).

Definition visit_scene (d : Profiles) (scene : Scene) : Profiles :=
  fold_left (visit (content scene)) (characters scene) d.

(** The note of a character. *)
Definition write_notes (p : Profile) : Profile :=
  mkProfile (appearances p) (scenes_present p) (arc_phase p)
    (emotional_state p)
    ("Appears in " ++ str_of_nat (appearances p) ++ " scenes with "
     ++ str_of_nat (dialogueCount p) ++ " lines of dialogue")
    (triggers p) (support p) (dialogueCount p).

(** The profiles of the characters of a list of scenes. *)
Definition character_profiles (scriptorly_scenes : list Scene) : Profiles :=
  map (fun kv => (fst kv, write_notes (snd kv)))
    (fold_left visit_scene scriptorly_scenes []).


(** The result of [_format_for_scriptorly]. *)
Record Report (Metadata Quality : Type) : Type := mkReport
  { out_metadata : Metadata;
    out_scenes : list Scene;
    out_characters : Profiles;
    totalPages : nat;
    out_quality : Quality;
    enhancedParsing : bool }.

Section Scriptorly.

Variable textwrap_wrap : str -> nat -> list str.
Variables Metadata Quality : Type.

(** [_format_for_scriptorly] *)
Definition _format_for_scriptorly (metadata : Metadata)
  (pages_data : list Page) (quality : Quality) (total_pages : nat)
  : option (Report Metadata Quality) :=
  match _parse_sequential_content textwrap_wrap pages_data with
  | Some scriptorly_scenes =>
      Some (mkReport metadata scriptorly_scenes
              (character_profiles scriptorly_scenes) total_pages quality
              true)
  | None => None
  end.

End Scriptorly.


End Service.

Import Service.

(** ** Notions used in the further properties *)

(** The length of the run of characters that pass [test] at the start of
    a text. *)
Fixpoint run_of (test : ascii -> bool) (s : str) : nat :=
  match s with
  | c :: s' => if test c then S (run_of test s') else 0
  | [] => 0
  end.

(** A pattern of optional repetitions: it matches at any position,
    whatever follows. *)
Fixpoint optional (r : re) : bool :=
  match r with
  | REps => true
  | RRep _ 0 _ => true
  | RSeq a b => optional a && optional b
  | _ => false
  end.

(** The texts that a pattern asks for at the start of a match, for a
    pattern made of literal characters and optional literal characters
    and closed by optional repetitions. *)
Fixpoint openings (r : re) : option (list str) :=
  match r with
  | RChar c => Some [[c]]
  | RSeq (RChar c) b =>
      match openings b with
      | Some L => Some (map (cons c) L)
      | None => None
      end
  | RSeq (RRep (RChar c) 0 (Some 1)) b =>
      if optional b then Some [[]]
      else
        match openings b with
        | Some L => Some (map (cons c) L ++ L)
        | None => None
        end
  | _ => if optional r then Some [[]] else None
  end.

(** The literal characters at the head of a pattern. *)
Fixpoint opening (r : re) : str :=
  match r with
  | RChar c => [c]
  | RSeq (RChar c) b => c :: opening b
  | _ => []
  end.


(** The line feed, as a test on characters. *)
Definition is_nl : ascii -> bool := Ascii.eqb nl.

(** The openers of the pre-scene elements. *)
Definition pre_scene_openers : list string :=
  [ "OVER BLACK"; "FADE IN"; "BLACK SCREEN"; "TITLE CARD"; "SUPER";
    "PRELAP"; "PRE-LAP"; "INSERT"; "TEASER"; "COLD OPEN"; "OPENING TITLE";
    "MAIN TITLE"; "END TITLE"; "CREDITS"; "V.O"; "VO" ].

Definition four_newlines : str := [nl; nl; nl; nl].


(** A word: not empty, no white space. *)
Definition solid (w : str) : bool :=
  truthy w && forallb (fun c => negb (is_space_c c)) w.

(** A control character: 0 to 31 and 127 to 159. *)
Definition is_control_c (c : ascii) : bool :=
  between 0 31 c || between 127 159 c.

(** A line fits the width, or is one word of the text. *)
Definition fits (max_width : nat) (g : list str) : Prop :=
  length (join " " g) <= max_width \/ length g <= 1.

(** A text that starts with something else than white space. *)
Definition edge (s : str) : bool :=
  match s with
  | [] => true
  | c :: _ => negb (is_space_c c)
  end.

(** What the loop of [_wrap_dialogue_text] keeps true, [done] being the
    words read so far: the lines are groups of words joined by a blank,
    the current line is the last group, and every group fits. *)
Definition wrapped_so_far (max_width : nat) (st : list str * str)
  (done : list str) : Prop :=
  exists groups g,
    fst st = map (join " ") groups
    /\ snd st = join " " g
    /\ concat groups ++ g = done
    /\ Forall (fun g => g <> []) groups
    /\ Forall (fits max_width) groups
    /\ fits max_width g.


(** A block of lines led by a cue: the first line is a character name,
    the others are neither character names nor scene headings. *)
Definition cue_led (g : list str) : Prop :=
  match g with
  | cue :: others =>
      Patterns.is_character_name cue = true
      /\ Forall (fun l => Patterns.is_character_name l = false
                          /\ Patterns.is_scene_heading l = false) others
  | [] => False
  end.

(** The block in progress, if any, as a list of blocks. *)
Definition in_progress (current : list str) : list (list str) :=
  match current with
  | [] => []
  | _ => [current]
  end.

(** What the loop of [_detect_dialogue] keeps true, [done] being the
    lines read so far. *)
Definition detected (ds : DState) (done : list str) : Prop :=
  exists groups,
    dialogue_blocks ds = map (join [nl]) groups
    /\ Forall cue_led (groups ++ in_progress (current_dialogue ds))
    /\ (in_dialogue ds = true -> current_dialogue ds <> [])
    /\ map (hd []) (groups ++ in_progress (current_dialogue ds))
       = filter Patterns.is_character_name done.


Definition is_heading (e : Element) : bool :=
  etype_eqb (el_type e) scene_heading.

(** One for a sequence of elements that starts with something else than
    a scene heading, none otherwise. *)
Definition headless (tr : list Element) : nat :=
  match tr with
  | e :: _ => if is_heading e then 0 else 1
  | [] => 0
  end.

(** The scenes that the loop of [_parse_sequential_content] has closed,
    with the scene in progress when there is one. *)
Definition closing (textwrap_wrap : str -> nat -> list str) (ps : PState)
  (page_end : Z) : list Scene :=
  if scene_open ps
  then scenes ps ++ [close_scene textwrap_wrap ps page_end]
  else scenes ps.

(** The scenes are as many as the headings, with one more for what
    comes before the first heading; only this first scene has no
    heading. *)
Definition tallies (result : list Scene) (tr : list Element) : Prop :=
  length result = length (filter is_heading tr) + headless tr
  /\ Forall (fun s => heading s <> []) (tl result)
  /\ forall s, hd_error result = Some s ->
               (heading s = [] <-> headless tr = 1).

Definition tallied (textwrap_wrap : str -> nat -> list str) (ps : PState)
  (tr : list Element) : Prop :=
  (forall page_end, tallies (closing textwrap_wrap ps page_end) tr)
  /\ (scene_open ps = true <-> tr <> [])
  /\ (opt_truthy (current_scene_heading ps) = true
      <-> 1 <= length (filter is_heading tr)).

(** Each scene ends on the page before the one where the next scene
    starts. *)
Fixpoint chained (l : list Scene) : Prop :=
  match l with
  | s :: l' =>
      match l' with
      | s' :: _ => page_end s = page_before (page_start s') /\ chained l'
      | [] => True
      end
  | [] => True
  end.

Definition paged (ps : PState) : Prop :=
  chained (scenes ps)
  /\ (forall front s, scenes ps = front ++ [s] ->
        page_end s = page_before (current_scene_page ps))
  /\ (scenes ps <> [] -> scene_open ps = true).

(** An invariant of the loop of [_parse_sequential_content], beside the
    sequence of the classified elements. *)
Definition kept (Inv : PState -> list Element -> Prop) (ps : PState)
  (ct : CState * list Element) : Prop :=
  classifier ps = fst ct /\ Inv ps (snd ct).


(** The pairs of a scene content and a character that the two loops of
    [_format_for_scriptorly] go through, in their order. *)
Definition visits (scriptorly_scenes : list Scene) : list (str * str) :=
  flat_map (fun scene =>
              map (fun char => (content scene, char)) (characters scene))
    scriptorly_scenes.

(** The contents of the scenes that list a character, once for each
    time the scene lists it. *)
Definition seen_in (char : str) (turns : list (str * str)) : list str :=
  map fst (filter (fun v => str_eqb char (snd v)) turns).

Definition mentions (char : str) (scriptorly_scenes : list Scene)
  : list str :=
  seen_in char (visits scriptorly_scenes).

(** The entry that a character gets from the scenes that list it. *)
Definition profile_from (char : str) (seen : list str) : Profile :=
  let lines_of_dialogue :=
    list_sum (map (fun scene_content => count scene_content (upper char))
                seen) in
  mkProfile (length seen) (map scene_id (seq 1 (length seen))) [] []
    ("Appears in " ++ str_of_nat (length seen) ++ " scenes with "
     ++ str_of_nat lines_of_dialogue ++ " lines of dialogue")
    [] [] lines_of_dialogue.

Definition entry_of (char : str) (seen : list str) : option Profile :=
  match seen with
  | [] => None
  | _ => Some (profile_from char seen)
  end.

(** What the loops of [_format_for_scriptorly] keep true of the
    dictionary, [turns] being the pairs gone through. *)
Definition tabled (d : Profiles) (turns : list (str * str)) : Prop :=
  forall char,
    option_map write_notes (get d char) = entry_of char (seen_in char turns).


(** ** Scenes as cuts of the classified elements *)

(** A cut of the sequence of classified elements: the scene heading that
    opens it, if any, and the elements that follow up to the next scene
    heading. *)
Definition Cut : Type := (option Element * list Element)%type.

(** One more element in front of a sequence already cut: a scene heading
    takes the first cut when that cut has no heading yet, any other
    element joins it. *)
Definition cut_before (e : Element) (cs : list Cut) : list Cut :=
  match cs with
  | (None, g) :: rest =>
      if is_heading e then (Some e, g) :: rest else (None, e :: g) :: rest
  | _ => if is_heading e then (Some e, []) :: cs else (None, [e]) :: cs
  end.

(** The classified elements cut before each scene heading, in their
    order. *)
Definition cuts (tr : list Element) : list Cut := fold_right cut_before [] tr.

(** The elements of a cut, the heading first. *)
Definition cut_elements (c : Cut) : list Element :=
  match fst c with
  | Some e => e :: snd c
  | None => snd c
  end.

(** The field [heading] that a cut gives: 12 blanks and the text of its
    scene heading in upper case; empty for a cut with no heading. *)
Definition opened_by (c : Cut) : str :=
  match fst c with
  | Some e => spaces 12 ++ upper (el_text e)
  | None => []
  end.

(** The lines of an element at the canonical indentation of its type:
    12 columns for action and for a pre-scene element, 38 for a character
    cue in upper case, 25 for each line of dialogue wrapped at 35
    columns, 30 for a parenthetical, flush right at column 72 for a
    transition in upper case.  An action element with no text gives no
    line. *)
Definition canonical_lines (textwrap_wrap : str -> nat -> list str)
  (e : Element) : list str :=
  let text := strip (el_text e) in
  match el_type e with
  | action => if truthy text then [spaces 12 ++ text] else []
  | character => [spaces 38 ++ upper text]
  | dialogue => map (fun line => spaces 25 ++ line) (textwrap_wrap text 35)
  | parenthetical => [spaces 30 ++ text]
  | pre_scene => [spaces 12 ++ text]
  | transition => [spaces (72 - length text) ++ upper text]
  | scene_heading => [spaces 12 ++ upper text]
  end.

(** A scene made from a cut: its heading is that of the cut, its content
    is the formatted text of the elements after the heading, and it
    starts on the page of its heading (on page 1 with no heading). *)
Definition scene_of_cut (textwrap_wrap : str -> nat -> list str)
  (s : Scene) (c : Cut) : Prop :=
  heading s = opened_by c
  /\ content s = format_screenplay_content textwrap_wrap (snd c)
  /\ match fst c with
     | Some e => el_page e = Some (page_start s)
     | None => page_start s = 1%Z
     end.

(** One more element, not a scene heading, after a sequence already
    cut: it joins the last cut. *)
Fixpoint add_last (e : Element) (cs : list Cut) : list Cut :=
  match cs with
  | [] => [(None, [e])]
  | c :: cs' =>
      match cs' with
      | [] => [(fst c, snd c ++ [e])]
      | _ :: _ => c :: add_last e cs'
      end
  end.

(** The scene in progress in the loop of [_parse_sequential_content] is
    the last cut of the elements read so far. *)
Definition open_cut (ps : PState) (last_cut : list Cut) : Prop :=
  match last_cut with
  | [] =>
      current_scene_heading ps = None
      /\ current_scene_elements ps = []
      /\ current_scene_page ps = 1%Z
  | [(Some e, g)] =>
      current_scene_heading ps = Some (el_text e)
      /\ truthy (el_text e) = true
      /\ current_scene_elements ps = g
      /\ el_page e = Some (current_scene_page ps)
  | [(None, g)] =>
      current_scene_heading ps = None
      /\ current_scene_elements ps = g
      /\ g <> []
      /\ current_scene_page ps = 1%Z
  | _ => False
  end.

(** What the loop of [_parse_sequential_content] keeps true of the
    scenes and the cuts of the elements read so far. *)
Definition cut_up (textwrap_wrap : str -> nat -> list str) (ps : PState)
  (tr : list Element) : Prop :=
  exists closed last_cut,
    cuts tr = closed ++ last_cut
    /\ Forall2 (scene_of_cut textwrap_wrap) (scenes ps) closed
    /\ open_cut ps last_cut
    /\ (last_cut = [] -> closed = []).

(** The cuts are well formed: what opens a cut is a scene heading, what
    follows is not. *)
Definition well_cut (c : Cut) : Prop :=
  (forall e, fst c = Some e -> is_heading e = true)
  /\ Forall (fun e => is_heading e = false) (snd c).

(** ** Texts that artifact repair leaves alone *)












(** ** Further sample inputs *)

Definition page_line : str := "Page 3 of the contract is missing.".


Definition nested_parentheses : str := "(((beat)))".

Definition page_words : str := "Page 1Page 2".

Definition uncovered_name : str := "XXXHHHXXXANAH".


(** * Properties *)

(** ** Facts on strings *)

Section StringFacts.

Lemma is_space_upper_c (c : ascii) : is_space_c (upper_c c) = is_space_c c.
Proof. destruct c as [[] [] [] [] [] [] [] []]; reflexivity. Qed.

Lemma is_space_lower_c (c : ascii) : is_space_c (lower_c c) = is_space_c c.
Proof. destruct c as [[] [] [] [] [] [] [] []]; reflexivity. Qed.

Lemma upper_c_idem (c : ascii) : upper_c (upper_c c) = upper_c c.
Proof. destruct c as [[] [] [] [] [] [] [] []]; reflexivity. Qed.

Lemma upper_idem (s : str) : upper (upper s) = upper s.
Proof.
  unfold upper. rewrite map_map. apply map_ext. exact upper_c_idem.
Qed.

Lemma str_eqb_refl (s : str) : str_eqb s s = true.
Proof.
  induction s as [|c s IH]; simpl; [reflexivity|].
  rewrite Ascii.eqb_refl. exact IH.
Qed.

Lemma str_eqb_eq (a b : str) : str_eqb a b = true <-> a = b.
Proof.
  split.
  - revert b. induction a as [|x a IH]; intros [|y b] H; simpl in H;
      try reflexivity; try discriminate H.
    apply andb_prop in H. destruct H as [H1 H2].
    apply Ascii.eqb_eq in H1. subst y. f_equal. apply IH. exact H2.
  - intros ->. apply str_eqb_refl.
Qed.

(** Stripping and a change of case that keeps white space commute. *)
Variable f : ascii -> ascii.
Hypothesis f_space : forall c, is_space_c (f c) = is_space_c c.

Lemma lstrip_map (s : str) : lstrip (map f s) = map f (lstrip s).
Proof.
  induction s as [|c s IH]; simpl; [reflexivity|].
  rewrite f_space. destruct (is_space_c c); [exact IH | reflexivity].
Qed.

Lemma strip_map (s : str) : strip (map f s) = map f (strip s).
Proof.
  unfold strip, rstrip.
  rewrite lstrip_map, <- map_rev, lstrip_map, map_rev. reflexivity.
Qed.

End StringFacts.

Lemma strip_upper (s : str) : strip (upper s) = upper (strip s).
Proof. apply strip_map. exact is_space_upper_c. Qed.

Lemma strip_lower (s : str) : strip (lower s) = lower (strip s).
Proof. apply strip_map. exact is_space_lower_c. Qed.

Lemma truthy_map (f : ascii -> ascii) (s : str) :
  truthy (map f s) = truthy s.
Proof. destruct s; reflexivity. Qed.

Lemma lstrip_idem (s : str) : lstrip (lstrip s) = lstrip s.
Proof.
  induction s as [|c s IH]; simpl; [reflexivity|].
  destruct (is_space_c c) eqn:E; [exact IH|].
  simpl. rewrite E. reflexivity.
Qed.

Lemma lstrip_app (a b : str) :
  lstrip (a ++ b) = if forallb is_space_c a then lstrip b else lstrip a ++ b.
Proof.
  induction a as [|c a IH]; simpl; [reflexivity|].
  destruct (is_space_c c); simpl; [exact IH | reflexivity].
Qed.

Lemma forallb_rev (A : Type) (p : A -> bool) (l : list A) :
  forallb p (rev l) = forallb p l.
Proof.
  induction l as [|x l IH]; simpl; [reflexivity|].
  rewrite forallb_app, IH. simpl. rewrite andb_true_r. apply andb_comm.
Qed.

Lemma lstrip_all_space (s : str) :
  forallb is_space_c s = true -> lstrip s = [].
Proof.
  induction s as [|c s IH]; simpl; [reflexivity|].
  destruct (is_space_c c); simpl; [exact IH | discriminate].
Qed.

Lemma rstrip_cons (c : ascii) (s : str) :
  rstrip (c :: s)
  = if forallb is_space_c s
    then (if is_space_c c then [] else [c])
    else c :: rstrip s.
Proof.
  unfold rstrip. simpl rev. rewrite lstrip_app, forallb_rev.
  destruct (forallb is_space_c s).
  - simpl. destruct (is_space_c c); reflexivity.
  - rewrite rev_app_distr. reflexivity.
Qed.

Lemma rstrip_idem (s : str) : rstrip (rstrip s) = rstrip s.
Proof.
  unfold rstrip. rewrite rev_involutive, lstrip_idem. reflexivity.
Qed.

Lemma lstrip_rstrip (s : str) : lstrip (rstrip s) = rstrip (lstrip s).
Proof.
  induction s as [|c s IH]; [reflexivity|].
  rewrite rstrip_cons. simpl lstrip at 2.
  destruct (is_space_c c) eqn:E.
  - destruct (forallb is_space_c s) eqn:A.
    + rewrite (lstrip_all_space _ A). reflexivity.
    + simpl. rewrite E. exact IH.
  - destruct (forallb is_space_c s) eqn:A.
    + simpl. rewrite E. rewrite rstrip_cons, A, E. reflexivity.
    + simpl. rewrite E. rewrite rstrip_cons, A. reflexivity.
Qed.

Lemma strip_idem (s : str) : strip (strip s) = strip s.
Proof.
  unfold strip. rewrite lstrip_rstrip, lstrip_idem, rstrip_idem.
  reflexivity.
Qed.

Lemma lstrip_spaces (n : nat) (s : str) : lstrip (spaces n ++ s) = lstrip s.
Proof.
  induction n as [|n IH]; simpl; [reflexivity | exact IH].
Qed.
(** ** Facts on the matcher *)

Section MatcherFacts.

Variable fl : flags.

Lemma rmatch_seq (a b : re) (st : mstate) (k : mstate -> option mstate) :
  rmatch fl (RSeq a b) st k
  = rmatch fl a st (fun st1 => rmatch fl b st1 k).
Proof. reflexivity. Qed.

Lemma rmatch_bol (s : str) (cp : list (nat * str))
  (k : mstate -> option mstate) :
  rmatch fl RBol (MState None s cp) k = k (MState None s cp).
Proof. reflexivity. Qed.

Lemma rmatch_eol (p : option ascii) (cp : list (nat * str))
  (k : mstate -> option mstate) :
  rmatch fl REol (MState p [] cp) k = k (MState p [] cp).
Proof. reflexivity. Qed.

Lemma rmatch_char (c x : ascii) (p : option ascii) (s : str)
  (cp : list (nat * str)) (k : mstate -> option mstate) :
  char_match fl c x = true ->
  rmatch fl (RChar c) (MState p (x :: s) cp) k = k (MState (Some x) s cp).
Proof.
  intros H. simpl. unfold step_if. simpl. rewrite H. reflexivity.
Qed.

Lemma one_char_set (neg : bool) (items : list citem) :
  one_char fl (RSet neg items) (set_match fl neg items).
Proof. intros st k. reflexivity. Qed.

Lemma one_char_char (c : ascii) : one_char fl (RChar c) (char_match fl c).
Proof. intros st k. reflexivity. Qed.

Variables (r : re) (test : ascii -> bool).
Hypothesis r_one : one_char fl r test.

(** A greedy repetition over a run of characters that all pass the
    test succeeds as soon as the rest of the pattern succeeds after the
    run. *)
Lemma rep_opt_run (run tail : str) (cp : list (nat * str))
  (k : mstate -> option mstate) :
  forall (fuel : nat) (hi : option nat) (p : option ascii),
    forallb test run = true ->
    length run < fuel ->
    (forall n, hi = Some n -> length run <= n) ->
    k (MState (after p run) tail cp) <> None ->
    rep_opt (rmatch fl r) fuel hi (MState p (run ++ tail) cp) k <> None.
Proof.
  induction run as [|x run IH]; intros fuel hi p T F B K.
  - simpl in K |- *. destruct fuel as [|fuel]; simpl; [exact K|].
    destruct (more hi); [|exact K].
    destruct (rmatch fl r _ _); [discriminate | exact K].
  - simpl in T, F, K. apply andb_prop in T. destruct T as [Tx T].
    destruct fuel as [|fuel]; [lia|].
    assert (M : more hi = true).
    { destruct hi as [[|n]|]; try reflexivity.
      specialize (B 0 eq_refl). simpl in B. lia. }
    change ((x :: run) ++ tail) with (x :: (run ++ tail)).
    simpl rep_opt. rewrite M, r_one. unfold step_if. simpl rest.
    cbv beta iota. rewrite Tx. unfold advance. simpl caps.
    replace (length (run ++ tail) <? S (length (run ++ tail))) with true
      by (symmetry; apply Nat.ltb_lt; lia).
    assert (G : rep_opt (rmatch fl r) fuel (less hi)
                  (MState (Some x) (run ++ tail) cp) k <> None).
    { apply IH; try assumption; try lia.
      intros n E. destruct hi as [m|]; [|discriminate E].
      simpl in E. inversion E. specialize (B m eq_refl). simpl in B. lia. }
    destruct (rep_opt (rmatch fl r) fuel (less hi) _ k);
      [discriminate | contradiction].
Qed.

Lemma rep_min_run (run tail : str) (cp : list (nat * str))
  (k : mstate -> option mstate) :
  forall (p : option ascii),
    forallb test run = true ->
    rep_min (rmatch fl r) (length run) (MState p (run ++ tail) cp) k
    = k (MState (after p run) tail cp).
Proof.
  induction run as [|x run IH]; intros p T; simpl; [reflexivity|].
  simpl in T. apply andb_prop in T. destruct T as [Tx T].
  change ((x :: run) ++ tail) with (x :: (run ++ tail)).
  rewrite r_one. unfold step_if. simpl rest. cbv beta iota. rewrite Tx.
  unfold advance. simpl caps. apply IH. exact T.
Qed.

Lemma rmatch_rep (lo : nat) (hi : option nat) (st : mstate)
  (k : mstate -> option mstate) :
  rmatch fl (RRep r lo hi) st k
  = rep_min (rmatch fl r) lo st (fun st1 =>
      rep_opt (rmatch fl r) (S (length (rest st1))) (hi_left lo hi) st1 k).
Proof. reflexivity. Qed.

Lemma rmatch_rep_run (lo : nat) (hi : option nat) (run tail : str)
  (p : option ascii) (cp : list (nat * str))
  (k : mstate -> option mstate) :
  forallb test run = true ->
  lo <= length run ->
  (forall n, hi = Some n -> length run <= n) ->
  k (MState (after p run) tail cp) <> None ->
  rmatch fl (RRep r lo hi) (MState p (run ++ tail) cp) k <> None.
Proof.
  intros T L B K.
  rewrite <- (firstn_skipn lo run) in T, K |- *.
  set (run1 := firstn lo run) in *. set (run2 := skipn lo run) in *.
  assert (L1 : length run1 = lo) by (apply firstn_length_le; exact L).
  assert (L2 : length run2 = length run - lo) by apply length_skipn.
  rewrite forallb_app in T. apply andb_prop in T. destruct T as [T1 T2].
  rewrite rmatch_rep. rewrite <- L1 at 1. rewrite <- app_assoc.
  rewrite rep_min_run by exact T1.
  apply rep_opt_run; try assumption; try lia.
  - simpl rest. rewrite length_app. lia.
  - intros n E. destruct hi as [m|]; [|discriminate E].
    simpl in E. inversion E. specialize (B m eq_refl). lia.
  - unfold after in K |- *. rewrite fold_left_app in K. exact K.
Qed.

End MatcherFacts.

(** ** The bound on repetitions is never reached

    The matcher counts the optional repetitions down from the length of
    the text left plus one.  A repetition reads at least one character,
    so the count is never what stops a repetition: any two counts above
    the length of the text give the same result. *)

Section Fuel.

Variable fl : flags.

Lemma match_lit_shrinks (g : str) :
  forall st st1,
    match_lit fl g st = Some st1 -> length (rest st1) <= length (rest st).
Proof.
  induction g as [|c g IH]; intros st st1 H; simpl in H.
  - inversion H. lia.
  - destruct (rest st) as [|x s] eqn:E; [discriminate H|].
    destruct (char_match fl c x); [|discriminate H].
    apply IH in H. simpl in H. simpl. lia.
Qed.

Lemma rep_min_local (body : mstate -> (mstate -> option mstate)
                            -> option mstate) :
  local body -> forall lo, local (rep_min body lo).
Proof.
  intros B lo. induction lo as [|lo IH]; intros st k k' H; simpl.
  - apply H. lia.
  - apply B. intros st1 L. apply IH. intros st2 L2. apply H. lia.
Qed.

Lemma rep_opt_local (body : mstate -> (mstate -> option mstate)
                            -> option mstate) :
  local body -> forall fuel hi, local (rep_opt body fuel hi).
Proof.
  intros B fuel. induction fuel as [|fuel IH]; intros hi st k k' H; simpl.
  - apply H. lia.
  - rewrite (H st (le_n _)). destruct (more hi); [|reflexivity].
    rewrite (B st _ (fun st1 =>
               if length (rest st1) <? length (rest st)
               then rep_opt body fuel (less hi) st1 k' else None));
      [reflexivity|].
    intros st1 L. destruct (length (rest st1) <? length (rest st));
      [|reflexivity].
    apply IH. intros st2 L2. apply H. lia.
Qed.

Lemma rmatch_local (r : re) : local (rmatch fl r).
Proof.
  induction r as [ | c | | neg items | r1 IH1 r2 IH2 | r1 IH1 r2 IH2
                 | r IH lo hi | n r IH | n | | | | r IH ];
    intros st k k' H.
  1-6: simpl. 8-13: simpl. 7: rewrite !rmatch_rep.
  - apply H. lia.
  - unfold step_if. destruct (rest st) as [|x s]; [reflexivity|].
    destruct (char_match fl c x); [|reflexivity]. apply H. simpl. lia.
  - unfold step_if. destruct (rest st) as [|x s]; [reflexivity|].
    destruct (negb (Ascii.eqb x nl)); [|reflexivity]. apply H. simpl. lia.
  - unfold step_if. destruct (rest st) as [|x s]; [reflexivity|].
    destruct (set_match fl neg items x); [|reflexivity].
    apply H. simpl. lia.
  - apply IH1. intros st1 L. apply IH2. intros st2 L2. apply H. lia.
  - rewrite (IH1 st k k' H), (IH2 st k k' H). reflexivity.
  - apply (rep_min_local IH). intros st1 L.
    apply (rep_opt_local IH). intros st2 L2. apply H. lia.
  - apply IH. intros st1 L. apply H. simpl. exact L.
  - destruct (get_cap n (caps st)) as [g|]; [|reflexivity].
    destruct (match_lit fl g st) as [st1|] eqn:E; [|reflexivity].
    apply H. exact (match_lit_shrinks _ _ E).
  - destruct (at_bol fl st); [apply H; lia | reflexivity].
  - destruct (at_eol fl st); [apply H; lia | reflexivity].
  - destruct (at_wordb st); [apply H; lia | reflexivity].
  - destruct (rmatch fl r st (fun st1 => Some st1)); [reflexivity|].
    apply H. lia.
Qed.

Lemma rep_opt_enough (body : mstate -> (mstate -> option mstate)
                             -> option mstate) :
  local body ->
  forall fuel fuel' hi st k,
    length (rest st) < fuel -> length (rest st) < fuel' ->
    rep_opt body fuel hi st k = rep_opt body fuel' hi st k.
Proof.
  intros B fuel.
  induction fuel as [|fuel IH]; intros fuel' hi st k F F'; [lia|].
  destruct fuel' as [|fuel']; [lia|]. simpl.
  destruct (more hi); [|reflexivity].
  rewrite (B st _ (fun st1 =>
             if length (rest st1) <? length (rest st)
             then rep_opt body fuel' (less hi) st1 k else None));
    [reflexivity|].
  intros st1 L. destruct (length (rest st1) <? length (rest st)) eqn:E;
    [|reflexivity].
  apply Nat.ltb_lt in E. apply IH; lia.
Qed.

(** A repetition of the matcher with any larger count in place of the
    one it uses. *)
Lemma rmatch_rep_enough (r : re) (lo : nat) (hi : option nat)
  (st : mstate) (k : mstate -> option mstate) (extra : nat) :
  rmatch fl (RRep r lo hi) st k
  = rep_min (rmatch fl r) lo st (fun st1 =>
      rep_opt (rmatch fl r) (S (length (rest st1)) + extra)
        (hi_left lo hi) st1 k).
Proof.
  rewrite rmatch_rep. apply (rep_min_local (rmatch_local r)). intros st1 L.
  apply rep_opt_enough; [apply rmatch_local | lia | lia].
Qed.

End Fuel.

Lemma re_match_found (fl : flags) (r : re) (s : str) :
  rmatch fl r (MState None s []) (fun st => Some st) <> None ->
  re_match fl r s = true.
Proof.
  unfold re_match, match_here. destruct (rmatch _ _ _ _); [reflexivity|].
  intros H. contradiction.
Qed.

Lemma digit_set (fl : flags) (ds : str) :
  forallb is_digit_c ds = true ->
  forallb (set_match fl false [CDigit]) ds = true.
Proof.
  intros H. rewrite forallb_forall in H |- *. intros x I.
  specialize (H x I). unfold set_match, in_items. simpl existsb.
  rewrite H. simpl. destruct (ignorecase fl); reflexivity.
Qed.

Lemma space_set (fl : flags) (ws : str) :
  forallb is_space_c ws = true ->
  forallb (set_match fl false [CSpace]) ws = true.
Proof.
  intros H. rewrite forallb_forall in H |- *. intros x I.
  specialize (H x I). unfold set_match, in_items. simpl existsb.
  rewrite H. simpl. destruct (ignorecase fl); reflexivity.
Qed.



(** The lists of patterns are read: none of them is the pattern that
    matches nothing. *)
Lemma pattern_lists_read :
  forallb (fun r => match r with RSet false [] => false | _ => true end)
    (Patterns.scene_patterns ++ Patterns.transition_patterns
     ++ [Patterns.contd_pattern] ++ pre_scene_patterns
     ++ basic_action_patterns ++ page_patterns
     ++ map (fun cf => fst cf) character_fixes ++ map rp_pattern repairs)
  = true.
Proof. vm_compute. reflexivity. Qed.

(** ** The classifier never raises *)

Section ClassifierTotal.

Variables (position : nat) (lines : list str).

Lemma getitem_in_range (A : Type) (l : list A) (i : nat) :
  (i <? length l) = true -> exists x, getitem l i = Some x.
Proof.
  intros H. apply Nat.ltb_lt in H. unfold getitem.
  destruct (nth_error l i) eqn:E; [eauto|].
  apply nth_error_None in E. lia.
Qed.

Lemma _is_character_name_total (text : str) (leading_spaces pos : nat) :
  exists b, _is_character_name text leading_spaces pos lines = Some b.
Proof.
  unfold _is_character_name.
  destruct (re_search _ _ _); [eauto|].
  destruct (negb _); [eauto|].
  destruct text as [|c0 text']; [eauto|].
  destruct (negb _); [eauto|].
  destruct (re_match _ _ _); [|eauto].
  cbv zeta. destruct (existsb _ _); [eauto|].
  destruct (pos + 1 <? length lines) eqn:E; [|eauto].
  destruct (getitem_in_range _ _ E) as [x ->].
  destruct (_ && _); eauto.
Qed.

Lemma _is_specific_hyphenated_continuation_total (text : str) :
  exists b,
    _is_specific_hyphenated_continuation text position lines = Some b.
Proof.
  unfold _is_specific_hyphenated_continuation.
  destruct (position <? 2); [eauto|].
  destruct (_ || _); [eauto|].
  destruct (2 <=? position); [|eauto].
  cbv zeta.
  destruct (position - 2 <? length lines) eqn:E; [|eauto].
  destruct (getitem_in_range _ _ E) as [x ->].
  destruct (_ && _); [|eauto].
  destruct (0 <? position - 2) eqn:E0; [|eauto].
  assert (E1 : (position - 2 - 1 <? length lines) = true).
  { apply Nat.ltb_lt. apply Nat.ltb_lt in E. lia. }
  destruct (getitem_in_range _ _ E1) as [y ->].
  destruct (_is_character_name_total (strip y) (leading y)
              (position - 2 - 1)) as [b ->].
  destruct b; eauto.
Qed.

Lemma hyphenated_guard_total (trimmed : str) :
  exists b, hyphenated_guard trimmed position lines = Some b.
Proof.
  unfold hyphenated_guard. destruct (truthy trimmed); [|eauto].
  apply _is_specific_hyphenated_continuation_total.
Qed.

Lemma block_is_dialogue_total (js : list nat) :
  exists b, block_is_dialogue lines js = Some b.
Proof.
  induction js as [|j js IH]; simpl; [eauto|].
  destruct (length lines <=? j) eqn:E; [exact IH|].
  assert (E1 : (j <? length lines) = true).
  { apply Nat.ltb_lt. apply Nat.leb_gt in E. lia. }
  destruct (getitem_in_range _ _ E1) as [x ->].
  destruct (_ || _); [eauto|exact IH].
Qed.

Lemma find_continuation_cue_total (pos : nat) (idxs : list nat) :
  exists b, find_continuation_cue lines pos idxs = Some b.
Proof.
  induction idxs as [|i idxs IH]; simpl; [eauto|].
  destruct (length lines <=? i) eqn:E; [exact IH|].
  assert (E1 : (i <? length lines) = true).
  { apply Nat.ltb_lt. apply Nat.leb_gt in E. lia. }
  destruct (getitem_in_range _ _ E1) as [x ->].
  destruct (_is_continuation_character_name _).
  - apply block_is_dialogue_total.
  - destruct (_ || _); [eauto|exact IH].
Qed.

Lemma continuation_guard_total :
  exists b, continuation_guard position lines = Some b.
Proof.
  unfold continuation_guard, _is_in_continuation_dialogue_block.
  destruct (0 <? position); [|eauto].
  apply find_continuation_cue_total.
Qed.

End ClassifierTotal.

(** Case analysis on the cascade of [classify_line]: the three guards
    that read [lines] are replaced by their values, then every test is
    split. *)
Ltac cascade st line position lines :=
  unfold classify_line; cbv zeta;
  destruct (hyphenated_guard_total position lines (strip line)) as [?hy ->];
  destruct (_is_character_name_total lines (strip line) (leading line)
              position) as [?nm ->];
  destruct (continuation_guard_total position lines) as [?cb ->];
  repeat match goal with
         | |- context [if ?b then _ else _] => destruct b eqn:?
         end.

Lemma type_name_listed (t : etype) : In (type_name t) element_types.
Proof.
  destruct t; unfold element_types, strs; simpl; tauto.
Qed.

Lemma classify_line_returns (st : CState) (line : str) (position : nat)
  (lines : list str) :
  exists r, classify_line st line position lines = Some r.
Proof.
  cascade st line position lines; eexists; reflexivity.
Qed.

(** C9. [classify_line] is total: for every state, line, position (an
    index from [enumerate]) and list of lines it returns an element, with
    no exception (no [None]), and the type of the element is one of the
    seven element types. *)
Theorem classifier_is_total (st : CState) (line : str) (position : nat)
  (lines : list str) :
  exists e st',
    classify_line st line position lines = Some (e, st')
    /\ In (type_name (el_type e)) element_types.
Proof.
  cascade st line position lines;
    (do 2 eexists; split; [reflexivity | apply type_name_listed]).
Qed.

(** C10. After every call the field [last_element] of the state is the
    type of the element that the call returned. *)
Theorem last_element_is_returned_type (st : CState) (line : str)
  (position : nat) (lines : list str) (e : Element) (st' : CState) :
  classify_line st line position lines = Some (e, st') ->
  last_element st' = Some (el_type e).
Proof.
  cascade st line position lines; intros H; inversion H; reflexivity.
Qed.

Lemma last_element_is_returned_type_witness :
  classify_line init "INT. KITCHEN - DAY" 0 []
  = Some (element scene_heading "INT. KITCHEN - DAY" 12,
          mkCState (Some scene_heading) false)
  /\ last_element (mkCState (Some scene_heading) false)
     = Some (el_type (element scene_heading "INT. KITCHEN - DAY" 12)).
Proof.
  assert (C : classify_line init "INT. KITCHEN - DAY" 0 []
              = Some (element scene_heading "INT. KITCHEN - DAY" 12,
                      mkCState (Some scene_heading) false))
    by (vm_compute; reflexivity).
  split; [exact C|].
  exact (last_element_is_returned_type _ _ _ _ C).
Defined.

(** C3. When the classifier returns an element of type [character], the
    state after the call has [in_dialogue_block] set. *)
Theorem character_opens_dialogue_block (st : CState) (line : str)
  (position : nat) (lines : list str) (e : Element) (st' : CState) :
  classify_line st line position lines = Some (e, st') ->
  el_type e = character ->
  in_dialogue_block st' = true.
Proof.
  cascade st line position lines; intros H; inversion H; subst;
    simpl; intros T; (reflexivity || discriminate T).
Qed.

Lemma character_opens_dialogue_block_witness :
  classify_line init "HANNAH (CONT'D)" 0 []
  = Some (element character "HANNAH (CONT'D)" 38,
          mkCState (Some character) true)
  /\ in_dialogue_block (mkCState (Some character) true) = true.
Proof.
  assert (C : classify_line init "HANNAH (CONT'D)" 0 []
              = Some (element character "HANNAH (CONT'D)" 38,
                      mkCState (Some character) true))
    by (vm_compute; reflexivity).
  split; [exact C|].
  exact (character_opens_dialogue_block _ _ _ _ C eq_refl).
Defined.

(** ** The dialogue/action step *)

Lemma reaches_dialogue_step_inv (st : CState) (line : str) (position : nat)
  (lines : list str) :
  reaches_dialogue_step st line position lines = true ->
  contd_cue (strip line) = false
  /\ hyphenated_guard (strip line) position lines = Some false
  /\ _is_pre_scene_element (strip line) = false
  /\ Patterns.is_scene_heading (strip line) = false
  /\ _is_transition (strip line) = false
  /\ _is_character_name (strip line) (leading line) position lines
     = Some false
  /\ parenthetical_guard st (strip line) = false
  /\ dialogue_guard st = true.
Proof.
  unfold reaches_dialogue_step; cbv zeta. intros H.
  repeat (apply andb_prop in H; destruct H as [H ?]).
  repeat match goal with
         | H : negb _ = true |- _ => apply negb_true_iff in H
         | H : is_false ?o = true |- _ =>
             destruct o as [[|]|]; try discriminate H; clear H
         end.
  repeat split; assumption.
Qed.

(** Rewrites the cascade of a line that enters the dialogue/action step. *)
Ltac enter_step H :=
  apply reaches_dialogue_step_inv in H;
  destruct H as (?E0 & ?E1 & ?E2 & ?E3 & ?E4 & ?E5 & ?E6 & ?E7);
  unfold classify_line; cbv zeta;
  rewrite E0, E1, E2, E3, E4, E5, E6, E7.

Lemma dialogue_guard_inv (st : CState) :
  dialogue_guard st = true ->
  in_dialogue_block st = true
  /\ last_in st [character; parenthetical; dialogue] = true.
Proof.
  unfold dialogue_guard. intros H. apply andb_prop in H. exact H.
Qed.

Lemma dialogue_guard_after_action :
  dialogue_guard (mkCState (Some action) false) = false.
Proof. reflexivity. Qed.

(** C2. A line that enters the dialogue/action step (so the block is
    open) and is emitted as action by one of the two overrides of that
    step, the strong action signal or the action test of the continuation
    check, leaves the state with [in_dialogue_block = false] and
    [last_element = action]; the next line, whatever it is, does not
    enter the dialogue/action step. *)
Theorem action_override_closes_block (st : CState) (line : str)
  (position : nat) (lines : list str) :
  reaches_dialogue_step st line position lines = true ->
  strong_action_signal st (strip line) = true
  \/ continuation_override st line position lines = true ->
  in_dialogue_block st = true
  /\ exists e st',
       classify_line st line position lines = Some (e, st')
       /\ el_type e = action
       /\ in_dialogue_block st' = false
       /\ last_element st' = Some action
       /\ forall line' position' lines',
            reaches_dialogue_step st' line' position' lines' = false.
Proof.
  intros R Hov.
  assert (G := R). apply reaches_dialogue_step_inv in G.
  destruct G as (_ & _ & _ & _ & _ & _ & _ & G).
  apply dialogue_guard_inv in G. destruct G as [G _].
  split; [exact G|].
  exists (element action (strip line) 12), (mkCState (Some action) false).
  split.
  - enter_step R. destruct Hov as [Hs | Hc].
    + rewrite Hs. reflexivity.
    + destruct (strong_action_signal st (strip line)); [reflexivity|].
      unfold continuation_override in Hc; cbv zeta in Hc.
      repeat (apply andb_prop in Hc; destruct Hc as [Hc ?]).
      apply negb_true_iff in Hc.
      rewrite Hc.
      replace (last_in st [character; dialogue] && truthy (strip line))
        with true by (symmetry; apply andb_true_intro; split; assumption).
      match goal with
      | H : (_ || _) = true |- _ => rewrite H
      end.
      reflexivity.
  - repeat split; try reflexivity.
    intros line' position' lines'. unfold reaches_dialogue_step; cbv zeta.
    rewrite dialogue_guard_after_action. apply andb_false_r.
Qed.

Lemma action_override_closes_block_witness :
  reaches_dialogue_step (in_block_after dialogue) dan_line 0 [] = true
  /\ exists e st',
       classify_line (in_block_after dialogue) dan_line 0 [] = Some (e, st')
       /\ el_type e = action
       /\ in_dialogue_block st' = false
       /\ last_element st' = Some action.
Proof.
  assert (R : reaches_dialogue_step (in_block_after dialogue) dan_line 0 []
              = true) by (vm_compute; reflexivity).
  assert (S : strong_action_signal (in_block_after dialogue) (strip dan_line)
              = true) by (vm_compute; reflexivity).
  split; [exact R|].
  destruct (action_override_closes_block _ _ _ _ R (or_introl S))
    as (_ & e & st' & C & T & B & L & _).
  exists e, st'. repeat split; assumption.
Defined.

(** Every dialogue score is zero or at least 0.76: the weights go from
    0.76 to 0.91. *)
Lemma add_if_range (b : bool) (w s : nat) :
  76 <= w -> s = 0 \/ 76 <= s -> add_if b w s = 0 \/ 76 <= add_if b w s.
Proof.
  unfold add_if. destruct b; lia.
Qed.

Lemma dialogue_score_range (text : str) :
  dialogue_score text = 0 \/ 76 <= dialogue_score text.
Proof.
  unfold dialogue_score; cbv zeta.
  repeat (apply add_if_range; [lia|]). left; reflexivity.
Qed.

(** On the scores that the signals can give, and in the states that enter
    the step, the thresholds of the source and those of the specification
    agree. *)
Lemma score_decides_spec (st : CState) (text : str) :
  last_in st [character; parenthetical; dialogue] = true ->
  score_decides st (dialogue_score text)
  = spec_score_rule st (dialogue_score text).
Proof.
  intros L. unfold score_decides, spec_score_rule. rewrite L.
  destruct (dialogue_score_range text) as [-> | H].
  - reflexivity.
  - rewrite !andb_true_r.
    replace (75 <=? dialogue_score text) with true
      by (symmetry; apply Nat.leb_le; lia).
    replace (75 <? dialogue_score text) with true
      by (symmetry; apply Nat.ltb_lt; lia).
    destruct (85 <=? dialogue_score text), (85 <? dialogue_score text);
      reflexivity.
Qed.

Lemma score_test_path (st : CState) (line : str) (position : nat)
  (lines : list str) :
  last_in st [character; parenthetical; dialogue] = true ->
  score_test st (strip line) (leading line) position lines
  = score_path st line.
Proof.
  intros L. unfold score_test, score_path, _is_likely_dialogue; cbv zeta.
  rewrite (score_decides_spec _ _ L).
  rewrite strip_lower, strip_idem. unfold lower at 1. rewrite truthy_map.
  destruct (truthy (strip line)); [|reflexivity].
  destruct (_is_scene_element (strip line)); [reflexivity|].
  simpl negb at 1. rewrite !andb_true_l.
  destruct (leading line <? 18) eqn:A.
  - apply Nat.ltb_lt in A.
    replace (18 <=? leading line) with false
      by (symmetry; apply Nat.leb_gt; lia).
    reflexivity.
  - apply Nat.ltb_ge in A.
    replace (18 <=? leading line) with true
      by (symmetry; apply Nat.leb_le; lia).
    simpl orb. rewrite andb_true_l.
    destruct (35 <? leading line) eqn:B.
    + apply Nat.ltb_lt in B.
      replace (leading line <=? 35) with false
        by (symmetry; apply Nat.leb_gt; lia).
      reflexivity.
    + apply Nat.ltb_ge in B.
      replace (leading line <=? 35) with true
        by (symmetry; apply Nat.leb_le; lia).
      rewrite andb_true_l.
      destruct (_is_basic_action_line (strip line)); [reflexivity|].
      destruct (_contains_definitive_action_patterns (strip line));
        reflexivity.
Qed.

(** C1, amended.  For a line that enters the dialogue/action step and
    carries no strong action signal, the classifier emits dialogue
    exactly when the score path or the fall-back path holds.  Score path:
    the line is not empty, is no scene element, is indented by 18 to 35
    columns, is no basic action line, has no definitive action pattern,
    and its score is above 0.85, or above 0.75 after a character cue, a
    parenthetical or dialogue, or at least 0.60 after a character cue.
    Fall-back path: the previous element is a character cue or dialogue,
    the line is not empty and no basic action line, and it lies in a
    CONT'D block or is indented by 18 to 35 columns. *)
Theorem dialogue_step_decision (st : CState) (line : str) (position : nat)
  (lines : list str) (e : Element) (st' : CState) :
  reaches_dialogue_step st line position lines = true ->
  strong_action_signal st (strip line) = false ->
  classify_line st line position lines = Some (e, st') ->
  (el_type e = dialogue
   <-> score_path st line = true
       \/ fallback_path st line position lines = true).
Proof.
  intros R S.
  assert (G := R). apply reaches_dialogue_step_inv in G.
  destruct G as (_ & _ & _ & _ & _ & _ & _ & G).
  apply dialogue_guard_inv in G. destruct G as [_ L].
  enter_step R. rewrite S.
  rewrite (score_test_path _ _ position lines L).
  unfold strong_action_signal in S. apply orb_false_elim in S.
  destruct S as [S _]. rewrite S. simpl orb.
  unfold fallback_path; cbv zeta.
  destruct (continuation_guard_total position lines) as [cb ->].
  destruct (score_path st line);
    destruct (last_in st [character; dialogue]);
    destruct (truthy (strip line));
    destruct (_is_basic_action_line (strip line));
    destruct cb;
    destruct (18 <=? leading line);
    destruct (leading line <=? 35);
    simpl; intros H; inversion H; subst; simpl;
    split; intros T; try discriminate T; try reflexivity;
    try (left; reflexivity); try (right; reflexivity);
    destruct T as [T | T]; discriminate T.
Qed.

Lemma dialogue_step_decision_witness :
  reaches_dialogue_step (in_block_after character) vegas_line 0 [] = true
  /\ strong_action_signal (in_block_after character) (strip vegas_line)
     = false
  /\ (el_type (element dialogue (strip vegas_line) 25) = dialogue
      <-> score_path (in_block_after character) vegas_line = true
          \/ fallback_path (in_block_after character) vegas_line 0 []
             = true).
Proof.
  assert (R : reaches_dialogue_step (in_block_after character) vegas_line
                0 [] = true) by (vm_compute; reflexivity).
  assert (S : strong_action_signal (in_block_after character)
                (strip vegas_line) = false) by (vm_compute; reflexivity).
  assert (C : classify_line (in_block_after character) vegas_line 0 []
              = Some (element dialogue (strip vegas_line) 25,
                      mkCState (Some dialogue) true))
    by (vm_compute; reflexivity).
  split; [exact R|]. split; [exact S|].
  exact (dialogue_step_decision _ _ _ _ R S C).
Defined.

(** C1 fails as stated, both ways.  After a character cue, inside the
    block, the line [Old Town Vegas with cheap vodka] at 25 columns has no
    dialogue signal at all (score 0) and no action signal, and the
    classifier emits dialogue for it through the indentation fall-back;
    the line [I know.] at the left margin has the score 1.76 and no action
    signal, and the classifier emits action for it. *)
Lemma dialogue_without_score :
  reaches_dialogue_step (in_block_after character) vegas_line 0 [] = true
  /\ strong_action_signal (in_block_after character) (strip vegas_line)
     = false
  /\ classify_line (in_block_after character) vegas_line 0 []
     = Some (element dialogue "Old Town Vegas with cheap vodka" 25,
             mkCState (Some dialogue) true)
  /\ dialogue_score (strip vegas_line) = 0
  /\ spec_score_rule (in_block_after character) 0 = false
  /\ reaches_dialogue_step (in_block_after character) know_line 0 [] = true
  /\ strong_action_signal (in_block_after character) (strip know_line)
     = false
  /\ classify_line (in_block_after character) know_line 0 []
     = Some (element action "I know." 12, mkCState (Some action) false)
  /\ dialogue_score (strip know_line) = 89 + 87
  /\ spec_score_rule (in_block_after character) (89 + 87) = true
  /\ ~ dialogue_iff_score.
Proof.
  assert (R : reaches_dialogue_step (in_block_after character) vegas_line
                0 [] = true) by (vm_compute; reflexivity).
  assert (S : strong_action_signal (in_block_after character)
                (strip vegas_line) = false) by (vm_compute; reflexivity).
  assert (C : classify_line (in_block_after character) vegas_line 0 []
              = Some (element dialogue "Old Town Vegas with cheap vodka" 25,
                      mkCState (Some dialogue) true))
    by (vm_compute; reflexivity).
  assert (Z : dialogue_score (strip vegas_line) = 0)
    by (vm_compute; reflexivity).
  split; [exact R|]. split; [exact S|]. split; [exact C|].
  split; [exact Z|]. split; [reflexivity|].
  do 5 (split; [vm_compute; reflexivity|]).
  intros claim. specialize (claim _ _ _ _ _ _ R S C).
  rewrite Z in claim. destruct claim as [claim _].
  specialize (claim eq_refl). discriminate claim.
Qed.

(** The line of the scenario has an action score of 0.88: the pattern of
    the progressive form reads [is happening]. *)
Lemma believe_text_action_score :
  action_score believe_text = 88
  /\ re_search IGNORECASE (rx "\b(is|are|was|were)\s+\w+ing\b") believe_text
     = true
  /\ dialogue_score believe_text = 89 + 86.
Proof. vm_compute. repeat split. Qed.

Lemma strip_believe_line : strip believe_line = believe_text.
Proof. vm_compute. reflexivity. Qed.

Lemma classify_action_signal (last : etype) (line : str) (position : nat)
  (lines : list str) :
  last_in (in_block_after last) [character; parenthetical; dialogue] = true ->
  _contains_action_indicators (strip line) = true ->
  contd_cue (strip line) = false ->
  _is_pre_scene_element (strip line) = false ->
  Patterns.is_scene_heading (strip line) = false ->
  _is_transition (strip line) = false ->
  (forall p l, _is_character_name (strip line) (leading line) p l
               = Some false) ->
  parenthetical_guard (in_block_after last) (strip line) = false ->
  classify_line (in_block_after last) line position lines
  = Some (element action (strip line) 12, mkCState (Some action) false).
Proof.
  intros L A E0 E2 E3 E4 E5 E6.
  unfold classify_line; cbv zeta. rewrite E0.
  assert (H : hyphenated_guard (strip line) position lines = Some false).
  { unfold hyphenated_guard, _is_specific_hyphenated_continuation.
    rewrite A. simpl orb.
    destruct (truthy (strip line)); [|reflexivity].
    destruct (position <? 2); reflexivity. }
  rewrite H, E2, E3, E4, E5, E6.
  unfold dialogue_guard, strong_action_signal. rewrite L, A. reflexivity.
Qed.

(** C5.  Inside an open dialogue block, after a character cue, a
    parenthetical or dialogue, at any position of any page: the line
    [Dan Bilzerian jet skis across the water.] is classified as action,
    and the line [I can't believe this is happening.] at the dialogue
    indentation of 25 columns is classified as action as well, not as
    dialogue, and the block is closed. *)
Theorem believe_line_is_action :
  Forall (fun last =>
    forall position lines,
      classify_line (in_block_after last) dan_line position lines
      = Some (element action dan_line 12, mkCState (Some action) false)
      /\ classify_line (in_block_after last) believe_line position lines
         = Some (element action believe_text 12,
                 mkCState (Some action) false))
    [character; parenthetical; dialogue].
Proof.
  repeat constructor.
  all: try (rewrite <- strip_believe_line at 1).
  all: try (change dan_line with (strip dan_line) at 2).
  all: apply classify_action_signal;
    try (vm_compute; reflexivity);
    intros p l; vm_compute; reflexivity.
Qed.

(** ** Scene headings *)

(** [is_scene_heading] does not see the case of the line: it gives the
    same answer for a text and for its upper case. *)
(** ** Patterns of literal alternatives *)

Lemma startswith_app (s x y : str) :
  startswith s (x ++ y) = startswith s x && startswith (skipn (length x) s) y.
Proof.
  revert s. induction x as [|c x IH]; intros s.
  - simpl. destruct y, s; reflexivity.
  - destruct s as [|d s]; simpl; [reflexivity|].
    rewrite IH. apply andb_assoc.
Qed.

Lemma skipn_skipn (A : Type) (n m : nat) (l : list A) :
  skipn m (skipn n l) = skipn (n + m) l.
Proof.
  revert l. induction n as [|n IH]; intros l; simpl; [reflexivity|].
  destruct l as [|x l]; [destruct m; reflexivity | apply IH].
Qed.

Lemma existsb_flat_map (A B : Type) (f : B -> bool) (g : A -> list B)
  (l : list A) :
  existsb f (flat_map g l) = existsb (fun x => existsb f (g x)) l.
Proof.
  induction l as [|x l IH]; simpl; [reflexivity|].
  rewrite existsb_app, IH. reflexivity.
Qed.

Lemma existsb_map (A B : Type) (f : B -> bool) (g : A -> B) (l : list A) :
  existsb f (map g l) = existsb (fun x => f (g x)) l.
Proof.
  induction l as [|x l IH]; simpl; [reflexivity|].
  rewrite IH. reflexivity.
Qed.

Lemma existsb_same (A : Type) (f g : A -> bool) (l : list A) :
  (forall x, f x = g x) -> existsb f l = existsb g l.
Proof.
  intros E. induction l as [|x l IH]; simpl; [reflexivity|].
  rewrite E, IH. reflexivity.
Qed.

Lemma existsb_and_const (A : Type) (f : A -> bool) (b : bool) (l : list A) :
  existsb (fun x => b && f x) l = b && existsb f l.
Proof.
  induction l as [|x l IH]; simpl; [rewrite andb_false_r; reflexivity|].
  rewrite IH. destruct b; reflexivity.
Qed.

Lemma existsb_or (A : Type) (f g : A -> bool) (l : list A) :
  existsb (fun x => f x || g x) l = existsb f l || existsb g l.
Proof.
  induction l as [|x l IH]; simpl; [reflexivity|].
  rewrite IH. destruct (f x), (g x), (existsb f l); reflexivity.
Qed.

(** The matcher finds a pattern of literals exactly when one of its
    texts starts the text and the rest of the pattern matches after it. *)
Lemma rmatch_literals (r : re) :
  forall L k p s c,
    literals r = Some L -> blind k ->
    found (rmatch no_flags r (MState p s c) k)
    = existsb (fun l => startswith s l
                        && found (k (MState (after p l)
                                       (skipn (length l) s) c))) L.
Proof.
  induction r as [ | ch | | neg items | a IHa b IHb | a IHa b IHb
                 | r IH lo hi | n r IH | n | | | | r IH ];
    intros L k p s c E B; simpl in E; try discriminate E.
  - inversion E; subst. simpl. destruct s; rewrite orb_false_r; reflexivity.
  - inversion E; subst. simpl. unfold step_if. simpl rest.
    destruct s as [|x s]; [reflexivity|]. unfold char_match. simpl.
    rewrite orb_false_r.
    destruct (Ascii.eqb ch x) eqn:X; [|reflexivity].
    apply Ascii.eqb_eq in X. subst x. destruct s; reflexivity.
  - destruct (literals a) as [la|]; [|discriminate E].
    destruct (literals b) as [lb|]; [|discriminate E].
    inversion E; subst. clear E.
    assert (Bb : blind (fun st1 => rmatch no_flags b st1 k)).
    { intros p1 s1 c1 c1'.
      rewrite (IHb lb k p1 s1 c1 eq_refl B), (IHb lb k p1 s1 c1' eq_refl B).
      apply existsb_same. intros l. rewrite (B _ _ c1 c1'). reflexivity. }
    rewrite rmatch_seq, (IHa la _ p s c eq_refl Bb), existsb_flat_map.
    apply existsb_same. intros x. rewrite existsb_map.
    rewrite (IHb lb k _ _ c eq_refl B), <- existsb_and_const.
    apply existsb_same. intros y.
    rewrite startswith_app, length_app, skipn_skipn.
    unfold after. rewrite fold_left_app, andb_assoc. reflexivity.
  - destruct (literals a) as [la|]; [|discriminate E].
    destruct (literals b) as [lb|]; [|discriminate E].
    inversion E; subst. clear E.
    rewrite existsb_app, <- (IHa la k p s c eq_refl B),
      <- (IHb lb k p s c eq_refl B). simpl.
    destruct (rmatch no_flags a (MState p s c) k); reflexivity.
  - simpl.
    rewrite (IH L (fun st1 =>
                     k (set_cap n (consumed (MState p s c) st1) st1))
               p s c E).
    + apply existsb_same. intros l. unfold set_cap. simpl. rewrite (B _ _ _ c).
      reflexivity.
    + intros p1 s1 c1 c1'. unfold set_cap. simpl.
      transitivity (found (k (MState p1 s1 []))); [|symmetry]; apply B.
Qed.

Lemma blind_some : blind (fun st => Some st).
Proof. intros p s c c'. reflexivity. Qed.

(** A search, one position at a time. *)
Lemma search_from_step (fl : flags) (r : re) (p : option ascii) (s : str) :
  search_from fl r p s
  = found (rmatch fl r (MState p s []) (fun st => Some st))
    || match s with
       | [] => false
       | c :: s' => search_from fl r (Some c) s'
       end.
Proof.
  destruct s; simpl; unfold match_here;
    destruct (rmatch fl r _ (fun st => Some st)); reflexivity.
Qed.

(** A search for literals anchored at the start of the text. *)
Lemma search_anchored_literals (r : re) (L : list str) (s : str) :
  literals r = Some L ->
  re_search no_flags (RSeq RBol r) s = existsb (startswith s) L.
Proof.
  intros E.
  assert (Later : forall s' c, search_from no_flags (RSeq RBol r) (Some c) s'
                               = false).
  { induction s' as [|x s' IH]; intros c; simpl; [reflexivity|].
    apply IH. }
  unfold re_search. rewrite search_from_step, rmatch_seq, rmatch_bol.
  replace (match s with
           | [] => false
           | c :: s' => search_from no_flags (RSeq RBol r) (Some c) s'
           end) with false by (destruct s; [reflexivity | rewrite Later; reflexivity]).
  rewrite orb_false_r, (rmatch_literals r None s [] E blind_some).
  apply existsb_same. intros l. apply andb_true_r.
Qed.

(** A search for literals anywhere in the text. *)
Lemma search_literals (r : re) (L : list str) (s : str) :
  literals r = Some L ->
  re_search no_flags r s = existsb (contains s) L.
Proof.
  intros E. unfold re_search. generalize (@None ascii).
  induction s as [|x s IH]; intros p; rewrite search_from_step,
    (rmatch_literals r p _ [] E blind_some).
  - rewrite orb_false_r.
    apply existsb_same. intros l. simpl. rewrite orb_false_r.
    apply andb_true_r.
  - rewrite IH, <- existsb_or.
    apply existsb_same. intros l. simpl contains. rewrite andb_true_r.
    reflexivity.
Qed.

(** On every text [is_scene_heading] is the shape of a heading, asked of
    the stripped text in upper case: the case of the text itself is not
    looked at. *)
Lemma is_scene_heading_shape (text : str) :
  Patterns.is_scene_heading text = heading_shape (upper (strip text)).
Proof.
  unfold Patterns.is_scene_heading, heading_shape; cbv zeta.
  rewrite upper_idem, str_eqb_refl, andb_true_l.
  set (line := upper (strip text)).
  destruct ((10 <=? length line) && (length line <=? 100));
    cbn [negb andb]; [|reflexivity].
  unfold Patterns.scene_patterns. cbn [existsb].
  assert (P1 : rx "^(INT\.|EXT\.|EST\.|INT\/EXT\.)"
               = RSeq RBol
                   (RGroup 1
                      (RAlt (rx "INT\.")
                         (RAlt (rx "EXT\.")
                            (RAlt (rx "EST\.") (rx "INT\/EXT\."))))))
    by (vm_compute; reflexivity).
  assert (P2 : rx "^(INTERIOR|EXTERIOR)"
               = RSeq RBol (RGroup 1 (RAlt (rx "INTERIOR") (rx "EXTERIOR"))))
    by (vm_compute; reflexivity).
  rewrite P1, P2.
  rewrite (@search_anchored_literals _ (strs ["INT."; "EXT."; "EST.";
                                              "INT/EXT."]) line)
    by (vm_compute; reflexivity).
  rewrite (@search_anchored_literals _ (strs ["INTERIOR"; "EXTERIOR"]) line)
    by (vm_compute; reflexivity).
  rewrite (@search_literals _ (strs ["- DAY"; "- NIGHT"; "- DAWN"; "- DUSK";
                                     "- MORNING"; "- AFTERNOON"; "- EVENING";
                                     "- LATER"; "- CONTINUOUS"]) line)
    by (vm_compute; reflexivity).
  unfold any_prefix, any_in, strs. rewrite !existsb_map, orb_false_r.
  rewrite orb_assoc. reflexivity.
Qed.

Lemma is_scene_heading_upper (text : str) :
  Patterns.is_scene_heading (upper text) = Patterns.is_scene_heading text.
Proof.
  unfold Patterns.is_scene_heading; cbv zeta.
  rewrite strip_upper, !upper_idem. reflexivity.
Qed.

(** C6.  A line in lower case is taken for a scene heading: the text
    [int. kitchen - day] differs from its upper case and
    [is_scene_heading] answers true, because the comparison with the
    upper case is made after the line has been put in upper case.  On
    every text the answer is the shape of a heading (length, scene
    opening or time of day) asked of the text in upper case. *)
Theorem lower_case_scene_heading :
  str_eqb lower_case_heading (upper lower_case_heading) = false
  /\ isupper lower_case_heading = false
  /\ Patterns.is_scene_heading lower_case_heading = true
  /\ (forall text, str_eqb (upper (strip text)) (upper (upper (strip text)))
                   = true)
  /\ (forall text, Patterns.is_scene_heading text
                   = heading_shape (upper (strip text))).
Proof.
  split; [vm_compute; reflexivity|].
  split; [vm_compute; reflexivity|].
  split; [vm_compute; reflexivity|].
  split.
  - intros text. rewrite upper_idem. apply str_eqb_refl.
  - exact is_scene_heading_shape.
Qed.

(** ** Artifact repair *)



(** Idempotence fails for other substitutions than that of the
    apostrophes: nested parentheses lose one pair at each pass, of two
    page words in a row each pass deletes one, and the repair of
    repeated letters can uncover a name that the next pass rewrites. *)
Lemma clean_needs_more_passes :
  (_clean_extraction_artifacts nested_parentheses = "((beat))"
   /\ _clean_extraction_artifacts (_clean_extraction_artifacts
                                     nested_parentheses) = "(beat)")
  /\ (_clean_extraction_artifacts page_words = "Page 2"
      /\ _clean_extraction_artifacts (_clean_extraction_artifacts page_words)
         = [])
  /\ (_clean_extraction_artifacts uncovered_name = "XHANAH"
      /\ _clean_extraction_artifacts (_clean_extraction_artifacts
                                        uncovered_name) = "XHANNAH").
Proof.
  split; [split; vm_compute; reflexivity|].
  split; split; vm_compute; reflexivity.
Qed.

(** ** Page numbers *)

Lemma digits_length (ds : str) : digits ds -> 1 <= length ds.
Proof.
  intros [N _]. destruct ds; [contradiction | simpl; lia].
Qed.

Lemma nonempty_length (ws : str) : ws <> [] -> 1 <= length ws.
Proof.
  intros N. destruct ws; [contradiction | simpl; lia].
Qed.

Lemma periods_match (fl : flags) (n : nat) :
  forallb (char_match fl ".") (repeat "."%char n) = true.
Proof.
  induction n as [|n IH]; simpl; [reflexivity|].
  rewrite IH. destruct fl as [[] m]; reflexivity.
Qed.

Lemma page_pattern_bare :
  rx "^\d{1,4}\.{0,2}$"
  = RSeq RBol
      (RSeq (RRep (RSet false [CDigit]) 1 (Some 4))
         (RSeq (RRep (RChar ".") 0 (Some 2)) REol)).
Proof. vm_compute. reflexivity. Qed.

Lemma page_pattern_page :
  rx "^Page\s+\d+"
  = RSeq RBol
      (RSeq (RChar "P")
         (RSeq (RChar "a")
            (RSeq (RChar "g")
               (RSeq (RChar "e")
                  (RSeq (RRep (RSet false [CSpace]) 1 None)
                     (RRep (RSet false [CDigit]) 1 None)))))).
Proof. vm_compute. reflexivity. Qed.

Lemma page_pattern_ratio :
  rx "^\d{1,4}/\d{1,4}$"
  = RSeq RBol
      (RSeq (RRep (RSet false [CDigit]) 1 (Some 4))
         (RSeq (RChar "/")
            (RSeq (RRep (RSet false [CDigit]) 1 (Some 4)) REol))).
Proof. vm_compute. reflexivity. Qed.

Lemma page_pattern_dashes :
  rx "^-\s*\d+\s*-$"
  = RSeq RBol
      (RSeq (RChar "-")
         (RSeq (RRep (RSet false [CSpace]) 0 None)
            (RSeq (RRep (RSet false [CDigit]) 1 None)
               (RSeq (RRep (RSet false [CSpace]) 0 None)
                  (RSeq (RChar "-") REol))))).
Proof. vm_compute. reflexivity. Qed.

Lemma page_pattern_parens :
  rx "^\(\d+\)$"
  = RSeq RBol
      (RSeq (RChar "(")
         (RSeq (RRep (RSet false [CDigit]) 1 None)
            (RSeq (RChar ")") REol))).
Proof. vm_compute. reflexivity. Qed.

(** Steps of a match that is followed by hand. *)
Ltac read_char :=
  rewrite ?rmatch_seq; rewrite rmatch_char by reflexivity; cbv beta.

Ltac read_run T :=
  rewrite ?rmatch_seq;
  apply (rmatch_rep_run (one_char_set _ false _)); [exact T | | | cbv beta].

Ltac no_bound := let n := fresh in let E := fresh in
  intros n E; discriminate E.

Ltac bound_by H := let n := fresh in let E := fresh in
  intros n E; inversion E; subst; exact H.

Lemma page_number_form_matches (s : str) :
  page_number_form s ->
  existsb (fun pattern => re_match IGNORECASE pattern s) page_patterns = true.
Proof.
  intros F. apply existsb_exists.
  destruct F as [ds periods [N D] L P | ws ds NW W [N D]
                | ds1 ds2 [N1 D1] L1 [N2 D2] L2 | ws1 ds ws2 W1 [N D] W2
                | ds [N D]].
  - exists (rx "^\d{1,4}\.{0,2}$"). split; [exact (or_introl eq_refl)|].
    rewrite page_pattern_bare. apply re_match_found.
    rewrite rmatch_seq, rmatch_bol.
    read_run (digit_set IGNORECASE _ D);
      [apply digits_length; split; assumption | bound_by L |].
    rewrite <- (app_nil_r (repeat "."%char periods)).
    rewrite rmatch_seq.
    apply (rmatch_rep_run (one_char_char _ _));
      [apply periods_match | lia | | cbv beta].
    + intros n E. inversion E; subst. rewrite repeat_length. exact P.
    + rewrite rmatch_eol. discriminate.
  - exists (rx "^Page\s+\d+").
    split; [exact (or_intror (or_intror (or_introl eq_refl)))|].
    rewrite page_pattern_page. apply re_match_found.
    rewrite rmatch_seq, rmatch_bol.
    change ("Page" ++ ws ++ ds)
      with ("P"%char :: "a"%char :: "g"%char :: "e"%char :: ws ++ ds).
    do 4 read_char.
    read_run (space_set IGNORECASE _ W);
      [apply nonempty_length; exact NW | no_bound |].
    rewrite <- (app_nil_r ds).
    apply (rmatch_rep_run (one_char_set _ false _));
      [exact (digit_set IGNORECASE _ D)
      | apply digits_length; split; assumption | no_bound | discriminate].
  - exists (rx "^\d{1,4}/\d{1,4}$").
    split; [exact (or_intror (or_intror (or_intror (or_introl eq_refl))))|].
    rewrite page_pattern_ratio. apply re_match_found.
    rewrite rmatch_seq, rmatch_bol.
    read_run (digit_set IGNORECASE _ D1);
      [apply digits_length; split; assumption | bound_by L1 |].
    change ("/" ++ ds2) with ("/"%char :: ds2).
    read_char. rewrite <- (app_nil_r ds2).
    read_run (digit_set IGNORECASE _ D2);
      [apply digits_length; split; assumption | bound_by L2 |].
    rewrite rmatch_eol. discriminate.
  - exists (rx "^-\s*\d+\s*-$").
    split; [exact (or_intror (or_intror (or_intror (or_intror
                     (or_introl eq_refl)))))|].
    rewrite page_pattern_dashes. apply re_match_found.
    rewrite rmatch_seq, rmatch_bol.
    change ("-" ++ ws1 ++ ds ++ ws2 ++ "-")
      with ("-"%char :: ws1 ++ ds ++ ws2 ++ ["-"%char]).
    read_char.
    read_run (space_set IGNORECASE _ W1); [lia | no_bound |].
    read_run (digit_set IGNORECASE _ D);
      [apply digits_length; split; assumption | no_bound |].
    read_run (space_set IGNORECASE _ W2); [lia | no_bound |].
    read_char. rewrite rmatch_eol. discriminate.
  - exists (rx "^\(\d+\)$").
    split; [exact (or_intror (or_intror (or_intror (or_intror
                     (or_intror (or_introl eq_refl))))))|].
    rewrite page_pattern_parens. apply re_match_found.
    rewrite rmatch_seq, rmatch_bol.
    change ("(" ++ ds ++ ")") with ("("%char :: ds ++ [")"%char]).
    read_char.
    read_run (digit_set IGNORECASE _ D);
      [apply digits_length; split; assumption | no_bound |].
    read_char. rewrite rmatch_eol. discriminate.
Qed.

Lemma page_number_form_truthy (s : str) :
  page_number_form s -> truthy s = true.
Proof.
  intros F.
  destruct F as [ds periods [N D] L P | ws ds NW W [N D]
                | ds1 ds2 [N1 D1] L1 [N2 D2] L2 | ws1 ds ws2 W1 [N D] W2
                | ds [N D]]; try reflexivity.
  - destruct ds; [contradiction | reflexivity].
  - destruct ds1; [contradiction | reflexivity].
Qed.

Lemma page_number_form_detected (raw_line : str) :
  page_number_form (strip raw_line) -> _is_page_number raw_line = true.
Proof.
  intros F. unfold _is_page_number; cbv zeta.
  rewrite (page_number_form_truthy F). simpl negb. cbv iota.
  apply page_number_form_matches. exact F.
Qed.

(** C8, amended.  A line whose stripped text has one of the forms of a
    page number gives no element: the turn of the loop on that line
    leaves the scenes, the open scene and the classifier as they were,
    and the line adds nothing to the sequence of classified elements. *)
Theorem page_number_line_dropped
  (textwrap_wrap : str -> nat -> list str) (raw_line : str) (page : Page)
  (i : nat) (ps : PState) (ct : CState * list Element) :
  page_number_form (strip raw_line) ->
  classify_raw (classifier ps) i raw_line (lines page) = Some None
  /\ line_step textwrap_wrap page ps (i, raw_line) = Some ps
  /\ trace_step page ct (i, raw_line) = Some ct.
Proof.
  intros F.
  assert (T := page_number_form_truthy F).
  assert (D := page_number_form_detected _ F).
  assert (C : forall cs, classify_raw cs i raw_line (lines page) = Some None).
  { intros cs. unfold classify_raw. rewrite T, D. reflexivity. }
  split; [apply C|]. split.
  - unfold line_step. simpl fst. simpl snd. rewrite C. reflexivity.
  - unfold trace_step. simpl fst at 2. simpl snd at 1. rewrite C.
    reflexivity.
Qed.

Lemma page_number_line_dropped_witness :
  page_number_form (strip "42.")
  /\ line_step one_line (mkPage 1 (strs ["42."])) initial (0, "42." : str)
     = Some initial.
Proof.
  assert (F : page_number_form (strip "42.")).
  { exact (@pn_bare "42" 1 (conj (fun E => nil_cons (eq_sym E)) eq_refl)
             (le_S _ _ (le_S _ _ (le_n 2))) (le_S _ _ (le_n 1))). }
  split; [exact F|].
  exact (proj1 (proj2 (page_number_line_dropped one_line _
                         (mkPage 1 (strs ["42."])) 0 initial (init, []) F))).
Defined.

(** C8 fails as stated: the text of a dropped page number can be in the
    content.  The first line, [(42)], is a page number and is dropped;
    the second one, [((42))] after a blank, is not a page number, and
    artifact repair turns it into the same text [(42)], which becomes an
    action element and the content of the scene. *)
Lemma page_number_text_in_content :
  page_number_form (strip "(42)")
  /\ _is_page_number "(42)" = true
  /\ _is_page_number " ((42))" = false
  /\ classified_elements page_then_repair
     = Some [ mkElement action "(42)" 12 (Some 1%Z) ]
  /\ _parse_sequential_content one_line page_then_repair
     = Some [ mkScene [] (spaces 12 ++ "(42)") [] 1 1 ]
  /\ contains (spaces 12 ++ "(42)") "(42)" = true.
Proof.
  split.
  - exact (@pn_parens "42" (conj (fun E => nil_cons (eq_sym E)) eq_refl)).
  - repeat split; vm_compute; reflexivity.
Qed.

(** ** Scene assembly *)

Lemma classify_line_indent (st : CState) (line : str) (position : nat)
  (lines : list str) (e : Element) (st' : CState) :
  classify_line st line position lines = Some (e, st') ->
  el_indent e = canonical_indent (el_type e).
Proof.
  cascade st line position lines; intros H; inversion H; reflexivity.
Qed.

Lemma classify_raw_total (cs : CState) (i : nat) (raw_line : str)
  (page_lines : list str) :
  exists r, classify_raw cs i raw_line page_lines = Some r.
Proof.
  unfold classify_raw.
  destruct (negb (truthy (strip raw_line))); [eauto|].
  destruct (_is_page_number raw_line); [eauto|]. cbv zeta.
  destruct (negb (truthy (strip (_clean_extraction_artifacts raw_line))));
    [eauto|].
  destruct (classify_line_returns cs (_clean_extraction_artifacts raw_line) i
              page_lines) as [r ->].
  eauto.
Qed.

Lemma fold_opt_total (A B : Type) (f : A -> B -> option A) (l : list B) :
  (forall a b, exists a', f a b = Some a') ->
  forall a, exists a', fold_opt f l a = Some a'.
Proof.
  intros F. induction l as [|b l IH]; intros a; simpl; [eauto|].
  destruct (F a b) as [a' ->]. apply IH.
Qed.

(** Two loops over the same list that keep a relation at each turn keep
    it to the end. *)
Lemma fold_opt_related (A C B : Type) (R : A -> C -> Prop)
  (f : A -> B -> option A) (g : C -> B -> option C) (l : list B) :
  (forall a c b a' c',
     R a c -> f a b = Some a' -> g c b = Some c' -> R a' c') ->
  forall a c a' c',
    R a c -> fold_opt f l a = Some a' -> fold_opt g l c = Some c' ->
    R a' c'.
Proof.
  intros S. induction l as [|b l IH]; intros a c a' c' H F G; simpl in F, G.
  - inversion F; inversion G; subst; exact H.
  - destruct (f a b) as [a1|] eqn:Fa; [|discriminate F].
    destruct (g c b) as [c1|] eqn:Gc; [|discriminate G].
    exact (IH _ _ _ _ (S _ _ _ _ _ H Fa Gc) F G).
Qed.

Lemma trace_step_total (page : Page) (ct : CState * list Element)
  (il : nat * str) : exists ct', trace_step page ct il = Some ct'.
Proof.
  unfold trace_step.
  destruct (classify_raw_total (fst ct) (fst il) (snd il) (lines page))
    as [[[e cs]|] ->]; eauto.
Qed.

Lemma classified_elements_total (pages : list Page) :
  exists tr, classified_elements pages = Some tr.
Proof.
  unfold classified_elements.
  destruct (fold_opt_total trace_page pages) with (a := (init, @nil Element))
    as [ct ->]; [|eauto].
  intros a page. apply fold_opt_total. apply trace_step_total.
Qed.

Section Assembly.

Variable textwrap_wrap : str -> nat -> list str.

Lemma line_step_total (page : Page) (ps : PState) (il : nat * str) :
  exists ps', line_step textwrap_wrap page ps il = Some ps'.
Proof.
  unfold line_step.
  destruct (classify_raw_total (classifier ps) (fst il) (snd il)
              (lines page)) as [[[e cs]|] ->]; eauto.
Qed.

Lemma parse_total (pages : list Page) :
  exists result,
    _parse_sequential_content textwrap_wrap pages = Some result.
Proof.
  unfold _parse_sequential_content.
  destruct (fold_opt_total (page_step textwrap_wrap) pages)
    with (a := initial) as [ps ->]; [|eauto].
  intros a page. apply fold_opt_total. apply line_step_total.
Qed.

Lemma heading_from_more (tr more : list Element) (s : Scene) :
  heading_from tr s -> heading_from (tr ++ more) s.
Proof.
  intros [H | (e & I & T & H)]; [left; exact H|].
  right. exists e. split; [apply in_or_app; left; exact I|].
  split; assumption.
Qed.

Lemma classifier_assemble (ps : PState) (page : Z) (e : Element)
  (cs : CState) : classifier (assemble textwrap_wrap ps page e cs) = cs.
Proof.
  unfold assemble; cbv zeta. simpl el_type. destruct (el_type e);
    reflexivity.
Qed.

Lemma assembled_assemble (ps : PState) (tr : list Element) (page : Z)
  (e : Element) (cs : CState) :
  el_indent e = canonical_indent (el_type e) ->
  assembled textwrap_wrap ps tr ->
  assembled textwrap_wrap (assemble textwrap_wrap ps page e cs) (tr ++ [stamp page e]).
Proof.
  intros CI ((groups & C & P) & H & HC & I).
  assert (I' : Forall (fun e => el_indent e = canonical_indent (el_type e))
                 (tr ++ [stamp page e])).
  { apply Forall_app. split; [exact I|]. constructor; [exact CI|].
    constructor. }
  assert (H' : Forall (heading_from (tr ++ [stamp page e])) (scenes ps)).
  { eapply Forall_impl; [|exact H]. intros s. apply heading_from_more. }
  assert (HC' : forall h, current_scene_heading ps = Some h ->
            exists e0, In e0 (tr ++ [stamp page e])
                       /\ el_type e0 = scene_heading /\ el_text e0 = h).
  { intros h E. destruct (HC h E) as (e0 & I0 & T0 & X0).
    exists e0. split; [apply in_or_app; left; exact I0|].
    split; assumption. }
  unfold assembled, assemble; cbv zeta. simpl el_type.
  rewrite filter_app. simpl filter. unfold not_heading at 2.
  simpl el_type.
  destruct (el_type e) eqn:T; simpl etype_eqb; simpl negb; cbv iota;
    simpl scenes; simpl current_scene_elements;
    simpl current_scene_heading.
  2-7: (split; [exists groups; split; [exact C|];
                rewrite app_assoc, P; reflexivity|];
        split; [exact H'|]; split; [exact HC' | exact I']).
  (* a heading closes the open scene *)
  rewrite !app_nil_r. split; [|split; [|split; [|exact I']]].
  - unfold scene_open.
    destruct (opt_truthy (current_scene_heading ps)
              || match current_scene_elements ps with
                 | [] => false
                 | _ :: _ => true
                 end) eqn:O.
    + exists (groups ++ [current_scene_elements ps]). split.
      * rewrite !map_app, C. reflexivity.
      * rewrite concat_app. simpl concat. rewrite !app_nil_r. exact P.
    + exists groups. split; [exact C|].
      apply orb_false_elim in O. destruct O as [_ O].
      destruct (current_scene_elements ps); [|discriminate O].
      rewrite ?app_nil_r in P. rewrite ?app_nil_r. exact P.
  - destruct (scene_open ps); [|exact H'].
    apply Forall_app. split; [exact H'|]. constructor; [|constructor].
    unfold heading_from, close_scene. simpl heading.
    destruct (current_scene_heading ps) as [h|] eqn:E;
      [|left; reflexivity].
    simpl opt_truthy. destruct (truthy h); [|left; reflexivity].
    right. destruct (HC' h eq_refl) as (e0 & I0 & T0 & X0).
    exists e0. rewrite X0. repeat split; assumption.
  - intros h E. inversion E; subst h.
    exists (stamp page e). split; [apply in_or_app; right; left;
                                   reflexivity|].
    split; [exact T | reflexivity].
Qed.

Lemma in_step_line (page : Page) (ps : PState)
  (ct : CState * list Element) (il : nat * str) (ps' : PState)
  (ct' : CState * list Element) :
  in_step textwrap_wrap ps ct ->
  line_step textwrap_wrap page ps il = Some ps' ->
  trace_step page ct il = Some ct' ->
  in_step textwrap_wrap ps' ct'.
Proof.
  intros [E A]. unfold line_step, trace_step. rewrite E.
  unfold classify_raw.
  destruct (negb (truthy (strip (snd il))));
    [intros X Y; inversion X; inversion Y; subst; split; assumption|].
  destruct (_is_page_number (snd il));
    [intros X Y; inversion X; inversion Y; subst; split; assumption|].
  cbv zeta.
  destruct (negb (truthy (strip (_clean_extraction_artifacts (snd il)))));
    [intros X Y; inversion X; inversion Y; subst; split; assumption|].
  destruct (classify_line (fst ct) (_clean_extraction_artifacts (snd il))
              (fst il) (lines page)) as [[e cs]|] eqn:C;
    [|discriminate].
  intros X Y; inversion X; inversion Y; subst. split.
  - apply classifier_assemble.
  - simpl snd. apply assembled_assemble; [|exact A].
    exact (classify_line_indent _ _ _ _ C).
Qed.

Lemma in_step_page (ps : PState) (ct : CState * list Element)
  (page : Page) (ps' : PState) (ct' : CState * list Element) :
  in_step textwrap_wrap ps ct ->
  page_step textwrap_wrap ps page = Some ps' ->
  trace_page ct page = Some ct' ->
  in_step textwrap_wrap ps' ct'.
Proof.
  unfold page_step, trace_page. apply fold_opt_related.
  intros a c b a' c'. apply in_step_line.
Qed.

Lemma in_step_initial : in_step textwrap_wrap initial (init, []).
Proof.
  split; [reflexivity|]. split; [exists []; split; reflexivity|].
  split; [constructor|]. split; [|constructor].
  intros h E. discriminate E.
Qed.

(** Every element of a list is rendered among the formatted lines. *)
Lemma format_step_lines (els : list Element) :
  forall fs, exists more,
    formatted_lines (fold_left (format_step textwrap_wrap) els fs)
    = formatted_lines fs ++ more.
Proof.
  induction els as [|e els IH]; intros fs; simpl.
  - exists []. rewrite app_nil_r. reflexivity.
  - destruct (IH (format_step textwrap_wrap fs e)) as [more ->].
    unfold format_step at 1. simpl formatted_lines.
    eexists. rewrite <- app_assoc. reflexivity.
Qed.

Lemma format_lines_rendered (els : list Element) (e : Element) :
  In e els ->
  exists pre post,
    format_lines textwrap_wrap els
    = pre ++ rendered textwrap_wrap e ++ post.
Proof.
  unfold format_lines. generalize (mkFState [] None None).
  induction els as [|x els IH]; intros fs I; [contradiction|].
  destruct I as [-> | I]; simpl fold_left.
  - destruct (format_step_lines els (format_step textwrap_wrap fs e))
      as [more ->].
    unfold format_step. simpl formatted_lines.
    exists (formatted_lines fs ++ blanks_before fs e),
      (blanks_after e ++ more).
    rewrite <- !app_assoc. reflexivity.
  - apply IH. exact I.
Qed.

End Assembly.

(** C7 fails as stated: the heading of a scene is not in its content.
    The document of two lines, a heading and an action line, gives one
    scene; its content is the action line alone. *)
Lemma heading_not_in_content :
  _parse_sequential_content one_line kitchen_pages
  = Some [ mkScene (spaces 12 ++ "INT. KITCHEN - DAY")
             (spaces 12 ++ "John opens the fridge.") [] 1 1 ]
  /\ classified_elements kitchen_pages
     = Some [ mkElement scene_heading "INT. KITCHEN - DAY" 12 (Some 1%Z);
              mkElement action "John opens the fridge." 12 (Some 1%Z) ]
  /\ contains (spaces 12 ++ "John opens the fridge.") "INT. KITCHEN - DAY"
     = false.
Proof.
  repeat split; vm_compute; reflexivity.
Qed.

(** ** The scenarios of the specification *)

(** A corrupted continuation marker is repaired, and the line is a
    character cue at 38 columns. *)
Example hannah_contd_repaired :
  _clean_extraction_artifacts "HANNAH (CCOONNTT''DD)" = "HANNAH (CONT'D)"
  /\ classify_line init (_clean_extraction_artifacts "HANNAH (CCOONNTT''DD)")
       0 []
     = Some (element character "HANNAH (CONT'D)" 38,
             mkCState (Some character) true).
Proof. split; vm_compute; reflexivity. Qed.

(** The kitchen scene: one scene with its heading, the action line at 12
    columns, the cue at 38 and the dialogue at 25, and the character
    JOHN; the page number at the end leaves no trace. *)
Example kitchen_scene :
  _parse_sequential_content one_line
    [ mkPage 1 [ "INT. KITCHEN - DAY" : str; [];
                 "John opens the fridge." : str; [];
                 "                                      JOHN" : str;
                 "                         There's nothing left." : str;
                 "42." : str ] ]
  = Some [ mkScene (spaces 12 ++ "INT. KITCHEN - DAY")
             (spaces 12 ++ "John opens the fridge." ++ [nl; nl; nl]
              ++ spaces 38 ++ "JOHN" ++ [nl]
              ++ spaces 25 ++ "There's nothing left.")
             (strs ["JOHN"]) 1 1 ].
Proof. vm_compute. reflexivity. Qed.

(** * Further properties *)

(** ** The state machine of the classifier *)

Lemma parenthetical_guard_inv (st : CState) (trimmed : str) :
  parenthetical_guard st trimmed = true ->
  in_dialogue_block st = true
  /\ startswith trimmed "(" = true /\ endswith trimmed ")" = true.
Proof.
  unfold parenthetical_guard. intros H.
  apply andb_prop in H. destruct H as [H H2].
  apply andb_prop in H. destruct H as [H0 H1]. auto.
Qed.

(** X1. The flag [in_dialogue_block] after a call follows the type of the
    element: set after a character cue, dialogue or a parenthetical,
    cleared after a scene heading, a transition or a pre-scene element;
    an action line never opens a block. *)
Theorem block_flag_follows_type (st : CState) (line : str) (position : nat)
  (lines : list str) (e : Element) (st' : CState) :
  classify_line st line position lines = Some (e, st') ->
  match el_type e with
  | character | dialogue | parenthetical => in_dialogue_block st' = true
  | scene_heading | transition | pre_scene => in_dialogue_block st' = false
  | action => in_dialogue_block st' = true -> in_dialogue_block st = true
  end.
Proof.
  cascade st line position lines; intros H; inversion H; subst; clear H;
    simpl; try reflexivity; try discriminate;
    try (match goal with
         | G : dialogue_guard st = true |- _ =>
             apply dialogue_guard_inv in G; destruct G as [G _]; exact G
         end);
    try (match goal with
         | G : parenthetical_guard st _ = true |- _ =>
             apply parenthetical_guard_inv in G; destruct G as [G _]; exact G
         end);
    destruct (_ || _); intros B; (discriminate B || exact B).
Qed.

Lemma block_flag_follows_type_witness :
  classify_line (in_block_after character) "(beat)" 3 []
  = Some (element parenthetical "(beat)" 30,
          mkCState (Some parenthetical) true)
  /\ in_dialogue_block (mkCState (Some parenthetical) true) = true.
Proof.
  assert (C : classify_line (in_block_after character) "(beat)" 3 []
              = Some (element parenthetical "(beat)" 30,
                      mkCState (Some parenthetical) true))
    by (vm_compute; reflexivity).
  split; [exact C|].
  exact (block_flag_follows_type _ _ _ _ C).
Defined.

(** X2. A parenthetical is emitted only inside a dialogue block, for a
    text in brackets; dialogue is emitted only inside a dialogue block
    after a cue, a parenthetical or dialogue, or by the rule of the
    hyphenated continuation. *)
Theorem dialogue_needs_open_block (st : CState) (line : str)
  (position : nat) (lines : list str) (e : Element) (st' : CState) :
  classify_line st line position lines = Some (e, st') ->
  (el_type e = parenthetical ->
   in_dialogue_block st = true
   /\ startswith (strip line) "(" = true
   /\ endswith (strip line) ")" = true)
  /\ (el_type e = dialogue ->
      (in_dialogue_block st = true
       /\ last_in st [character; parenthetical; dialogue] = true)
      \/ hyphenated_guard (strip line) position lines = Some true).
Proof.
  unfold classify_line; cbv zeta.
  destruct (contd_cue (strip line)).
  { intros H; inversion H; subst; split; intros T; discriminate T. }
  destruct (hyphenated_guard_total position lines (strip line)) as [hy E].
  rewrite E. destruct hy.
  { intros H; inversion H; subst; split; intros T;
      [discriminate T | right; reflexivity]. }
  destruct (_is_character_name_total lines (strip line) (leading line)
              position) as [nm ->].
  destruct (continuation_guard_total position lines) as [cb ->].
  repeat match goal with
         | |- context [if ?b then _ else _] => destruct b eqn:?
         end;
    intros H; inversion H; subst; clear H; simpl;
    (split; intros T; try discriminate T);
    try (apply parenthetical_guard_inv; assumption);
    left; apply dialogue_guard_inv; assumption.
Qed.

Lemma dialogue_needs_open_block_witness :
  classify_line (in_block_after character) vegas_line 1 []
  = Some (element dialogue (strip vegas_line) 25,
          mkCState (Some dialogue) true)
  /\ in_dialogue_block (in_block_after character) = true.
Proof.
  assert (C : classify_line (in_block_after character) vegas_line 1 []
              = Some (element dialogue (strip vegas_line) 25,
                      mkCState (Some dialogue) true))
    by (vm_compute; reflexivity).
  split; [exact C|].
  destruct (dialogue_needs_open_block _ _ _ _ C) as [_ D].
  destruct (D eq_refl) as [[B _] | Hy]; [exact B | reflexivity].
Defined.

(** ** Character cues *)

(** A text that the pattern of names matches starts with an upper-case
    letter. *)
Lemma name_pattern_first (text : str) :
  re_match no_flags (rx "^[A-Z][A-Z\s\-\.\']+(\s*\([A-Z\.\s\']+\))?$") text
  = true ->
  match text with
  | c0 :: _ => Ascii.eqb c0 (upper_c c0)
  | [] => false
  end = true.
Proof.
  assert (P : exists tail,
             rx "^[A-Z][A-Z\s\-\.\']+(\s*\([A-Z\.\s\']+\))?$"
             = RSeq RBol (RSeq (RSet false [CRange "A" "Z"]) tail))
    by (eexists; vm_compute; reflexivity).
  destruct P as [tail ->].
  unfold re_match, match_here. rewrite rmatch_seq, rmatch_bol, rmatch_seq.
  simpl rmatch at 1. unfold step_if. simpl rest.
  destruct text as [|c0 text]; [intros H; discriminate H|].
  destruct (set_match no_flags false [CRange "A" "Z"] c0) eqn:S;
    [|intros H; discriminate H].
  intros _. unfold set_match, in_items in S. simpl in S.
  rewrite orb_false_r in S.
  change (is_upper_c c0 = true) in S.
  unfold upper_c.
  destruct (is_lower_c c0) eqn:L; [|apply Ascii.eqb_refl].
  exfalso. unfold is_upper_c, is_lower_c, between in S, L.
  apply andb_prop in S. apply andb_prop in L.
  destruct S as [_ S]. destruct L as [L _].
  apply Nat.leb_le in S. apply Nat.leb_le in L. lia.
Qed.

Lemma character_name_value (text : str) (leading_spaces position : nat)
  (lines : list str) :
  _is_character_name text leading_spaces position lines
  = Some (re_search IGNORECASE Patterns.contd_pattern text
          || ((32 <=? leading_spaces) && (leading_spaces <=? 48)
              && re_match no_flags
                   (rx "^[A-Z][A-Z\s\-\.\']+(\s*\([A-Z\.\s\']+\))?$") text)).
Proof.
  unfold _is_character_name.
  destruct (re_search IGNORECASE Patterns.contd_pattern text);
    [reflexivity|].
  rewrite orb_false_l.
  destruct ((32 <=? leading_spaces) && (leading_spaces <=? 48));
    [|reflexivity].
  simpl negb. cbv iota. rewrite andb_true_l.
  destruct (re_match no_flags _ text) eqn:M.
  - apply name_pattern_first in M.
    destruct text as [|c0 text]; [discriminate M|].
    rewrite M. simpl negb. cbv iota zeta. simpl existsb. cbv iota.
    destruct (position + 1 <? length lines) eqn:E; [|reflexivity].
    destruct (getitem_in_range _ _ E) as [x ->].
    destruct (_ && _); reflexivity.
  - destruct text as [|c0 text]; [reflexivity|].
    destruct (negb _); reflexivity.
Qed.

(** X3. A blank line is an action element with an empty text, whatever
    the state, the position and the lines; the dialogue block is left as
    it is. *)
Theorem blank_line_is_empty_action (st : CState) (line : str)
  (position : nat) (lines : list str) :
  strip line = [] ->
  classify_line st line position lines
  = Some (element action [] 12,
          mkCState (Some action) (in_dialogue_block st)).
Proof.
  intros B.
  assert (E0 : contd_cue [] = false) by (vm_compute; reflexivity).
  assert (E2 : _is_pre_scene_element [] = false) by (vm_compute; reflexivity).
  assert (E3 : Patterns.is_scene_heading [] = false)
    by (vm_compute; reflexivity).
  assert (E4 : _is_transition [] = false) by (vm_compute; reflexivity).
  assert (E5 : _is_character_name [] (leading line) position lines
               = Some false).
  { rewrite character_name_value.
    replace (re_search IGNORECASE Patterns.contd_pattern []) with false
      by (vm_compute; reflexivity).
    replace (re_match no_flags
               (rx "^[A-Z][A-Z\s\-\.\']+(\s*\([A-Z\.\s\']+\))?$") [])
      with false by (vm_compute; reflexivity).
    rewrite andb_false_r. reflexivity. }
  assert (E6 : parenthetical_guard st [] = false).
  { unfold parenthetical_guard.
    replace (startswith [] "(") with false by reflexivity.
    rewrite andb_false_r. reflexivity. }
  assert (A : _is_clearly_action st [] = false)
    by (unfold _is_clearly_action; destruct (in_dialogue_block st);
        vm_compute; reflexivity).
  assert (S : _is_scene_element [] = false) by (vm_compute; reflexivity).
  assert (I : _contains_action_indicators [] = false)
    by (vm_compute; reflexivity).
  unfold classify_line; cbv zeta. rewrite B, E0.
  change (hyphenated_guard [] position lines) with (Some false).
  cbv iota. rewrite E2, E3, E4, E5, E6.
  unfold default_action, strong_action_signal, score_test.
  rewrite A, S, I. cbn [truthy andb orb].
  rewrite andb_false_r.
  destruct (dialogue_guard st); reflexivity.
Qed.

Lemma blank_line_is_empty_action_witness :
  strip (spaces 40) = []
  /\ classify_line (in_block_after dialogue) (spaces 40) 7 []
     = Some (element action [] 12, mkCState (Some action) true).
Proof.
  assert (B : strip (spaces 40) = []) by (vm_compute; reflexivity).
  split; [exact B|].
  exact (@blank_line_is_empty_action (in_block_after dialogue) (spaces 40)
           7 [] B).
Defined.

(** X4. [_is_character_name] never raises and never reads its context:
    the answer is the continuation pattern, or the margin of 32 to 48
    columns with the pattern of names; the position, the lines and the
    list of exclusions have no part in it. *)
Theorem character_name_decision (text : str) (leading_spaces : nat)
  (position position' : nat) (lines lines' : list str) :
  _is_character_name text leading_spaces position lines
  = Some (re_search IGNORECASE Patterns.contd_pattern text
          || ((32 <=? leading_spaces) && (leading_spaces <=? 48)
              && re_match no_flags
                   (rx "^[A-Z][A-Z\s\-\.\']+(\s*\([A-Z\.\s\']+\))?$") text))
  /\ _is_character_name text leading_spaces position lines
     = _is_character_name text leading_spaces position' lines'.
Proof.
  split; [apply character_name_value|].
  rewrite !character_name_value. reflexivity.
Qed.

(** ** The lines that a classification reads *)

Lemma in_range_nth (A : Type) (l : list A) (i : nat) :
  (i <? length l)
  = match nth_error l i with Some _ => true | None => false end.
Proof.
  destruct (nth_error l i) eqn:E.
  - apply Nat.ltb_lt. apply nth_error_Some. rewrite E. discriminate.
  - apply Nat.ltb_ge. apply nth_error_None. exact E.
Qed.

Lemma out_of_range_nth (A : Type) (l : list A) (i : nat) :
  (length l <=? i)
  = match nth_error l i with Some _ => false | None => true end.
Proof.
  destruct (nth_error l i) eqn:E.
  - apply Nat.leb_gt. apply nth_error_Some. rewrite E. discriminate.
  - apply Nat.leb_le. apply nth_error_None. exact E.
Qed.

Section Locality.

Variables (position : nat) (lines lines' : list str).

Hypothesis same_window :
  forall i, position - 5 <= i < position ->
            nth_error lines i = nth_error lines' i.

Lemma hyphenated_guard_window (trimmed : str) :
  hyphenated_guard trimmed position lines
  = hyphenated_guard trimmed position lines'.
Proof.
  unfold hyphenated_guard. destruct (truthy trimmed); [|reflexivity].
  unfold _is_specific_hyphenated_continuation.
  destruct (position <? 2) eqn:P; [reflexivity|].
  apply Nat.ltb_ge in P.
  destruct (_ || _); [reflexivity|].
  destruct (2 <=? position); [|reflexivity].
  cbv zeta. rewrite !in_range_nth. unfold getitem.
  rewrite <- (same_window (i := position - 2)) by lia.
  destruct (nth_error lines (position - 2)) as [hyphen_raw|]; [|reflexivity].
  destruct (_ && _); [|reflexivity].
  destruct (0 <? position - 2) eqn:Q; [|reflexivity].
  apply Nat.ltb_lt in Q.
  rewrite <- (same_window (i := position - 2 - 1)) by lia.
  destruct (nth_error lines (position - 2 - 1)) as [prev_raw|];
    [|reflexivity].
  rewrite !character_name_value. reflexivity.
Qed.

Lemma block_is_dialogue_window (js : list nat) :
  (forall j, In j js -> position - 5 <= j < position) ->
  block_is_dialogue lines js = block_is_dialogue lines' js.
Proof.
  induction js as [|j js IH]; intros W; simpl; [reflexivity|].
  rewrite !out_of_range_nth. unfold getitem.
  rewrite <- (same_window (i := j)) by (apply W; left; reflexivity).
  rewrite IH by (intros j' I; apply W; right; exact I).
  reflexivity.
Qed.

Lemma find_continuation_cue_window (idxs : list nat) :
  (forall i, In i idxs -> position - 5 <= i < position) ->
  find_continuation_cue lines position idxs
  = find_continuation_cue lines' position idxs.
Proof.
  induction idxs as [|i idxs IH]; intros W; simpl; [reflexivity|].
  rewrite !out_of_range_nth. unfold getitem.
  assert (Wi : position - 5 <= i < position) by (apply W; left; reflexivity).
  rewrite <- (same_window Wi).
  rewrite IH by (intros j' I; apply W; right; exact I).
  rewrite (block_is_dialogue_window (seq (i + 1) (position - (i + 1)))).
  - reflexivity.
  - intros j I. apply in_seq in I. lia.
Qed.

Lemma continuation_guard_window :
  continuation_guard position lines = continuation_guard position lines'.
Proof.
  unfold continuation_guard, _is_in_continuation_dialogue_block.
  destruct (0 <? position); [|reflexivity].
  cbv zeta. apply find_continuation_cue_window.
  intros i I. apply in_rev in I. apply in_seq in I. lia.
Qed.

End Locality.

(** X5. A classification reads the state, the line and the five lines
    before it, and nothing else of the page: two lists of lines that agree
    on the positions [position - 5] to [position - 1] give the same
    element and the same state.  The lines after the current one are never
    read to any effect. *)
Theorem classify_line_reads_five_lines_back (st : CState) (line : str)
  (position : nat) (lines lines' : list str) :
  (forall i, position - 5 <= i < position ->
             nth_error lines i = nth_error lines' i) ->
  classify_line st line position lines
  = classify_line st line position lines'.
Proof.
  intros W. unfold classify_line; cbv zeta.
  rewrite (@hyphenated_guard_window position lines lines' W),
    (@continuation_guard_window position lines lines' W).
  rewrite !character_name_value. reflexivity.
Qed.

Lemma classify_line_reads_five_lines_back_witness :
  classify_line (in_block_after character) vegas_line 1
    (strs ["HANNAH (CONT'D)"; "first"; "second"])
  = classify_line (in_block_after character) vegas_line 1
      (strs ["HANNAH (CONT'D)"]).
Proof.
  apply classify_line_reads_five_lines_back.
  intros i [_ H]. destruct i as [|i]; [reflexivity | lia].
Defined.

(** X17. The state of the classifier has a say only between a
    parenthetical, dialogue and action: when a call gives a scene
    heading, a transition, a pre-scene element or a character cue, the
    call on the same line from any other state gives the same element
    and leaves the same state. *)
Theorem structure_ignores_state (st1 st2 : CState) (line : str)
  (position : nat) (lines : list str) (e : Element) (st' : CState) :
  classify_line st1 line position lines = Some (e, st') ->
  In (el_type e) [scene_heading; transition; pre_scene; character] ->
  classify_line st2 line position lines = Some (e, st').
Proof.
  unfold classify_line; cbv zeta.
  destruct (contd_cue (strip line)); [intros H _; exact H|].
  destruct (hyphenated_guard_total position lines (strip line)) as [hy ->].
  cbv beta iota.
  destruct hy; [intros H _; exact H|].
  destruct (_is_pre_scene_element (strip line)); [intros H _; exact H|].
  destruct (Patterns.is_scene_heading (strip line)); [intros H _; exact H|].
  destruct (_is_transition (strip line)); [intros H _; exact H|].
  destruct (_is_character_name_total lines (strip line) (leading line)
              position) as [nm ->].
  cbv beta iota.
  destruct nm; [intros H _; exact H|].
  destruct (continuation_guard_total position lines) as [cb ->].
  intros H I. exfalso. revert H I.
  repeat match goal with
         | |- context [if ?b then _ else _] => destruct b
         end;
    intros H; inversion H; subst; clear H; simpl;
    intros [X | [X | [X | [X | []]]]]; discriminate X.
Qed.

Lemma structure_ignores_state_witness :
  classify_line (in_block_after dialogue) "INT. KITCHEN - DAY" 0 []
  = Some (element scene_heading "INT. KITCHEN - DAY" 12,
          mkCState (Some scene_heading) false).
Proof.
  apply (@structure_ignores_state init).
  - vm_compute. reflexivity.
  - simpl. left. reflexivity.
Defined.

(** ** Runs of one character class *)

Section Runs.

Variables (fl : flags) (r : re) (test : ascii -> bool).
Hypothesis r_one : one_char fl r test.

Lemma run_of_split (s : str) :
  s = firstn (run_of test s) s ++ skipn (run_of test s) s
  /\ forallb test (firstn (run_of test s) s) = true
  /\ run_of test (skipn (run_of test s) s) = 0.
Proof.
  induction s as [|c s IH]; simpl; [auto|].
  destruct (test c) eqn:T; simpl.
  - destruct IH as (E & F & Z). rewrite T. repeat split; try assumption.
    f_equal. exact E.
  - rewrite T. auto.
Qed.

Lemma run_of_le (s : str) : run_of test s <= length s.
Proof.
  induction s as [|c s IH]; simpl; [lia|]. destruct (test c); simpl; lia.
Qed.

(** A greedy repetition without upper bound stops at the end of the
    run. *)
Lemma rep_opt_all (run tail : str) (cp : list (nat * str)) :
  forall (fuel : nat) (p : option ascii),
    forallb test run = true ->
    run_of test tail = 0 ->
    length run < fuel ->
    rep_opt (rmatch fl r) fuel None (MState p (run ++ tail) cp)
      (fun st => Some st)
    = Some (MState (after p run) tail cp).
Proof.
  induction run as [|x run IH]; intros fuel p T Z F.
  - simpl app. simpl after. destruct fuel as [|fuel]; simpl; [reflexivity|].
    rewrite r_one. unfold step_if. simpl rest.
    destruct tail as [|y tail]; [reflexivity|].
    simpl in Z. destruct (test y); [discriminate Z | reflexivity].
  - simpl in T, F. apply andb_prop in T. destruct T as [Tx T].
    destruct fuel as [|fuel]; [lia|].
    change ((x :: run) ++ tail) with (x :: (run ++ tail)).
    simpl rep_opt. rewrite r_one. unfold step_if. simpl rest.
    cbv beta iota. rewrite Tx. unfold advance. simpl caps. simpl rest.
    replace (length (run ++ tail) <? S (length (run ++ tail))) with true
      by (symmetry; apply Nat.ltb_lt; lia).
    rewrite IH by (try assumption; lia). reflexivity.
Qed.

Lemma rep_min_short (run tail : str) (cp : list (nat * str))
  (k : mstate -> option mstate) :
  forall (lo : nat) (p : option ascii),
    forallb test run = true ->
    run_of test tail = 0 ->
    length run < lo ->
    rep_min (rmatch fl r) lo (MState p (run ++ tail) cp) k = None.
Proof.
  induction run as [|x run IH]; intros lo p T Z L;
    (destruct lo as [|lo]; [simpl in L; lia|]); simpl rep_min;
    rewrite r_one; unfold step_if; simpl rest.
  - simpl app. destruct tail as [|y tail]; [reflexivity|].
    simpl in Z. destruct (test y); [discriminate Z | reflexivity].
  - simpl in T, L. apply andb_prop in T. destruct T as [Tx T].
    change ((x :: run) ++ tail) with (x :: (run ++ tail)).
    cbv beta iota. rewrite Tx. unfold advance. simpl caps.
    apply IH; try assumption. lia.
Qed.

(** One attempt of [r{lo,}] reads the whole run, or fails when the run
    is too short. *)
Lemma match_here_run (lo : nat) (p : option ascii) (s : str) :
  match_here fl (RRep r lo None) p s
  = if lo <=? run_of test s
    then Some (MState (after p (firstn (run_of test s) s))
                 (skipn (run_of test s) s) [])
    else None.
Proof.
  destruct (run_of_split s) as (E & T & Z).
  set (n := run_of test s) in *.
  set (run := firstn n s) in *. set (tail := skipn n s) in *.
  assert (Ln : length run = n).
  { apply firstn_length_le. apply run_of_le. }
  unfold match_here. rewrite E at 1.
  destruct (lo <=? n) eqn:L.
  - apply Nat.leb_le in L.
    rewrite <- (firstn_skipn lo run) in T |- *.
    set (run1 := firstn lo run) in *. set (run2 := skipn lo run) in *.
    assert (L1 : length run1 = lo) by (apply firstn_length_le; lia).
    rewrite forallb_app in T. apply andb_prop in T. destruct T as [T1 T2].
    rewrite (rmatch_rep fl r). rewrite <- L1 at 1. rewrite <- app_assoc.
    rewrite (rep_min_run r_one) by exact T1.
    simpl rest. simpl hi_left.
    rewrite rep_opt_all by (try assumption; rewrite length_app; lia).
    unfold after. rewrite fold_left_app. reflexivity.
  - apply Nat.leb_gt in L. rewrite (rmatch_rep fl r).
    apply rep_min_short; try assumption. lia.
Qed.

End Runs.

(** The characters that a substitution passes over after a match. *)
Lemma sub_from_skip (fl : flags) (r : re)
  (repl : list (nat * str) -> str -> str) :
  forall (n : nat) (s : str) (p : option ascii),
    n <= length s ->
    sub_from fl r repl p s n
    = sub_from fl r repl (after p (firstn n s)) (skipn n s) 0.
Proof.
  induction n as [|n IH]; intros s p L; [reflexivity|].
  destruct s as [|c s]; [simpl in L; lia|].
  simpl in L. change (sub_from fl r repl p (c :: s) (S n))
    with (sub_from fl r repl (Some c) s n).
  rewrite IH by lia. reflexivity.
Qed.

Section Squeeze.

Variables (r : re) (test : ascii -> bool) (lo : nat) (t : str).
Hypothesis r_one : one_char no_flags r test.
Hypothesis lo_pos : 1 <= lo.

(** The substitution of a constant text for [r{lo,}], one run at a
    time. *)
Lemma sub_run (p : option ascii) (s : str) :
  sub_from no_flags (RRep r lo None) (const_repl t) p s 0
  = if lo <=? run_of test s
    then t ++ sub_from no_flags (RRep r lo None) (const_repl t)
                (after p (firstn (run_of test s) s))
                (skipn (run_of test s) s) 0
    else match s with
         | [] => []
         | c :: s' =>
             c :: sub_from no_flags (RRep r lo None) (const_repl t)
                    (Some c) s' 0
         end.
Proof.
  assert (M := match_here_run r_one lo p s).
  assert (B := run_of_le test s).
  remember (run_of test s) as n eqn:N.
  destruct (lo <=? n) eqn:L.
  - apply Nat.leb_le in L.
    destruct s as [|c s]; [simpl in N; lia|].
    change (sub_from no_flags (RRep r lo None) (const_repl t) p (c :: s) 0)
      with (match match_here no_flags (RRep r lo None) p (c :: s) with
            | Some m =>
                let out := const_repl t (caps m)
                             (firstn (length (c :: s) - length (rest m))
                                (c :: s)) in
                match length (c :: s) - length (rest m) with
                | 0 =>
                    out ++ c :: sub_from no_flags (RRep r lo None)
                                  (const_repl t) (Some c) s 0
                | S n =>
                    out ++ sub_from no_flags (RRep r lo None)
                             (const_repl t) (Some c) s n
                end
            | None =>
                c :: sub_from no_flags (RRep r lo None) (const_repl t)
                       (Some c) s 0
            end).
    rewrite M. cbv zeta. cbn [rest caps]. unfold const_repl.
    rewrite length_skipn.
    replace (length (c :: s) - (length (c :: s) - n)) with n by lia.
    destruct n as [|m]; [lia|].
    f_equal. simpl in B.
    rewrite sub_from_skip by lia. reflexivity.
  - destruct s as [|c s].
    + simpl. unfold match_here in M |- *. rewrite M. reflexivity.
    + simpl sub_from. rewrite M. reflexivity.
Qed.

End Squeeze.

(** ** No more than three line feeds in a row *)


Lemma newlines_pattern : rx "\n{4,}" = RRep (RChar nl) 4 None.
Proof. vm_compute. reflexivity. Qed.

Lemma one_char_nl : one_char no_flags (RChar nl) is_nl.
Proof. intros st k. reflexivity. Qed.

Lemma run_of_cons (test : ascii -> bool) (c : ascii) (s : str) :
  run_of test (c :: s) = if test c then S (run_of test s) else 0.
Proof. reflexivity. Qed.

Lemma run_of_nl (s : str) : run_of is_nl (nl :: s) = S (run_of is_nl s).
Proof. rewrite run_of_cons. unfold is_nl. rewrite Ascii.eqb_refl. reflexivity. Qed.

Lemma startswith_run (c : ascii) (n : nat) :
  forall s, startswith s (repeat c n) = true -> n <= run_of (Ascii.eqb c) s.
Proof.
  induction n as [|n IH]; intros s H; [lia|].
  destruct s as [|x s]; [discriminate H|].
  cbn [repeat startswith] in H. apply andb_prop in H. destruct H as [E H].
  rewrite run_of_cons, E. apply IH in H. lia.
Qed.

Lemma startswith_four (s : str) :
  run_of is_nl s <= 3 -> startswith s four_newlines = false.
Proof.
  intros H. destruct (startswith s four_newlines) eqn:E; [|reflexivity].
  apply (startswith_run nl 4) in E. unfold is_nl in H. lia.
Qed.

Lemma contains_cons_four (c : ascii) (s : str) :
  run_of is_nl (c :: s) <= 3 ->
  contains s four_newlines = false ->
  contains (c :: s) four_newlines = false.
Proof.
  intros R C. change (contains (c :: s) four_newlines)
    with (startswith (c :: s) four_newlines || contains s four_newlines).
  rewrite (startswith_four _ R), C. reflexivity.
Qed.

(** The substitution of three line feeds for four or more leaves no run
    of four, and does not lengthen the run at the start. *)
Lemma squeeze_newlines (n : nat) :
  forall (s : str) (p : option ascii),
    length s <= n ->
    let out := sub_from no_flags (RRep (RChar nl) 4 None)
                 (const_repl [nl; nl; nl]) p s 0 in
    run_of is_nl out <= 3
    /\ run_of is_nl out <= run_of is_nl s
    /\ contains out four_newlines = false.
Proof.
  induction n as [|n IH]; intros s p L; cbv zeta;
    rewrite (sub_run [nl; nl; nl] one_char_nl) by lia.
  - destruct s; [|simpl in L; lia].
    change (run_of is_nl []) with 0. cbn [Nat.leb].
    repeat split; try reflexivity; cbn [run_of]; lia.
  - destruct (4 <=? run_of is_nl s) eqn:R.
    + apply Nat.leb_le in R.
      destruct (run_of_split is_nl s) as (_ & _ & Z).
      assert (B := run_of_le is_nl s).
      destruct (IH (skipn (run_of is_nl s) s)
                  (after p (firstn (run_of is_nl s) s)))
        as (I1 & I2 & I3).
      { rewrite length_skipn. lia. }
      cbv zeta in I1, I2, I3. rewrite Z in I2.
      set (out := sub_from _ _ _ _ _ _) in *.
      assert (O : run_of is_nl out = 0) by lia.
      change ([nl; nl; nl] ++ out) with (nl :: nl :: nl :: out).
      rewrite !run_of_nl, O.
      split; [lia|]. split; [lia|].
      repeat (apply contains_cons_four; [rewrite ?run_of_nl, O; lia|]).
      exact I3.
    + apply Nat.leb_gt in R.
      destruct s as [|c s];
        [repeat split; try reflexivity; cbn [run_of]; lia|].
      simpl in L.
      destruct (IH s (Some c)) as (I1 & I2 & I3); [lia|].
      cbv zeta in I1, I2, I3.
      set (out := sub_from _ _ _ _ _ _) in *.
      rewrite run_of_cons in R.
      assert (Q : run_of is_nl (c :: out) <= 3
                  /\ run_of is_nl (c :: out) <= run_of is_nl (c :: s)).
      { rewrite !run_of_cons. destruct (is_nl c); lia. }
      destruct Q as [Q1 Q2]. split; [exact Q1|]. split; [exact Q2|].
      apply contains_cons_four; assumption.
Qed.

Lemma re_sub_newlines (s : str) :
  contains (re_sub no_flags (rx "\n{4,}") (const_repl [nl; nl; nl]) s)
    four_newlines = false.
Proof.
  rewrite newlines_pattern. unfold re_sub.
  apply (squeeze_newlines (n := length s) s None (le_n _)).
Qed.

(** X9. The formatted content of a scene never has four line feeds in a
    row (at most two blank lines), whatever the elements and the
    wrapping of dialogue. *)
Theorem content_has_no_four_newlines
  (textwrap_wrap : str -> nat -> list str) (elements : list Element) :
  contains (format_screenplay_content textwrap_wrap elements) four_newlines
  = false.
Proof. unfold format_screenplay_content. apply re_sub_newlines. Qed.

Lemma repairs_last :
  exists front,
    repairs
    = front ++ [mkRepair no_flags (rx "\n{4,}") (const_repl [nl; nl; nl])].
Proof.
  unfold repairs.
  match goal with
  | |- exists front, ?a ++ ?b = _ =>
      exists (a ++ removelast b)
  end.
  rewrite <- app_assoc. reflexivity.
Qed.

(** X8. Artifact repair returns the empty text for the empty text, and
    its result never has four line feeds in a row. *)
Theorem repaired_text_has_no_four_newlines (text : str) :
  _clean_extraction_artifacts [] = []
  /\ contains (_clean_extraction_artifacts text) four_newlines = false.
Proof.
  split; [reflexivity|].
  unfold _clean_extraction_artifacts.
  destruct text as [|c text]; [reflexivity|]. simpl negb. cbv iota.
  destruct repairs_last as [front ->].
  rewrite fold_left_app. simpl fold_left. unfold apply_repair.
  simpl rp_flags. simpl rp_pattern. simpl rp_repl.
  apply re_sub_newlines.
Qed.

(** ** Patterns that ask for a literal opening *)

Lemma found_or (a b : option mstate) :
  found (match a with Some m => Some m | None => b end) = found a || found b.
Proof. destruct a; reflexivity. Qed.

Lemma optional_found (r : re) :
  optional r = true ->
  forall st k, (forall st', found (k st') = true) ->
               found (rmatch no_flags r st k) = true.
Proof.
  induction r as [ | ch | | neg items | a IHa b IHb | a IHa b IHb
                 | r IH lo hi | n r IH | n | | | | r IH ];
    intros O st k K; simpl in O; try discriminate O.
  - apply K.
  - apply andb_prop in O. destruct O as [Oa Ob].
    rewrite rmatch_seq. apply IHa; [exact Oa|].
    intros st'. apply IHb; [exact Ob | exact K].
  - destruct lo as [|lo]; [|discriminate O].
    rewrite (rmatch_rep no_flags r). cbn [rep_min rep_opt].
    destruct (more (hi_left 0 hi)); [|apply K].
    rewrite found_or, K. apply orb_true_r.
Qed.

(** An optional literal character, then the rest. *)
Lemma optional_char (c : ascii) (b : re) (st : mstate)
  (k : mstate -> option mstate) :
  found (rmatch no_flags (RSeq (RRep (RChar c) 0 (Some 1)) b) st k)
  = match rest st with
    | x :: s =>
        Ascii.eqb c x
        && found (rmatch no_flags b (MState (Some x) s (caps st)) k)
    | [] => false
    end
    || found (rmatch no_flags b st k).
Proof.
  rewrite rmatch_seq, (rmatch_rep no_flags (RChar c)).
  cbn [rep_min rep_opt hi_left Nat.sub more].
  rewrite found_or. f_equal.
  cbn [rmatch]. unfold step_if, char_match. cbn [ignorecase no_flags].
  destruct (rest st) as [|x s] eqn:R; [reflexivity|].
  destruct (Ascii.eqb c x); [|reflexivity].
  unfold advance. cbn [rest length].
  replace (length s <? S (length s)) with true
    by (symmetry; apply Nat.ltb_lt; lia).
  reflexivity.
Qed.

Lemma existsb_cons_prefix (c x : ascii) (s : str) (L : list str) :
  existsb (startswith (x :: s)) (map (cons c) L)
  = Ascii.eqb c x && existsb (startswith s) L.
Proof.
  induction L as [|l L IH]; [rewrite andb_false_r; reflexivity|].
  change (existsb (startswith (x :: s)) (map (cons c) (l :: L)))
    with (startswith (x :: s) (c :: l)
          || existsb (startswith (x :: s)) (map (cons c) L)).
  rewrite IH.
  change (startswith (x :: s) (c :: l))
    with (Ascii.eqb c x && startswith s l).
  change (existsb (startswith s) (l :: L))
    with (startswith s l || existsb (startswith s) L).
  destruct (Ascii.eqb c x); reflexivity.
Qed.

Lemma existsb_nil_prefix (c : ascii) (L : list str) :
  existsb (startswith []) (map (cons c) L) = false.
Proof.
  induction L as [|l L IH]; [reflexivity | exact IH].
Qed.

Lemma literal_char (c : ascii) (st : mstate) (k : mstate -> option mstate) :
  found (rmatch no_flags (RChar c) st k)
  = match rest st with
    | x :: s => Ascii.eqb c x && found (k (MState (Some x) s (caps st)))
    | [] => false
    end.
Proof.
  cbn [rmatch]. unfold step_if, char_match. cbn [ignorecase no_flags].
  destruct (rest st) as [|x s]; [reflexivity|].
  destruct (Ascii.eqb c x); reflexivity.
Qed.

(** A pattern with openings matches exactly the texts that start with
    one of them. *)
Lemma openings_found (r : re) :
  forall L, openings r = Some L ->
  forall st k, (forall st', found (k st') = true) ->
               found (rmatch no_flags r st k)
               = existsb (startswith (rest st)) L.
Proof.
  assert (Opt : forall r0 L, (if optional r0 then Some [[]] else None)
                             = Some L ->
                forall st k, (forall st', found (k st') = true) ->
                found (rmatch no_flags r0 st k)
                = existsb (startswith (rest st)) L).
  { intros r0 L E st k K. destruct (optional r0) eqn:O; [|discriminate E].
    inversion E; subst. rewrite (optional_found _ O _ _ K).
    simpl. destruct (rest st); reflexivity. }
  induction r as [ | ch | | neg items | a IHa b IHb | a IHa b IHb
                 | r IH lo hi | n r IH | n | | | | r IH ];
    intros L E st k K;
    try (match goal with
         | |- found (rmatch no_flags ?r0 _ _) = _ =>
             exact (Opt r0 _ E _ _ K)
         end).
  - simpl in E. inversion E; subst. rewrite literal_char.
    destruct (rest st) as [|x s]; [reflexivity|]. rewrite K.
    cbn [existsb startswith]. rewrite orb_false_r.
    destruct s; reflexivity.
  - destruct a as [ | c | | | | | a' lo hi | | | | | | ];
      try (match goal with
           | |- found (rmatch no_flags ?r0 _ _) = _ =>
               exact (Opt r0 _ E _ _ K)
           end).
    + simpl in E. destruct (openings b) as [Lb|]; [|discriminate E].
      inversion E; subst.
      rewrite rmatch_seq, literal_char.
      destruct (rest st) as [|x s]; [rewrite existsb_nil_prefix; reflexivity|].
      rewrite existsb_cons_prefix. f_equal.
      exact (IHb _ eq_refl (MState (Some x) s (caps st)) _ K).
    + destruct a' as [ | c | | | | | | | | | | | ];
        try (match goal with
             | |- found (rmatch no_flags ?r0 _ _) = _ =>
                 exact (Opt r0 _ E _ _ K)
             end).
      destruct lo as [|lo];
        [|match goal with
          | |- found (rmatch no_flags ?r0 _ _) = _ =>
              exact (Opt r0 _ E _ _ K)
          end].
      destruct hi as [[|[|hi]]|];
        try (match goal with
             | |- found (rmatch no_flags ?r0 _ _) = _ =>
                 exact (Opt r0 _ E _ _ K)
             end).
      cbn [openings] in E.
      destruct (optional b) eqn:Ob.
      * apply (Opt (RSeq (RRep (RChar c) 0 (Some 1)) b)); [|exact K].
        cbn [optional]. rewrite Ob. exact E.
      * destruct (openings b) as [Lb|]; [|discriminate E].
        inversion E; subst. rewrite optional_char, existsb_app.
        rewrite (IHb _ eq_refl _ _ K). f_equal.
        destruct (rest st) as [|x s];
          [rewrite existsb_nil_prefix; reflexivity|].
        rewrite existsb_cons_prefix.
        rewrite (IHb _ eq_refl (MState (Some x) s (caps st)) _ K).
        reflexivity.
Qed.

(** The literal characters at the head of a pattern start every match. *)
Lemma opening_found (r : re) :
  forall st k, found (rmatch no_flags r st k) = true ->
               startswith (rest st) (opening r) = true.
Proof.
  induction r as [ | ch | | neg items | a IHa b IHb | a IHa b IHb
                 | r IH lo hi | n r IH | n | | | | r IH ];
    intros st k F; try (destruct (rest st); reflexivity).
  - rewrite literal_char in F. cbn [opening].
    destruct (rest st) as [|x s]; [discriminate F|].
    apply andb_prop in F. destruct F as [F _]. cbn [startswith].
    rewrite F. destruct s; reflexivity.
  - destruct a; try (destruct (rest st); reflexivity).
    rewrite rmatch_seq, literal_char in F. cbn [opening].
    destruct (rest st) as [|x s]; [discriminate F|].
    apply andb_prop in F. destruct F as [F G]. cbn [startswith].
    rewrite F. apply (IHb (MState (Some x) s (caps st)) k G).
Qed.

Lemma re_match_is_found (fl : flags) (r : re) (s : str) :
  re_match fl r s = found (rmatch fl r (MState None s []) (fun st => Some st)).
Proof. reflexivity. Qed.

(** A pattern [^r] whose body has openings. *)
Lemma anchored_openings (r : re) (L : list str) (s : str) :
  openings r = Some L ->
  re_match no_flags (RSeq RBol r) s = existsb (startswith s) L.
Proof.
  intros E. rewrite re_match_is_found, rmatch_seq, rmatch_bol.
  apply (openings_found _ E). intros st'. reflexivity.
Qed.

Lemma anchored_opening (r : re) (s : str) :
  re_match no_flags (RSeq RBol r) s = true ->
  startswith s (opening r) = true.
Proof.
  rewrite re_match_is_found, rmatch_seq, rmatch_bol.
  apply opening_found.
Qed.

Lemma startswith_shorter (s x y : str) :
  startswith s (x ++ y) = true -> startswith s x = true.
Proof.
  rewrite startswith_app. intros H. apply andb_prop in H. tauto.
Qed.

Lemma pre_scene_patterns_read :
  exists voice,
    pre_scene_patterns
    = map (fun r => RSeq RBol r)
        [ rx "OVER BLACK.*"; rx "FADE IN:?.*"; rx "BLACK SCREEN.*";
          rx "TITLE CARD:?.*"; rx "SUPER:?.*"; rx "SUPER TITLE:?.*";
          rx "PRELAP:?.*"; rx "PRE-LAP:?.*"; rx "INSERT.*"; rx "TEASER.*";
          rx "COLD OPEN.*"; rx "OPENING TITLE.*"; rx "MAIN TITLE.*";
          rx "END TITLE.*"; rx "CREDITS.*"; voice; rx "V\.?O\.?.*" ]
    /\ opening voice = "VOICE".
Proof. eexists. split; vm_compute; reflexivity. Qed.

(** X6. A text is a pre-scene element exactly when its upper case starts
    with one of sixteen openers: what the patterns have after the opener
    is optional, the pattern of [SUPER TITLE] is covered by [SUPER], and
    that of [VOICE OVER] by [VO]. *)
Theorem pre_scene_is_a_prefix_test (text : str) :
  _is_pre_scene_element text = any_prefix (upper text) pre_scene_openers.
Proof.
  unfold _is_pre_scene_element, any_prefix, pre_scene_openers.
  destruct pre_scene_patterns_read as (voice & -> & V).
  set (u := upper text). cbn [map existsb].
  assert (Voice : re_match no_flags (RSeq RBol voice) u = true ->
                  startswith u "VO" = true).
  { intros M. apply anchored_opening in M. rewrite V in M.
    apply (startswith_shorter u "VO" "ICE"). exact M. }
  assert (Super : startswith u "SUPER TITLE" = true ->
                  startswith u "SUPER" = true)
    by apply (startswith_shorter u "SUPER" " TITLE").
  rewrite (@anchored_openings _ (strs ["OVER BLACK"]) u)
    by (vm_compute; reflexivity).
  rewrite (@anchored_openings _ (strs ["FADE IN"]) u)
    by (vm_compute; reflexivity).
  rewrite (@anchored_openings _ (strs ["BLACK SCREEN"]) u)
    by (vm_compute; reflexivity).
  rewrite (@anchored_openings _ (strs ["TITLE CARD"]) u)
    by (vm_compute; reflexivity).
  rewrite (@anchored_openings _ (strs ["SUPER"]) u)
    by (vm_compute; reflexivity).
  rewrite (@anchored_openings _ (strs ["SUPER TITLE"]) u)
    by (vm_compute; reflexivity).
  rewrite (@anchored_openings _ (strs ["PRELAP"]) u)
    by (vm_compute; reflexivity).
  rewrite (@anchored_openings _ (strs ["PRE-LAP"]) u)
    by (vm_compute; reflexivity).
  rewrite (@anchored_openings _ (strs ["INSERT"]) u)
    by (vm_compute; reflexivity).
  rewrite (@anchored_openings _ (strs ["TEASER"]) u)
    by (vm_compute; reflexivity).
  rewrite (@anchored_openings _ (strs ["COLD OPEN"]) u)
    by (vm_compute; reflexivity).
  rewrite (@anchored_openings _ (strs ["OPENING TITLE"]) u)
    by (vm_compute; reflexivity).
  rewrite (@anchored_openings _ (strs ["MAIN TITLE"]) u)
    by (vm_compute; reflexivity).
  rewrite (@anchored_openings _ (strs ["END TITLE"]) u)
    by (vm_compute; reflexivity).
  rewrite (@anchored_openings _ (strs ["CREDITS"]) u)
    by (vm_compute; reflexivity).
  rewrite (@anchored_openings (rx "V\.?O\.?.*") (strs ["V.O"; "VO"]) u)
    by (vm_compute; reflexivity).
  unfold strs. cbn [map existsb]. rewrite !orb_false_r.
  destruct (startswith u "SUPER TITLE");
    [rewrite (Super eq_refl), ?orb_true_r; reflexivity|].
  destruct (re_match no_flags (RSeq RBol voice) u);
    [rewrite (Voice eq_refl), ?orb_true_r; reflexivity|].
  rewrite ?orb_false_r, ?orb_false_l. reflexivity.
Qed.

(** ** Lines that start with the word Page *)

Lemma letter_match (c x : ascii) :
  lower_c x = lower_c c -> char_match IGNORECASE c x = true.
Proof.
  intros E. unfold char_match. cbn [ignorecase IGNORECASE].
  rewrite E. apply Ascii.eqb_refl.
Qed.

Lemma page_word_matches (word ws ds tail : str) :
  lower word = "page" -> ws <> [] -> blanks ws -> digits ds ->
  re_match IGNORECASE (rx "^Page\s+\d+") (word ++ ws ++ ds ++ tail) = true.
Proof.
  intros Wd NW W [N D].
  destruct word as [|a [|b [|c [|d [|e word]]]]]; try discriminate Wd.
  unfold lower in Wd. cbn [map] in Wd.
  injection Wd as Ea Eb Ec Ed.
  rewrite page_pattern_page. apply re_match_found.
  rewrite rmatch_seq, rmatch_bol.
  change ([a; b; c; d] ++ ws ++ ds ++ tail)
    with (a :: b :: c :: d :: ws ++ ds ++ tail).
  rewrite ?rmatch_seq. rewrite rmatch_char by (apply letter_match; exact Ea).
  cbv beta.
  rewrite ?rmatch_seq. rewrite rmatch_char by (apply letter_match; exact Eb).
  cbv beta.
  rewrite ?rmatch_seq. rewrite rmatch_char by (apply letter_match; exact Ec).
  cbv beta.
  rewrite ?rmatch_seq. rewrite rmatch_char by (apply letter_match; exact Ed).
  cbv beta.
  read_run (space_set IGNORECASE _ W);
    [apply nonempty_length; exact NW | no_bound |].
  apply (rmatch_rep_run (one_char_set _ false _));
    [exact (digit_set IGNORECASE _ D)
    | apply digits_length; split; assumption | no_bound | discriminate].
Qed.

(** X7. A line that starts with the word Page in any case, blanks and a
    digit is a page number whatever follows the number: the pattern has
    no end anchor.  The loop of the parser drops the line. *)
Theorem page_word_line_is_dropped (raw_line word ws ds tail : str)
  (cs : CState) (i : nat) (page_lines : list str) :
  strip raw_line = word ++ ws ++ ds ++ tail ->
  lower word = "page" -> ws <> [] -> blanks ws -> digits ds ->
  _is_page_number raw_line = true
  /\ classify_raw cs i raw_line page_lines = Some None.
Proof.
  intros E Wd NW W D.
  assert (T : truthy (strip raw_line) = true).
  { rewrite E. destruct word; [discriminate Wd | reflexivity]. }
  assert (P : _is_page_number raw_line = true).
  { unfold _is_page_number; cbv zeta. rewrite T. simpl negb. cbv iota.
    apply existsb_exists. exists (rx "^Page\s+\d+").
    split; [exact (or_intror (or_intror (or_introl eq_refl)))|].
    rewrite E. apply page_word_matches; assumption. }
  split; [exact P|].
  unfold classify_raw. rewrite T, P. reflexivity.
Qed.

Lemma page_word_line_is_dropped_witness :
  _is_page_number page_line = true
  /\ classify_raw init 0 page_line [] = Some None.
Proof.
  apply (@page_word_line_is_dropped page_line "Page" " " "3"
           " of the contract is missing." init 0 []).
  - vm_compute. reflexivity.
  - vm_compute. reflexivity.
  - discriminate.
  - reflexivity.
  - split; [discriminate | reflexivity].
Defined.

(** ** Words *)

Lemma words_from_solid (s : str) :
  forall word,
    forallb (fun c => negb (is_space_c c)) word = true ->
    Forall (fun w => solid w = true) (words_from s word).
Proof.
  induction s as [|c s IH]; intros word N; simpl.
  - destruct word as [|x word]; [constructor|].
    constructor; [|constructor]. unfold solid. rewrite N. reflexivity.
  - destruct (is_space_c c) eqn:S.
    + destruct word as [|x word]; simpl truthy; cbv iota.
      * apply IH. reflexivity.
      * constructor; [unfold solid; rewrite N; reflexivity|].
        apply IH. reflexivity.
    + apply IH. rewrite forallb_app, N. simpl. rewrite S. reflexivity.
Qed.

Lemma split_solid (s : str) : Forall (fun w => solid w = true) (split s).
Proof. apply words_from_solid. reflexivity. Qed.

Lemma solid_inv (w : str) :
  solid w = true ->
  exists c t, w = c :: t /\ is_space_c c = false
              /\ forallb (fun c => negb (is_space_c c)) t = true.
Proof.
  unfold solid. destruct w as [|c t]; [discriminate|]. simpl.
  intros H. apply andb_prop in H. destruct H as [H1 H2].
  apply negb_true_iff in H1. eauto.
Qed.

Lemma words_from_word (w rest0 : str) :
  forallb (fun c => negb (is_space_c c)) w = true ->
  forall word, words_from (w ++ rest0) word = words_from rest0 (word ++ w).
Proof.
  induction w as [|c w IH]; intros N word; simpl.
  - rewrite app_nil_r. reflexivity.
  - simpl in N. apply andb_prop in N. destruct N as [Nc N].
    apply negb_true_iff in Nc. rewrite Nc, IH by exact N.
    rewrite <- app_assoc. reflexivity.
Qed.

Lemma join_cons (sep x : str) (y : str) (l : list str) :
  join sep (x :: y :: l) = x ++ sep ++ join sep (y :: l).
Proof. reflexivity. Qed.

(** Round trip: the words of words joined by one blank. *)
Lemma split_join (ws : list str) :
  Forall (fun w => solid w = true) ws -> split (join " " ws) = ws.
Proof.
  unfold split. induction ws as [|w ws IH]; intros F; [reflexivity|].
  inversion F as [|w0 ws0 Sw Fs]; subst.
  destruct (solid_inv _ Sw) as (c & t & -> & Nc & Nt).
  assert (N : forallb (fun c => negb (is_space_c c)) (c :: t) = true)
    by (simpl; rewrite Nc, Nt; reflexivity).
  destruct ws as [|y ws].
  - simpl join. rewrite <- (app_nil_r (c :: t)) at 1.
    rewrite words_from_word by exact N. reflexivity.
  - rewrite join_cons, words_from_word by exact N.
    change (words_from (" " ++ join " " (y :: ws)) ([] ++ c :: t))
      with ((c :: t) :: words_from (join " " (y :: ws)) []).
    rewrite (IH Fs). reflexivity.
Qed.

Lemma lstrip_edge (s : str) : edge s = true -> lstrip s = s.
Proof.
  destruct s as [|c s]; [reflexivity|]. simpl. intros H.
  apply negb_true_iff in H. rewrite H. reflexivity.
Qed.

Lemma strip_edges (s : str) :
  edge s = true -> edge (rev s) = true -> strip s = s.
Proof.
  intros A B. unfold strip, rstrip. rewrite (lstrip_edge _ A).
  rewrite (lstrip_edge _ B). apply rev_involutive.
Qed.

Lemma edge_app (a b : str) : a <> [] -> edge (a ++ b) = edge a.
Proof. destruct a; [contradiction | reflexivity]. Qed.

Lemma truthy_nonempty (s : str) : s <> [] -> truthy s = true.
Proof. destruct s; [contradiction | reflexivity]. Qed.

Lemma join_truthy (ws : list str) :
  Forall (fun w => solid w = true) ws -> ws <> [] -> join " " ws <> [].
Proof.
  intros F N. destruct ws as [|w ws]; [contradiction|].
  inversion F as [|w0 ws0 Sw Fs]; subst.
  destruct (solid_inv _ Sw) as (c & t & -> & _).
  destruct ws; discriminate.
Qed.

Lemma join_edge (ws : list str) :
  Forall (fun w => solid w = true) ws -> edge (join " " ws) = true.
Proof.
  intros F. destruct ws as [|w ws]; [reflexivity|].
  inversion F as [|w0 ws0 Sw Fs]; subst.
  destruct (solid_inv _ Sw) as (c & t & -> & Nc & _).
  destruct ws; simpl; rewrite Nc; reflexivity.
Qed.

Lemma solid_rev_edge (w : str) : solid w = true -> edge (rev w) = true.
Proof.
  intros S. destruct (solid_inv _ S) as (c & t & -> & Nc & Nt).
  assert (N : forallb (fun c => negb (is_space_c c)) (rev (c :: t)) = true).
  { rewrite forallb_rev. simpl. rewrite Nc, Nt. reflexivity. }
  destruct (rev (c :: t)) as [|x r]; [reflexivity|].
  simpl in N |- *. apply andb_prop in N. tauto.
Qed.

Lemma join_rev_edge (ws : list str) :
  Forall (fun w => solid w = true) ws -> edge (rev (join " " ws)) = true.
Proof.
  induction ws as [|w ws IH]; intros F; [reflexivity|].
  inversion F as [|w0 ws0 Sw Fs]; subst.
  destruct ws as [|y ws]; [apply solid_rev_edge; exact Sw|].
  rewrite join_cons, !rev_app_distr, <- app_assoc.
  rewrite edge_app; [apply IH; exact Fs|].
  intros E. apply (f_equal (@rev ascii)) in E.
  rewrite rev_involutive in E.
  apply (join_truthy Fs); [discriminate | exact E].
Qed.

Lemma strip_join (ws : list str) :
  Forall (fun w => solid w = true) ws -> strip (join " " ws) = join " " ws.
Proof.
  intros F. apply strip_edges; [apply join_edge | apply join_rev_edge];
    exact F.
Qed.

Lemma join_app (sep : str) (a b : list str) :
  a <> [] -> b <> [] -> join sep (a ++ b) = join sep a ++ sep ++ join sep b.
Proof.
  intros Na Nb. induction a as [|x a IH]; [contradiction|].
  destruct a as [|x2 a].
  - destruct b as [|y b]; [contradiction | reflexivity].
  - change ((x :: x2 :: a) ++ b) with (x :: x2 :: (a ++ b)).
    rewrite !join_cons.
    change (x2 :: (a ++ b)) with ((x2 :: a) ++ b).
    rewrite IH by discriminate.
    rewrite <- !app_assoc. reflexivity.
Qed.

Lemma join_snoc (sep : str) (g : list str) (x : str) :
  g <> [] -> join sep (g ++ [x]) = join sep g ++ sep ++ x.
Proof. intros N. apply join_app; [exact N | discriminate]. Qed.

(** Joining the joined groups is joining all the words. *)
Lemma join_groups (sep : str) (groups : list (list str)) :
  Forall (fun g => g <> []) groups ->
  join sep (map (join sep) groups) = join sep (concat groups).
Proof.
  induction groups as [|g groups IH]; intros F; [reflexivity|].
  inversion F as [|g0 gs0 Ng Fs]; subst.
  destruct groups as [|h groups].
  - simpl. rewrite app_nil_r. reflexivity.
  - change (map (join sep) (g :: h :: groups))
      with (join sep g :: join sep h :: map (join sep) groups).
    rewrite join_cons.
    change (join sep h :: map (join sep) groups)
      with (map (join sep) (h :: groups)).
    rewrite (IH Fs).
    change (concat (g :: h :: groups)) with (g ++ concat (h :: groups)).
    rewrite join_app; [reflexivity | exact Ng |].
    inversion Fs as [|h0 hs0 Nh _]; subst.
    destruct h; [contradiction | discriminate].
Qed.

(** ** Wrapping by words *)

Section Wrapping.

Variable max_width : nat.

Lemma wrap_step_keeps (st : list str * str) (done : list str) (word : str) :
  Forall (fun w => solid w = true) (done ++ [word]) ->
  wrapped_so_far max_width st done ->
  wrapped_so_far max_width (wrap_step max_width st word) (done ++ [word]).
Proof.
  intros F (groups & g & L & C & D & N & Fg & Fc).
  destruct st as [wrapped current_line]. simpl in L, C. subst wrapped.
  assert (Sg : Forall (fun w => solid w = true) (g ++ [word])).
  { rewrite <- D, <- app_assoc in F. apply Forall_app in F. tauto. }
  assert (T : strip (current_line ++ " " ++ word) = join " " (g ++ [word])).
  { subst current_line. destruct g as [|a g].
    - simpl app. simpl join. change (" " ++ word) with (sp :: word).
      unfold strip. simpl lstrip.
      change (rstrip (lstrip word) = word). fold (strip word).
      change word with (join " " [word]) at 1 2.
      apply strip_join. exact Sg.
    - rewrite <- join_snoc by discriminate. apply strip_join. exact Sg. }
  unfold wrap_step. rewrite T.
  destruct (length (join " " (g ++ [word])) <=? max_width) eqn:W.
  - apply Nat.leb_le in W. exists groups, (g ++ [word]).
    repeat split; try assumption; try reflexivity.
    + rewrite app_assoc, D. reflexivity.
    + left. exact W.
  - destruct g as [|a g].
    + subst current_line. simpl truthy. cbv iota.
      exists groups, [word]. repeat split; try assumption; try reflexivity.
      * rewrite app_nil_r in D. rewrite D. reflexivity.
      * right. simpl. lia.
    + assert (Tc : truthy current_line = true).
      { subst current_line. apply truthy_nonempty.
        apply join_truthy; [|discriminate].
        apply Forall_app in Sg. tauto. }
      rewrite Tc. exists (groups ++ [a :: g]), [word].
      repeat split; try reflexivity.
      * simpl fst. rewrite map_app, C. reflexivity.
      * rewrite concat_app. simpl concat. rewrite app_nil_r, D.
        reflexivity.
      * apply Forall_app. split; [exact N|].
        constructor; [discriminate | constructor].
      * apply Forall_app. split; [exact Fg|].
        constructor; [exact Fc | constructor].
      * right. simpl. lia.
Qed.

Lemma wrap_loop_keeps (ws : list str) :
  forall st done,
    Forall (fun w => solid w = true) (done ++ ws) ->
    wrapped_so_far max_width st done ->
    wrapped_so_far max_width (fold_left (wrap_step max_width) ws st) (done ++ ws).
Proof.
  induction ws as [|w ws IH]; intros st done F H; simpl.
  - rewrite app_nil_r. exact H.
  - replace (done ++ w :: ws) with ((done ++ [w]) ++ ws) in F |- *
      by (rewrite <- app_assoc; reflexivity).
    apply IH; [exact F|]. apply wrap_step_keeps; [|exact H].
    apply Forall_app in F. tauto.
Qed.

(** The lines of a text longer than the width are groups of its
    words. *)
Lemma wrap_groups (text : str) :
  max_width < length text ->
  exists groups,
    _wrap_dialogue_text text max_width = map (join " ") groups
    /\ concat groups = split text
    /\ Forall (fun g => g <> []) groups
    /\ Forall (fits max_width) groups.
Proof.
  intros L. unfold _wrap_dialogue_text.
  replace (length text <=? max_width) with false
    by (symmetry; apply Nat.leb_gt; exact L).
  destruct (@wrap_loop_keeps (split text) ([], []) [])
    as (groups & g & Lw & C & D & N & Fg & Fc).
  { apply split_solid. }
  { exists [], []. split; [reflexivity|]. split; [reflexivity|].
    split; [reflexivity|]. split; [constructor|]. split; [constructor|].
    right. simpl. lia. }
  simpl app in D.
  destruct (fold_left (wrap_step max_width) (split text) ([], []))
    as [wrapped current_line].
  simpl in Lw, C. subst wrapped current_line.
  destruct g as [|a g].
  - simpl truthy. cbv iota. exists groups.
    rewrite app_nil_r in D. repeat split; assumption.
  - assert (Sg : Forall (fun w => solid w = true) (a :: g)).
    { assert (F := split_solid text). rewrite <- D in F.
      apply Forall_app in F. tauto. }
    rewrite truthy_nonempty
      by (apply join_truthy; [exact Sg | discriminate]).
    exists (groups ++ [a :: g]). repeat split.
    + rewrite map_app. reflexivity.
    + rewrite concat_app. simpl concat. rewrite app_nil_r. exact D.
    + apply Forall_app. split; [exact N|].
      constructor; [discriminate | constructor].
    + apply Forall_app. split; [exact Fg|].
      constructor; [exact Fc | constructor].
Qed.

End Wrapping.

(** X12. Wrapping keeps the words and their order: the lines of a text
    longer than the width, joined by one blank, are the words of the text
    joined by one blank.  Nothing is lost and nothing is added but the
    white space between the words, which becomes one blank or a break. *)
Theorem wrap_keeps_the_words (text : str) (max_width : nat) :
  max_width < length text ->
  join " " (_wrap_dialogue_text text max_width) = join " " (split text).
Proof.
  intros L. destruct (@wrap_groups max_width text L)
    as (groups & -> & C & N & _).
  rewrite join_groups by exact N. rewrite C. reflexivity.
Qed.

Lemma wrap_keeps_the_words_witness :
  join " " (_wrap_dialogue_text "There is  nothing left in the fridge." 12)
  = join " " (split "There is  nothing left in the fridge.").
Proof.
  apply wrap_keeps_the_words. vm_compute. lia.
Defined.

(** X13. Every line of the wrapped text is within the width, unless it
    is one single word of the text that is longer than the width: a word
    is never broken. *)
Theorem wrapped_lines_fit (text : str) (max_width : nat) (line : str) :
  In line (_wrap_dialogue_text text max_width) ->
  length line <= max_width \/ In line (split text).
Proof.
  intros I. destruct (Nat.leb_spec (length text) max_width) as [S | L].
  - unfold _wrap_dialogue_text in I.
    replace (length text <=? max_width) with true in I
      by (symmetry; apply Nat.leb_le; exact S).
    destruct I as [<- | []]. left. exact S.
  - destruct (@wrap_groups max_width text L) as (groups & E & C & N & F).
    rewrite E in I. apply in_map_iff in I. destruct I as (g & <- & Ig).
    rewrite Forall_forall in N, F.
    destruct (F g Ig) as [W | One]; [left; exact W|].
    right. rewrite <- C. apply in_concat. exists g. split; [exact Ig|].
    destruct g as [|a [|b g]]; [exact (False_ind _ (N [] Ig eq_refl))
                               | left; reflexivity | simpl in One; lia].
Qed.

Lemma wrapped_lines_fit_witness :
  length ("extraordinarily" : str) <= 5
  \/ In ("extraordinarily" : str) (split "An extraordinarily long word").
Proof.
  apply (@wrapped_lines_fit "An extraordinarily long word" 5).
  vm_compute. right. left. reflexivity.
Defined.

(** ** The artifact cleaner of the pattern library *)

(** Deleting the matches of a pattern that reads one character is
    filtering the text. *)
Lemma sub_delete_chars (fl : flags) (r : re) (test : ascii -> bool) :
  one_char fl r test ->
  forall s p,
    sub_from fl r (const_repl []) p s 0 = filter (fun c => negb (test c)) s.
Proof.
  intros O. induction s as [|c s IH]; intros p.
  - simpl. unfold match_here. rewrite O. reflexivity.
  - change (sub_from fl r (const_repl []) p (c :: s) 0)
      with (match match_here fl r p (c :: s) with
            | Some m =>
                match length (c :: s) - length (rest m) with
                | 0 => c :: sub_from fl r (const_repl []) (Some c) s 0
                | S n => sub_from fl r (const_repl []) (Some c) s n
                end
            | None => c :: sub_from fl r (const_repl []) (Some c) s 0
            end).
    unfold match_here. rewrite O. unfold step_if. cbn [rest filter].
    destruct (test c); cbn [negb].
    + unfold advance. cbn [rest length].
      replace (S (length s) - length s) with 1 by lia.
      apply IH.
    + f_equal. apply IH.
Qed.

Lemma control_set (c : ascii) :
  set_match IGNORECASE false
    [ CRange (ascii_of_nat 0) (ascii_of_nat 31);
      CRange (ascii_of_nat 127) (ascii_of_nat 159) ] c = false ->
  is_control_c c = false.
Proof.
  unfold set_match, in_items. cbn [ignorecase IGNORECASE existsb item_match].
  intros H. apply orb_false_elim in H. destruct H as [H _].
  apply orb_false_elim in H. destruct H as [H _].
  rewrite orb_false_r in H. exact H.
Qed.

Lemma words_from_chars (P : ascii -> bool) (s : str) :
  forall word,
    forallb P s = true -> forallb P word = true ->
    Forall (fun w => forallb P w = true) (words_from s word).
Proof.
  induction s as [|c s IH]; intros word Hs Hw; simpl.
  - destruct (truthy word); constructor; [exact Hw | constructor].
  - simpl in Hs. apply andb_prop in Hs. destruct Hs as [Hc Hs].
    destruct (is_space_c c).
    + destruct (truthy word); [constructor; [exact Hw|]|];
        apply IH; try assumption; reflexivity.
    + apply IH; [exact Hs|]. rewrite forallb_app, Hw. simpl.
      rewrite Hc. reflexivity.
Qed.

Lemma join_chars (P : ascii -> bool) (ws : list str) :
  P sp = true ->
  Forall (fun w => forallb P w = true) ws ->
  forallb P (join " " ws) = true.
Proof.
  intros S. induction ws as [|w ws IH]; intros F; [reflexivity|].
  inversion F as [|w0 ws0 Hw Fs]; subst.
  destruct ws as [|y ws]; [exact Hw|].
  rewrite join_cons, forallb_app, Hw.
  change (" " ++ join " " (y :: ws)) with (sp :: join " " (y :: ws)).
  simpl forallb. rewrite S. apply IH. exact Fs.
Qed.

(** X15. The result of [clean_pdf_artifacts] is normal: its words are
    separated by one blank, with nothing before or after (splitting it
    into words and joining them gives it back, and stripping it changes
    nothing), and it holds no control character, the empty text
    included. *)
Theorem cleaned_line_is_normal (text : str) :
  let out := clean_pdf_artifacts text in
  join " " (split out) = out
  /\ strip out = out
  /\ forallb (fun c => negb (is_control_c c)) out = true.
Proof.
  cbv zeta. unfold clean_pdf_artifacts.
  destruct text as [|c0 text];
    [split; [reflexivity | split; reflexivity]|].
  simpl negb. cbv iota zeta.
  unfold pdf_artifacts. cbn [fold_left].
  set (t5 := re_sub IGNORECASE (rx "^\d+$") (const_repl []) _).
  set (ctl := RSet false _).
  assert (F := split_solid (re_sub IGNORECASE ctl (const_repl []) t5)).
  rewrite (strip_join F). split; [|split].
  - rewrite (split_join F). reflexivity.
  - apply strip_join. exact F.
  - apply join_chars; [reflexivity|].
    apply words_from_chars; [|reflexivity].
    unfold re_sub, ctl.
    rewrite (sub_delete_chars (one_char_set IGNORECASE false _)).
    apply forallb_forall. intros x I. apply filter_In in I.
    destruct I as [_ I]. apply negb_true_iff in I.
    apply negb_true_iff. apply control_set. exact I.
Qed.

(** ** Dialogue blocks *)

Lemma flush_groups (groups : list (list str)) (current : list str) :
  flush (map (join [nl]) groups) current
  = map (join [nl]) (groups ++ in_progress current).
Proof.
  destruct current as [|a current]; simpl.
  - rewrite app_nil_r. reflexivity.
  - rewrite map_app. reflexivity.
Qed.

Lemma detect_line_keeps (ds : DState) (done : list str) (line : str) :
  detected ds done -> detected (detect_line ds line) (done ++ [line]).
Proof.
  intros (groups & B & C & I & H). unfold detect_line, detected.
  rewrite filter_app. simpl filter.
  destruct (Patterns.is_character_name line) eqn:N.
  - exists (groups ++ in_progress (current_dialogue ds)).
    cbn [dialogue_blocks current_dialogue in_dialogue].
    change (in_progress [line]) with [[line]].
    rewrite B, flush_groups. split; [reflexivity|]. split; [|split].
    + apply Forall_app. split; [exact C|].
      constructor; [|constructor]. split; [exact N | constructor].
    + intros _. discriminate.
    + rewrite map_app. f_equal. exact H.
  - destruct (in_dialogue ds && negb (Patterns.is_scene_heading line)) eqn:G.
    + apply andb_prop in G. destruct G as [G1 G2].
      apply negb_true_iff in G2. specialize (I G1).
      exists groups.
      cbn [dialogue_blocks current_dialogue in_dialogue].
      split; [exact B|].
      destruct (current_dialogue ds) as [|cue others]; [contradiction|].
      change (in_progress (cue :: others)) with [cue :: others] in C, H.
      change (in_progress ((cue :: others) ++ [line]))
        with [cue :: (others ++ [line])].
      split; [|split].
      * destruct (proj1 (Forall_app _ _ _) C) as [C1 C2].
        apply Forall_app. split; [exact C1|].
        inversion C2 as [|g0 l0 Hl _]; subst.
        destruct Hl as [Hc Ho].
        constructor; [|constructor]. split; [exact Hc|].
        apply Forall_app. split; [exact Ho|].
        constructor; [split; assumption | constructor].
      * intros _. discriminate.
      * rewrite app_nil_r. rewrite map_app in H |- *. exact H.
    + exists (groups ++ in_progress (current_dialogue ds)).
      cbn [dialogue_blocks current_dialogue in_dialogue].
      change (in_progress []) with (@nil (list str)).
      rewrite B, flush_groups, !app_nil_r.
      split; [reflexivity|]. split; [exact C|]. split; [|exact H].
      intros X. discriminate X.
Qed.

Lemma detect_lines_keep (ls : list str) :
  forall ds done,
    detected ds done ->
    detected (fold_left detect_line ls ds) (done ++ ls).
Proof.
  induction ls as [|l ls IH]; intros ds done H; simpl.
  - rewrite app_nil_r. exact H.
  - replace (done ++ l :: ls) with ((done ++ [l]) ++ ls)
      by (rewrite <- app_assoc; reflexivity).
    apply IH. apply detect_line_keeps. exact H.
Qed.

Lemma detect_page_keeps (blocks : list str) (done : list str) (page : Page) :
  detected (mkDState blocks [] false) done ->
  detected (mkDState (detect_page blocks page) [] false)
    (done ++ lines page).
Proof.
  intros H. apply (detect_lines_keep (lines page)) in H.
  destruct H as (groups & B & C & I & H). unfold detect_page. cbv zeta.
  set (ds := fold_left detect_line (lines page) (mkDState blocks [] false))
    in *.
  exists (groups ++ in_progress (current_dialogue ds)).
  cbn [dialogue_blocks current_dialogue in_dialogue].
  change (in_progress []) with (@nil (list str)).
  rewrite B, flush_groups, !app_nil_r.
  split; [reflexivity|]. split; [exact C|]. split; [|exact H].
  intros X. discriminate X.
Qed.

Lemma detect_pages_keep (pages : list Page) :
  forall blocks done,
    detected (mkDState blocks [] false) done ->
    detected (mkDState (fold_left detect_page pages blocks) [] false)
      (done ++ concat (map lines pages)).
Proof.
  induction pages as [|page pages IH]; intros blocks done H; simpl.
  - rewrite app_nil_r. exact H.
  - rewrite app_assoc. apply IH. apply detect_page_keeps. exact H.
Qed.

(** X14. The dialogue blocks are led by the cues, one block for each
    line that is a character name, in their order: a block is a cue line
    followed by lines that are neither character names nor scene
    headings, joined by line feeds. *)
Theorem dialogue_blocks_follow_cues (pages : list Page) :
  exists groups,
    _detect_dialogue pages = map (join [nl]) groups
    /\ Forall cue_led groups
    /\ map (hd []) groups
       = filter Patterns.is_character_name (concat (map lines pages))
    /\ length (_detect_dialogue pages)
       = length (filter Patterns.is_character_name
                   (concat (map lines pages))).
Proof.
  destruct (@detect_pages_keep pages [] []) as (groups & B & C & _ & H).
  { exists []. repeat split; try constructor. intros X. discriminate X. }
  cbn [dialogue_blocks current_dialogue] in B, C, H.
  change (in_progress []) with (@nil (list str)) in C, H.
  rewrite app_nil_r in C, H. simpl app in H.
  exists groups. unfold _detect_dialogue.
  split; [exact B|]. split; [exact C|]. split; [exact H|].
  rewrite B, <- H, !length_map. reflexivity.
Qed.

(** ** The scenes of a document *)

Lemma scene_heading_truthy (t : str) :
  Patterns.is_scene_heading t = true -> truthy t = true.
Proof.
  rewrite is_scene_heading_shape. unfold heading_shape.
  destruct t as [|c t]; [|reflexivity].
  intros H. vm_compute in H. discriminate H.
Qed.

Lemma heading_element_truthy (st : CState) (line : str) (position : nat)
  (lines : list str) (e : Element) (st' : CState) :
  classify_line st line position lines = Some (e, st') ->
  el_type e = scene_heading -> truthy (el_text e) = true.
Proof.
  cascade st line position lines; intros H; inversion H; subst; clear H;
    simpl; intros T; try discriminate T.
  apply scene_heading_truthy. assumption.
Qed.

Section Scenes.

Variable textwrap_wrap : str -> nat -> list str.

Section Invariant.

Variable Inv : PState -> list Element -> Prop.

Hypothesis Inv_assemble :
  forall ps tr page e cs,
    (el_type e = scene_heading -> truthy (el_text e) = true) ->
    Inv ps tr ->
    Inv (assemble textwrap_wrap ps page e cs) (tr ++ [stamp page e]).

Lemma invariant_line (page : Page) (ps : PState)
  (ct : CState * list Element) (il : nat * str) (ps' : PState)
  (ct' : CState * list Element) :
  kept Inv ps ct ->
  line_step textwrap_wrap page ps il = Some ps' ->
  trace_step page ct il = Some ct' ->
  kept Inv ps' ct'.
Proof.
  intros [E A]. unfold line_step, trace_step. rewrite E.
  unfold classify_raw.
  destruct (negb (truthy (strip (snd il))));
    [intros X Y; inversion X; inversion Y; subst; split; assumption|].
  destruct (_is_page_number (snd il));
    [intros X Y; inversion X; inversion Y; subst; split; assumption|].
  cbv zeta.
  destruct (negb (truthy (strip (_clean_extraction_artifacts (snd il)))));
    [intros X Y; inversion X; inversion Y; subst; split; assumption|].
  destruct (classify_line (fst ct) (_clean_extraction_artifacts (snd il))
              (fst il) (lines page)) as [[e cs]|] eqn:C;
    [|discriminate].
  intros X Y; inversion X; inversion Y; subst. split.
  - apply classifier_assemble.
  - simpl snd. apply Inv_assemble; [|exact A].
    exact (heading_element_truthy _ _ _ _ C).
Qed.

Lemma invariant_page (ps : PState) (ct : CState * list Element)
  (page : Page) (ps' : PState) (ct' : CState * list Element) :
  kept Inv ps ct ->
  page_step textwrap_wrap ps page = Some ps' ->
  trace_page ct page = Some ct' ->
  kept Inv ps' ct'.
Proof.
  unfold page_step, trace_page. apply fold_opt_related.
  intros a c b a' c'. apply invariant_line.
Qed.

Lemma invariant_parse (pages : list Page) (ps : PState)
  (ct : CState * list Element) :
  Inv initial [] ->
  fold_opt (page_step textwrap_wrap) pages initial = Some ps ->
  fold_opt trace_page pages (init, []) = Some ct ->
  Inv ps (snd ct).
Proof.
  intros I FP FT.
  assert (K : kept Inv ps ct).
  { eapply fold_opt_related; [| | exact FP | exact FT].
    - intros a c b a' c'. apply invariant_page.
    - split; [reflexivity | exact I]. }
  exact (proj2 K).
Qed.

End Invariant.

Lemma headless_more (tr : list Element) (e : Element) :
  tr <> [] -> headless (tr ++ [e]) = headless tr.
Proof. destruct tr; [contradiction | reflexivity]. Qed.

Lemma headless_bound (tr : list Element) :
  headless tr <= 1
  /\ (headless tr = 1 -> length (filter is_heading tr)
                         = length (filter is_heading (tl tr))).
Proof.
  destruct tr as [|e tr]; simpl; [lia|].
  destruct (is_heading e); simpl; lia.
Qed.

Lemma closing_tl (ps : PState) (page_end : Z) :
  scenes ps <> [] ->
  tl (closing textwrap_wrap ps page_end)
  = if scene_open ps
    then tl (scenes ps) ++ [close_scene textwrap_wrap ps page_end]
    else tl (scenes ps).
Proof.
  unfold closing. intros N. destruct (scene_open ps); [|reflexivity].
  destruct (scenes ps); [contradiction | reflexivity].
Qed.

Lemma close_scene_heading (ps : PState) (page_end : Z) :
  heading (close_scene textwrap_wrap ps page_end) = []
  <-> opt_truthy (current_scene_heading ps) = false.
Proof.
  unfold close_scene. simpl heading.
  destruct (current_scene_heading ps) as [h|]; simpl; [|tauto].
  destruct (truthy h); [|tauto].
  split; [|discriminate].
  unfold spaces. simpl. discriminate.
Qed.

Lemma not_true_false (b : bool) : b <> true <-> b = false.
Proof. destruct b; split; congruence. Qed.

(** The tally after one more element. *)
Lemma tallied_assemble (ps : PState) (tr : list Element) (page : Z)
  (e : Element) (cs : CState) :
  (el_type e = scene_heading -> truthy (el_text e) = true) ->
  tallied textwrap_wrap ps tr ->
  tallied textwrap_wrap (assemble textwrap_wrap ps page e cs)
    (tr ++ [stamp page e]).
Proof.
  intros Ht (T & O & H).
  assert (New : tr ++ [stamp page e] <> [])
    by (destruct tr; discriminate).
  assert (Heads : length (filter is_heading (tr ++ [stamp page e]))
                  = length (filter is_heading tr)
                    + (if is_heading e then 1 else 0)).
  { rewrite filter_app, length_app. simpl. unfold is_heading at 2.
    simpl el_type. fold (is_heading e). destruct (is_heading e); reflexivity. }
  destruct (is_heading e) eqn:He.
  - (* a heading closes the scene in progress and opens the next one *)
    assert (Te : el_type e = scene_heading).
    { unfold is_heading in He. destruct (el_type e); try discriminate He.
      reflexivity. }
    specialize (Ht Te).
    assert (A : assemble textwrap_wrap ps page e cs
                = mkPState (closing textwrap_wrap ps (page_before page))
                    (Some (el_text e)) [] [] page cs).
    { unfold assemble, closing; cbv zeta. simpl el_type. rewrite Te.
      reflexivity. }
    rewrite A. clear A.
    destruct (T (page_before page)) as (T1 & T2 & T3).
    assert (Open' : forall sc,
              scene_open (mkPState sc (Some (el_text e)) [] [] page cs)
              = true).
    { intros sc. unfold scene_open. simpl. rewrite Ht. reflexivity. }
    assert (Hs : is_heading (stamp page e) = true) by exact He.
    assert (Hd : forall sc pe,
              heading (close_scene textwrap_wrap
                         (mkPState sc (Some (el_text e)) [] [] page cs) pe)
              <> []).
    { intros sc pe X. apply close_scene_heading in X.
      simpl in X. rewrite Ht in X. discriminate X. }
    split; [|split].
    + intros pe. unfold closing at 1. rewrite Open'. simpl scenes.
      unfold tallies. rewrite length_app, Heads. cbn [length].
      destruct tr as [|e0 tr].
      * (* the document starts with this heading *)
        assert (Closed : scene_open ps = false).
        { apply not_true_false. intros X. apply O in X. contradiction. }
        unfold closing in *. rewrite Closed in *.
        simpl in T1.
        destruct (scenes ps) as [|s0 ss] eqn:Es; [|simpl in T1; lia].
        simpl app. unfold headless. rewrite Hs. simpl filter.
        split; [reflexivity|]. split; [constructor|].
        intros s E. simpl in E. inversion E; subst s.
        split; [intros X; exact (False_ind _ (Hd _ _ X)) | lia].
      * rewrite headless_more by discriminate.
        assert (Opened : scene_open ps = true) by (apply O; discriminate).
        unfold closing in *. rewrite Opened in *.
        rewrite length_app in T1. cbn [length] in T1.
        split; [rewrite length_app; cbn [length]; lia|].
        destruct (scenes ps) as [|s0 ss] eqn:Es.
        -- simpl app in *. simpl tl. split.
           ++ constructor; [apply Hd | constructor].
           ++ intros s E. simpl in E. apply T3. exact E.
        -- simpl app in *. simpl tl in *. split.
           ++ apply Forall_app. split; [exact T2|].
              constructor; [apply Hd | constructor].
           ++ intros s E. simpl in E. apply T3. exact E.
    + rewrite Open'. tauto.
    + simpl current_scene_heading. simpl opt_truthy. rewrite Ht, Heads.
      split; [lia | reflexivity].
  - (* another element joins the scene in progress *)
    assert (Te : el_type e <> scene_heading).
    { intros X. unfold is_heading in He. rewrite X in He. discriminate He. }
    assert (A : exists chars,
               assemble textwrap_wrap ps page e cs
               = mkPState (scenes ps) (current_scene_heading ps)
                   (current_scene_elements ps ++ [stamp page e]) chars
                   (current_scene_page ps) cs).
    { unfold assemble; cbv zeta. simpl el_type.
      destruct (el_type e); try (eexists; reflexivity).
      contradiction. }
    destruct A as [chars ->].
    assert (Open' : scene_open
                      (mkPState (scenes ps) (current_scene_heading ps)
                         (current_scene_elements ps ++ [stamp page e]) chars
                         (current_scene_page ps) cs) = true).
    { unfold scene_open. simpl.
      destruct (current_scene_elements ps); simpl; apply orb_true_r. }
    rewrite Nat.add_0_r in Heads.
    split; [|split].
    + intros pe. unfold closing. rewrite Open'. simpl scenes.
      destruct (T pe) as (T1 & T2 & T3). unfold closing in T1, T2, T3.
      unfold tallies. rewrite length_app, Heads. cbn [length].
      assert (Hd : heading (close_scene textwrap_wrap
                              (mkPState (scenes ps) (current_scene_heading ps)
                                 (current_scene_elements ps ++ [stamp page e])
                                 chars (current_scene_page ps) cs) pe)
                   = heading (close_scene textwrap_wrap ps pe))
        by reflexivity.
      destruct tr as [|e0 tr].
      * assert (Closed : scene_open ps = false).
        { apply not_true_false. intros X. apply O in X. contradiction. }
        rewrite Closed in *. simpl in T1.
        destruct (scenes ps) as [|s0 ss]; [|simpl in T1; lia].
        assert (Hs : is_heading (stamp page e) = false) by exact He.
        simpl app. unfold headless. rewrite Hs. simpl filter.
        split; [reflexivity|]. split; [constructor|].
        intros s E. simpl in E. inversion E; subst s.
        rewrite Hd, close_scene_heading.
        assert (NoHead : opt_truthy (current_scene_heading ps) = false).
        { apply not_true_false. intros X. apply H in X. simpl in X. lia. }
        rewrite NoHead. split; reflexivity.
      * assert (Opened : scene_open ps = true).
        { apply O. discriminate. }
        rewrite Opened in *. rewrite length_app in T1. cbn [length] in T1.
        rewrite headless_more by discriminate.
        split; [lia|]. split.
        -- destruct (scenes ps) as [|s0 ss]; [constructor|].
           simpl tl in T2 |- *.
           apply Forall_app in T2. destruct T2 as [T2 T2'].
           apply Forall_app. split; [exact T2|].
           inversion T2' as [|x l Hx _]; subst.
           constructor; [|constructor]. rewrite Hd. exact Hx.
        -- intros s E. destruct (scenes ps) as [|s0 ss].
           ++ simpl in E. inversion E; subst s. rewrite Hd.
              apply (T3 (close_scene textwrap_wrap ps pe)). reflexivity.
           ++ simpl in E. apply T3. exact E.
    + rewrite Open'. tauto.
    + simpl current_scene_heading. rewrite Heads. exact H.
Qed.

Lemma tallied_initial : tallied textwrap_wrap initial [].
Proof.
  split; [|split].
  - intros pe. unfold closing, tallies. simpl.
    split; [reflexivity|]. split; [constructor|].
    intros s E. discriminate E.
  - simpl. split; [discriminate | intros X; contradiction].
  - simpl. split; [discriminate | lia].
Qed.

(** X10. The scenes of a document are as many as its scene headings,
    with one more when the document starts with something else than a
    heading; that first scene is the only one that has no heading. *)
Theorem scenes_follow_headings (pages : list Page) :
  exists result tr,
    _parse_sequential_content textwrap_wrap pages = Some result
    /\ classified_elements pages = Some tr
    /\ length result = length (filter is_heading tr) + headless tr
    /\ Forall (fun s => heading s <> []) (tl result)
    /\ forall s, hd_error result = Some s ->
                 (heading s = [] <-> headless tr = 1).
Proof.
  destruct (parse_total textwrap_wrap pages) as [result R].
  destruct (classified_elements_total pages) as [tr T].
  exists result, tr. split; [exact R|]. split; [exact T|].
  unfold _parse_sequential_content in R.
  unfold classified_elements in T.
  destruct (fold_opt (page_step textwrap_wrap) pages initial)
    as [ps|] eqn:FP; [|discriminate R].
  destruct (fold_opt trace_page pages (init, [])) as [ct|] eqn:FT;
    [|discriminate T].
  inversion R; inversion T; subst; clear R T.
  destruct (@invariant_parse (tallied textwrap_wrap) tallied_assemble
              pages ps ct tallied_initial FP FT) as (Tl & _ & _).
  exact (Tl (last_page pages)).
Qed.

Lemma chained_snoc (l : list Scene) (s : Scene) :
  chained l ->
  (forall front s0, l = front ++ [s0] ->
     page_end s0 = page_before (page_start s)) ->
  chained (l ++ [s]).
Proof.
  induction l as [|a l IH]; intros C L; [exact I|].
  destruct l as [|b l].
  - simpl. split; [|exact I]. apply (L [] a). reflexivity.
  - change ((a :: b :: l) ++ [s]) with (a :: (b :: l) ++ [s]).
    destruct C as [C1 C2].
    change (page_end a = page_before (page_start b)
            /\ chained ((b :: l) ++ [s])).
    split; [exact C1|]. apply IH; [exact C2|].
    intros front s0 E. apply (L (a :: front) s0). rewrite E. reflexivity.
Qed.

Lemma last_of_snoc (A : Type) (l front : list A) (x y : A) :
  l ++ [x] = front ++ [y] -> x = y.
Proof.
  intros E. apply (f_equal (@rev A)) in E. rewrite !rev_app_distr in E.
  simpl in E. inversion E. reflexivity.
Qed.

Lemma paged_assemble (ps : PState) (page : Z) (e : Element) (cs : CState) :
  (el_type e = scene_heading -> truthy (el_text e) = true) ->
  paged ps -> paged (assemble textwrap_wrap ps page e cs).
Proof.
  intros Ht (C & L & O).
  destruct (is_heading e) eqn:He.
  - assert (Te : el_type e = scene_heading).
    { unfold is_heading in He. destruct (el_type e); try discriminate He.
      reflexivity. }
    specialize (Ht Te).
    assert (A : assemble textwrap_wrap ps page e cs
                = mkPState (closing textwrap_wrap ps (page_before page))
                    (Some (el_text e)) [] [] page cs).
    { unfold assemble, closing; cbv zeta. simpl el_type. rewrite Te.
      reflexivity. }
    rewrite A. clear A. unfold paged, closing. simpl scenes.
    simpl current_scene_page.
    destruct (scene_open ps) eqn:Os.
    + split; [|split].
      * apply chained_snoc; [exact C|]. intros front s0 E.
        simpl page_start. apply (L front s0 E).
      * intros front s E. apply last_of_snoc in E. subst s. reflexivity.
      * intros _. unfold scene_open. simpl. rewrite Ht. reflexivity.
    + destruct (scenes ps) as [|s0 ss] eqn:Es.
      * split; [exact I|]. split.
        -- intros front s E. destruct front; discriminate E.
        -- intros X. contradiction.
      * assert (X : s0 :: ss <> []) by discriminate.
        apply O in X. discriminate X.
  - assert (Te : el_type e <> scene_heading).
    { intros X. unfold is_heading in He. rewrite X in He. discriminate He. }
    assert (A : exists chars,
               assemble textwrap_wrap ps page e cs
               = mkPState (scenes ps) (current_scene_heading ps)
                   (current_scene_elements ps ++ [stamp page e]) chars
                   (current_scene_page ps) cs).
    { unfold assemble; cbv zeta. simpl el_type.
      destruct (el_type e); try (eexists; reflexivity).
      contradiction. }
    destruct A as [chars ->]. unfold paged. simpl scenes.
    simpl current_scene_page.
    split; [exact C|]. split; [exact L|].
    intros _. unfold scene_open. simpl.
    destruct (current_scene_elements ps); simpl; apply orb_true_r.
Qed.

(** X11. The scenes of a document are chained by their pages: every
    scene ends on the page before the one where the next scene starts
    (on page 1 when that page is the first), even when both start on the
    same page, and the last scene ends on the last page of the
    document. *)
Theorem scenes_are_chained_by_pages (pages : list Page) :
  exists result,
    _parse_sequential_content textwrap_wrap pages = Some result
    /\ chained result
    /\ forall front s, result = front ++ [s] ->
                       page_end s = last_page pages.
Proof.
  destruct (parse_total textwrap_wrap pages) as [result R].
  destruct (classified_elements_total pages) as [tr T].
  exists result. split; [exact R|].
  unfold _parse_sequential_content in R.
  unfold classified_elements in T.
  destruct (fold_opt (page_step textwrap_wrap) pages initial)
    as [ps|] eqn:FP; [|discriminate R].
  destruct (fold_opt trace_page pages (init, [])) as [ct|] eqn:FT;
    [|discriminate T].
  inversion R; subst; clear R T.
  destruct (@invariant_parse (fun ps _ => paged ps)
              (fun ps0 _ page e cs Ht P => @paged_assemble ps0 page e cs Ht P)
              pages ps ct) as (C & L & O); [| exact FP | exact FT |].
  { split; [exact I|]. split.
    - intros front s E. destruct front; discriminate E.
    - intros X. contradiction. }
  unfold finish. destruct (scene_open ps) eqn:Os.
  - split.
    + apply chained_snoc; [exact C|]. intros front s0 E.
      simpl page_start. apply (L front s0 E).
    + intros front s E. apply last_of_snoc in E. subst s. reflexivity.
  - destruct (scenes ps) as [|s0 ss] eqn:Es.
    + split; [exact I|]. intros front s E. destruct front; discriminate E.
    + assert (X : s0 :: ss <> []) by discriminate.
      apply O in X. discriminate X.
Qed.

End Scenes.

(** ** The cuts of the classified elements *)

Lemma cut_before_app (a : Element) (cs : list Cut) (c : Cut) :
  cs <> [] -> cut_before a (cs ++ [c]) = cut_before a cs ++ [c].
Proof.
  destruct cs as [|[[h|] g] cs]; [contradiction| |]; intros _;
    unfold cut_before; simpl app; destruct (is_heading a); reflexivity.
Qed.

Lemma cuts_cons (a : Element) (tr : list Element) :
  cuts (a :: tr) = cut_before a (cuts tr).
Proof. reflexivity. Qed.

Lemma cuts_snoc_heading (tr : list Element) (e : Element) :
  is_heading e = true -> cuts (tr ++ [e]) = cuts tr ++ [(Some e, [])].
Proof.
  intros H. induction tr as [|a tr IH].
  - unfold cuts, cut_before. simpl. rewrite H. reflexivity.
  - rewrite <- app_comm_cons, !cuts_cons, IH.
    destruct (cuts tr) as [|c cs].
    + unfold cut_before. simpl. destruct (is_heading a); reflexivity.
    + apply cut_before_app. discriminate.
Qed.

Lemma add_last_cut_before (a e : Element) (cs : list Cut) :
  cut_before a (add_last e cs) = add_last e (cut_before a cs).
Proof.
  destruct cs as [|[[h|] g] [|c' cs]]; unfold cut_before; simpl;
    destruct (is_heading a); reflexivity.
Qed.

Lemma cuts_snoc_other (tr : list Element) (e : Element) :
  is_heading e = false -> cuts (tr ++ [e]) = add_last e (cuts tr).
Proof.
  intros H. induction tr as [|a tr IH].
  - unfold cuts, cut_before. simpl. rewrite H. reflexivity.
  - rewrite <- app_comm_cons, !cuts_cons, IH. apply add_last_cut_before.
Qed.

Lemma add_last_snoc (e : Element) (closed : list Cut) (o : option Element)
  (g : list Element) :
  add_last e (closed ++ [(o, g)]) = closed ++ [(o, g ++ [e])].
Proof.
  induction closed as [|c closed IH]; [reflexivity|].
  simpl app. simpl add_last. rewrite IH.
  destruct closed; reflexivity.
Qed.

Lemma cut_elements_before (a : Element) (cs : list Cut) :
  flat_map cut_elements (cut_before a cs) = a :: flat_map cut_elements cs.
Proof.
  destruct cs as [|[[h|] g] cs]; unfold cut_before;
    destruct (is_heading a); reflexivity.
Qed.

(** The cuts share out the elements: put end to end, they give the
    sequence back. *)
Lemma cuts_flat (tr : list Element) : flat_map cut_elements (cuts tr) = tr.
Proof.
  induction tr as [|a tr IH]; [reflexivity|].
  rewrite cuts_cons, cut_elements_before, IH. reflexivity.
Qed.

Lemma cuts_well_cut (tr : list Element) :
  Forall well_cut (cuts tr)
  /\ Forall (fun c => fst c <> None) (tl (cuts tr)).
Proof.
  induction tr as [|a tr [W T]]; [split; constructor|].
  rewrite cuts_cons.
  destruct (cuts tr) as [|[[h|] g] cs]; unfold cut_before;
    destruct (is_heading a) eqn:H; simpl tl.
  - split; [|constructor]. constructor; [|constructor].
    split; [intros e E; inversion E; subst; exact H | constructor].
  - split; [|constructor]. constructor; [|constructor].
    split; [intros e E; discriminate E|].
    constructor; [exact H | constructor].
  - split.
    + constructor; [|exact W].
      split; [intros e E; inversion E; subst; exact H | constructor].
    + constructor; [discriminate | exact T].
  - split.
    + constructor; [|exact W].
      split; [intros e E; discriminate E|].
      constructor; [exact H | constructor].
    + constructor; [discriminate | exact T].
  - inversion W as [|c l [_ Wg] W']; subst. split; [|exact T].
    constructor; [|exact W'].
    split; [intros e E; inversion E; subst; exact H | exact Wg].
  - inversion W as [|c l [_ Wg] W']; subst. split; [|exact T].
    constructor; [|exact W'].
    split; [intros e E; discriminate E|].
    constructor; [exact H | exact Wg].
Qed.

Lemma not_heading_is (e : Element) : not_heading e = negb (is_heading e).
Proof. reflexivity. Qed.

Lemma cuts_groups (tr : list Element) :
  concat (map snd (cuts tr)) = filter not_heading tr.
Proof.
  induction tr as [|a tr IH]; [reflexivity|].
  rewrite cuts_cons.
  simpl filter. rewrite not_heading_is, <- IH.
  destruct (cuts tr) as [|[[h|] g] cs]; unfold cut_before;
    destruct (is_heading a); reflexivity.
Qed.

Lemma in_cut_in_trace (tr : list Element) (c : Cut) (e : Element) :
  In c (cuts tr) -> In e (snd c) -> In e tr.
Proof.
  intros Ic Ie. rewrite <- (cuts_flat tr). apply in_flat_map.
  exists c. split; [exact Ic|]. unfold cut_elements.
  destruct (fst c); [right|]; exact Ie.
Qed.

(** ** The lines of an element in the content of its scene *)

Lemma rendered_canonical (textwrap_wrap : str -> nat -> list str)
  (e : Element) :
  el_indent e = canonical_indent (el_type e) ->
  rendered textwrap_wrap e = canonical_lines textwrap_wrap e.
Proof.
  unfold rendered, canonical_lines, _wrap_text; cbv zeta. intros ->.
  destruct (el_type e); reflexivity.
Qed.

Lemma length_spaces (n : nat) : length (spaces n) = n.
Proof. apply repeat_length. Qed.

Lemma length_upper (s : str) : length (upper s) = length s.
Proof. apply length_map. Qed.

Lemma startswith_prefix (p x : str) : startswith (p ++ x) p = true.
Proof.
  induction p as [|c p IH]; [destruct x; reflexivity|].
  simpl. rewrite Ascii.eqb_refl. exact IH.
Qed.

Lemma transition_line_width (textwrap_wrap : str -> nat -> list str)
  (e : Element) (l : str) :
  el_type e = transition ->
  In l (canonical_lines textwrap_wrap e) ->
  length l = Nat.max 72 (length (strip (el_text e)))
  /\ endswith l (upper (strip (el_text e))) = true.
Proof.
  unfold canonical_lines; cbv zeta. intros ->. intros [<- | []].
  rewrite length_app, length_spaces, length_upper. split; [lia|].
  unfold endswith. rewrite rev_app_distr. apply startswith_prefix.
Qed.

Lemma run_of_stop (test : ascii -> bool) (a : str) (c : ascii) (t : str) :
  test c = false -> run_of test (a ++ c :: t) = run_of test a.
Proof.
  intros H. induction a as [|x a IH]; simpl; [rewrite H; reflexivity|].
  destruct (test x); [f_equal; exact IH | reflexivity].
Qed.

(** The substitution of three line feeds for four or more keeps a text
    that has no line feed. *)
Lemma squeeze_plain (l : str) :
  forallb (fun c => negb (is_nl c)) l = true ->
  forall (b : str) (p : option ascii),
    sub_from no_flags (RRep (RChar nl) 4 None) (const_repl [nl; nl; nl]) p
      (l ++ b) 0
    = l ++ sub_from no_flags (RRep (RChar nl) 4 None)
             (const_repl [nl; nl; nl]) (after p l) b 0.
Proof.
  induction l as [|c l IH]; intros F b p; [reflexivity|].
  simpl in F. apply andb_prop in F. destruct F as [Fc Fl].
  apply negb_true_iff in Fc.
  rewrite (sub_run [nl; nl; nl] one_char_nl) by lia.
  rewrite <- app_comm_cons, run_of_cons, Fc. cbn [Nat.leb].
  rewrite (IH Fl). reflexivity.
Qed.

Lemma squeeze_keeps (l : str) :
  l <> [] -> forallb (fun c => negb (is_nl c)) l = true ->
  forall (n : nat) (a b : str) (p : option ascii),
    length a <= n ->
    exists X Y,
      sub_from no_flags (RRep (RChar nl) 4 None) (const_repl [nl; nl; nl]) p
        (a ++ l ++ b) 0
      = X ++ l ++ Y.
Proof.
  intros N F. induction n as [|n IH]; intros a b p L.
  - destruct a; [|simpl in L; lia]. simpl app.
    rewrite (@squeeze_plain l F). exists []. eexists. reflexivity.
  - destruct a as [|c a].
    { simpl app. rewrite (@squeeze_plain l F). exists []. eexists. reflexivity. }
    assert (R : run_of is_nl ((c :: a) ++ l ++ b) = run_of is_nl (c :: a)).
    { destruct l as [|c0 l]; [contradiction|].
      simpl in F. apply andb_prop in F. destruct F as [Fc _].
      apply negb_true_iff in Fc.
      change ((c0 :: l) ++ b) with (c0 :: (l ++ b)).
      apply run_of_stop. exact Fc. }
    assert (B := run_of_le is_nl (c :: a)).
    rewrite (sub_run [nl; nl; nl] one_char_nl) by lia.
    rewrite R. destruct (4 <=? run_of is_nl (c :: a)) eqn:E.
    + apply Nat.leb_le in E.
      rewrite skipn_app.
      replace (run_of is_nl (c :: a) - length (c :: a)) with 0 by lia.
      simpl skipn at 2.
      destruct (IH (skipn (run_of is_nl (c :: a)) (c :: a)) b
                  (after p (firstn (run_of is_nl (c :: a))
                              ((c :: a) ++ l ++ b))))
        as (X & Y & ->).
      { rewrite length_skipn. simpl length in *. lia. }
      exists ([nl; nl; nl] ++ X), Y. rewrite <- app_assoc. reflexivity.
    + rewrite <- app_comm_cons.
      destruct (IH a b (Some c)) as (X & Y & ->); [simpl in L; lia|].
      exists (c :: X), Y. reflexivity.
Qed.

Lemma contains_start (s p : str) :
  startswith s p = true -> contains s p = true.
Proof. intros H. destruct s; cbn [contains]; rewrite H; reflexivity. Qed.

Lemma contains_mid (X l Y : str) : contains (X ++ l ++ Y) l = true.
Proof.
  induction X as [|x X IH].
  - apply contains_start. exact (startswith_prefix l Y).
  - rewrite <- app_comm_cons. cbn [contains]. rewrite IH. apply orb_true_r.
Qed.

Lemma join_has_line (sep l : str) (ls : list str) :
  In l ls -> exists A B, join sep ls = A ++ l ++ B.
Proof.
  induction ls as [|x ls IH]; intros I; [contradiction|].
  destruct I as [-> | I].
  - exists []. destruct ls as [|y ls].
    + exists []. simpl. rewrite app_nil_r. reflexivity.
    + eexists. rewrite join_cons. reflexivity.
  - destruct ls as [|y ls]; [contradiction|].
    destruct (IH I) as (A & B & E). rewrite join_cons, E.
    exists (x ++ sep ++ A), B. rewrite <- !app_assoc. reflexivity.
Qed.

Lemma line_without_nl (l : str) :
  contains l [nl] = false -> forallb (fun c => negb (is_nl c)) l = true.
Proof.
  induction l as [|c l IH]; intros H; [reflexivity|].
  cbn [contains startswith] in H.
  apply orb_false_elim in H. destruct H as [H1 H2].
  replace (startswith l []) with true in H1 by (destruct l; reflexivity).
  rewrite andb_true_r in H1.
  cbn [forallb]. rewrite (IH H2), andb_true_r. unfold is_nl.
  rewrite H1. reflexivity.
Qed.

Section Cuts.

Variable textwrap_wrap : str -> nat -> list str.

(** A line of an element is in the content of its scene as it is. *)
Lemma content_has_line (g : list Element) (e : Element) (l : str) :
  In e g ->
  el_indent e = canonical_indent (el_type e) ->
  In l (canonical_lines textwrap_wrap e) ->
  contains l [nl] = false ->
  contains (format_screenplay_content textwrap_wrap g) l = true.
Proof.
  intros Ie CI Il NL.
  destruct (@format_lines_rendered textwrap_wrap g e Ie) as (pre & post & E).
  rewrite (rendered_canonical _ _ CI) in E.
  assert (I : In l (format_lines textwrap_wrap g)).
  { rewrite E. apply in_or_app. right. apply in_or_app. left. exact Il. }
  destruct (join_has_line [nl] _ _ I) as (A & B & J).
  unfold format_screenplay_content; cbv zeta.
  rewrite J, newlines_pattern. unfold re_sub.
  destruct l as [|c0 l].
  - apply contains_start. destruct (sub_from _ _ _ _ _ _); reflexivity.
  - destruct (@squeeze_keeps (c0 :: l)) with (n := length A) (a := A)
      (b := B) (p := @None ascii) as (X & Y & ->);
      [discriminate | apply line_without_nl; exact NL | lia |].
    apply contains_mid.
Qed.

Lemma is_heading_type (e : Element) :
  is_heading e = true <-> el_type e = scene_heading.
Proof.
  unfold is_heading. destruct (el_type e); simpl; split; intros H;
    try reflexivity; discriminate H.
Qed.

Lemma scene_of_close (ps : PState) (page_end : Z) (o : option Element)
  (g : list Element) :
  open_cut ps [(o, g)] ->
  scene_open ps = true
  /\ scene_of_cut textwrap_wrap (close_scene textwrap_wrap ps page_end) (o, g).
Proof.
  unfold open_cut, scene_open, scene_of_cut, close_scene, opened_by.
  destruct o as [h|].
  - intros (Oh & Ot & Oe & Op). rewrite Oh. simpl. rewrite Ot.
    split; [reflexivity|]. split; [reflexivity|].
    split; [rewrite Oe; reflexivity | exact Op].
  - intros (Oh & Oe & Og & Op). rewrite Oh, Oe. simpl.
    split; [destruct g; [contradiction | reflexivity]|].
    split; [reflexivity|]. split; [reflexivity | exact Op].
Qed.

Lemma cut_up_assemble (ps : PState) (tr : list Element) (page : Z)
  (e : Element) (cs : CState) :
  (el_type e = scene_heading -> truthy (el_text e) = true) ->
  cut_up textwrap_wrap ps tr ->
  cut_up textwrap_wrap (assemble textwrap_wrap ps page e cs)
    (tr ++ [stamp page e]).
Proof.
  intros Ht (closed & last_cut & C & F & O & N).
  destruct (is_heading (stamp page e)) eqn:H.
  - assert (T : el_type e = scene_heading)
      by (apply (is_heading_type (stamp page e)); exact H).
    assert (C' := @cuts_snoc_heading tr _ H). rewrite C in C'.
    exists (closed ++ last_cut), [(Some (stamp page e), [])].
    split; [exact C'|].
    unfold assemble; cbv zeta. simpl el_type. rewrite T.
    split; [|split].
    + simpl scenes.
      destruct last_cut as [|[o g] [|c2 l2]].
      * destruct O as (Oh & Oe & _). unfold scene_open. rewrite Oh, Oe.
        simpl. rewrite app_nil_r. exact F.
      * destruct (@scene_of_close ps (page_before page) o g O) as [So Sc].
        rewrite So. apply Forall2_app; [exact F|].
        constructor; [exact Sc | constructor].
      * simpl in O. destruct o; contradiction.
    + simpl. repeat split. exact (Ht T).
    + intros X. discriminate X.
  - assert (T : el_type e <> scene_heading).
    { intros T. apply (is_heading_type (stamp page e)) in T.
      rewrite T in H. discriminate H. }
    assert (C' := @cuts_snoc_other tr _ H). rewrite C in C'.
    assert (S : scenes (assemble textwrap_wrap ps page e cs) = scenes ps
                /\ current_scene_heading (assemble textwrap_wrap ps page e cs)
                   = current_scene_heading ps
                /\ current_scene_elements (assemble textwrap_wrap ps page e cs)
                   = current_scene_elements ps ++ [stamp page e]
                /\ current_scene_page (assemble textwrap_wrap ps page e cs)
                   = current_scene_page ps).
    { unfold assemble; cbv zeta. simpl el_type.
      destruct (el_type e); try (repeat split; reflexivity).
      contradiction T; reflexivity. }
    destruct S as (S1 & S2 & S3 & S4).
    destruct last_cut as [|[o g] [|c2 l2]].
    + rewrite (N eq_refl) in *. simpl app in C'. simpl add_last in C'.
      destruct O as (Oh & Oe & Op).
      exists [], [(None, [stamp page e])].
      split; [exact C'|]. split; [rewrite S1; exact F|].
      split; [|intros X; discriminate X].
      simpl. rewrite S2, S3, S4, Oh, Oe. repeat split; try assumption.
      discriminate.
    + rewrite add_last_snoc in C'.
      exists closed, [(o, g ++ [stamp page e])].
      split; [exact C'|]. split; [rewrite S1; exact F|].
      split; [|intros X; discriminate X].
      simpl in O |- *. rewrite S2, S3, S4. destruct o as [h|].
      * destruct O as (Oh & Ot & Oe & Op). rewrite Oe.
        repeat split; assumption.
      * destruct O as (Oh & Oe & Og & Op). rewrite Oe.
        repeat split; try assumption.
        intros X. apply app_eq_nil in X. destruct X as [_ X]. discriminate X.
    + simpl in O. destruct o; contradiction.
Qed.

Lemma cut_up_initial : cut_up textwrap_wrap initial [].
Proof.
  exists [], []. split; [reflexivity|]. split; [constructor|].
  split; [repeat split | reflexivity].
Qed.

Lemma cut_up_finish (pages : list Page) (ps : PState) (tr : list Element) :
  cut_up textwrap_wrap ps tr ->
  Forall2 (scene_of_cut textwrap_wrap) (finish textwrap_wrap pages ps)
    (cuts tr).
Proof.
  intros (closed & last_cut & C & F & O & N). rewrite C. unfold finish.
  destruct last_cut as [|[o g] [|c2 l2]].
  - destruct O as (Oh & Oe & _). unfold scene_open. rewrite Oh, Oe.
    simpl. rewrite app_nil_r. exact F.
  - destruct (@scene_of_close ps (last_page pages) o g O) as [So Sc].
    rewrite So. apply Forall2_app; [exact F|].
    constructor; [exact Sc | constructor].
  - simpl in O. destruct o; contradiction.
Qed.

(** C7, amended.  Every document is parsed into scenes, and the scenes
    are the cuts of the sequence of classified elements before each
    scene heading, one scene for each cut in their order: the cuts put
    end to end give the sequence back, so that every element is in one
    scene and in one only.  A scene heading element is not put in any
    content: it opens a cut, and gives the field [heading] of the scene
    of that cut, 12 blanks and its text in upper case, and the page where
    the scene starts; only the first scene can be without a heading.
    The elements that follow the heading are not scene headings; they
    are the elements whose formatted text is the content of the scene.
    Each one has the indentation of its type, its lines at the canonical
    indentation (12 columns for action and pre-scene elements, 38 for a
    character cue, 25 for dialogue, 30 for a parenthetical, flush right
    at column 72 for a transition) are among the formatted lines of the
    scene, and every such line that has no line feed is in the content
    of the scene. *)
Theorem scenes_share_out_elements (pages : list Page) :
  exists result tr,
    _parse_sequential_content textwrap_wrap pages = Some result
    /\ classified_elements pages = Some tr
    /\ Forall2 (scene_of_cut textwrap_wrap) result (cuts tr)
    /\ flat_map cut_elements (cuts tr) = tr
    /\ concat (map snd (cuts tr)) = filter not_heading tr
    /\ Forall (fun c => fst c <> None) (tl (cuts tr))
    /\ (forall c e,
          In c (cuts tr) -> fst c = Some e -> el_type e = scene_heading)
    /\ (forall c e,
          In c (cuts tr) -> In e (snd c) ->
          el_type e <> scene_heading
          /\ el_indent e = canonical_indent (el_type e)
          /\ (exists pre post,
                format_lines textwrap_wrap (snd c)
                = pre ++ canonical_lines textwrap_wrap e ++ post)
          /\ (forall l,
                In l (canonical_lines textwrap_wrap e) ->
                contains l [nl] = false ->
                contains (format_screenplay_content textwrap_wrap (snd c)) l
                = true)
          /\ (el_type e = transition ->
              forall l,
                In l (canonical_lines textwrap_wrap e) ->
                length l = Nat.max 72 (length (strip (el_text e)))
                /\ endswith l (upper (strip (el_text e))) = true)).
Proof.
  destruct (parse_total textwrap_wrap pages) as [result R].
  destruct (classified_elements_total pages) as [tr T].
  exists result, tr. split; [exact R|]. split; [exact T|].
  unfold _parse_sequential_content in R.
  unfold classified_elements in T.
  destruct (fold_opt (page_step textwrap_wrap) pages initial)
    as [ps|] eqn:FP; [|discriminate R].
  destruct (fold_opt trace_page pages (init, [])) as [ct|] eqn:FT;
    [|discriminate T].
  inversion R; inversion T; subst; clear R T.
  assert (S : in_step textwrap_wrap ps ct).
  { eapply fold_opt_related;
      [| apply in_step_initial | exact FP | exact FT].
    intros a c b a' c'. apply in_step_page. }
  destruct S as (_ & _ & _ & _ & I).
  assert (K := @invariant_parse textwrap_wrap (cut_up textwrap_wrap)
                 cut_up_assemble pages ps ct cut_up_initial FP FT).
  destruct (cuts_well_cut (snd ct)) as [W Tl].
  rewrite Forall_forall in W, I.
  split; [apply cut_up_finish; exact K|].
  split; [apply cuts_flat|]. split; [apply cuts_groups|].
  split; [exact Tl|]. split.
  - intros c e Ic E. apply is_heading_type.
    exact (proj1 (W c Ic) e E).
  - intros c e Ic Ie.
    assert (CI : el_indent e = canonical_indent (el_type e))
      by exact (I e (in_cut_in_trace _ _ _ Ic Ie)).
    split; [|split; [exact CI|split; [|split]]].
    + intros X. apply is_heading_type in X.
      destruct (W c Ic) as [_ G]. rewrite Forall_forall in G.
      rewrite (G e Ie) in X. discriminate X.
    + rewrite <- (rendered_canonical textwrap_wrap e CI).
      apply format_lines_rendered. exact Ie.
    + intros l Il NL. exact (content_has_line _ _ _ Ie CI Il NL).
    + intros X l Il. exact (transition_line_width _ _ _ X Il).
Qed.

End Cuts.

(** ** The table of the characters *)

Lemma str_eqb_true (a b : str) : str_eqb a b = true -> a = b.
Proof. apply str_eqb_eq. Qed.

Lemma str_eqb_false (a b : str) : str_eqb a b = false -> a <> b.
Proof.
  intros H E. subst b. rewrite str_eqb_refl in H. discriminate H.
Qed.

Lemma str_eqb_neq (a b : str) : a <> b -> str_eqb a b = false.
Proof.
  intros N. destruct (str_eqb a b) eqn:E; [|reflexivity].
  apply str_eqb_true in E. contradiction.
Qed.

Lemma get_update (d : Profiles) (c char : str) (f : Profile -> Profile) :
  get (update d c f) char
  = if str_eqb char c then option_map f (get d char) else get d char.
Proof.
  induction d as [|[k p] d IH]; simpl; [destruct (str_eqb char c); reflexivity|].
  destruct (str_eqb c k) eqn:Ck.
  - apply str_eqb_true in Ck. subst k. simpl.
    destruct (str_eqb char c); reflexivity.
  - simpl. rewrite IH. destruct (str_eqb char k) eqn:Ek; [|reflexivity].
    apply str_eqb_true in Ek. subst k.
    rewrite str_eqb_neq; [reflexivity|].
    intros E. subst c. rewrite str_eqb_refl in Ck. discriminate Ck.
Qed.

Lemma get_new (d : Profiles) (c char : str) (v : Profile) :
  get (d ++ [(c, v)]) char
  = match get d char with
    | Some p => Some p
    | None => if str_eqb char c then Some v else None
    end.
Proof.
  induction d as [|[k p] d IH]; simpl; [reflexivity|].
  destruct (str_eqb char k); [reflexivity | exact IH].
Qed.

Lemma has_key_get (d : Profiles) (c : str) :
  has_key d c = match get d c with Some _ => true | None => false end.
Proof.
  unfold has_key. induction d as [|[k p] d IH]; simpl; [reflexivity|].
  destruct (str_eqb c k); [reflexivity | exact IH].
Qed.

Lemma get_notes (d : Profiles) (char : str) :
  get (map (fun kv => (fst kv, write_notes (snd kv))) d) char
  = option_map write_notes (get d char).
Proof.
  induction d as [|[k p] d IH]; simpl; [reflexivity|].
  destruct (str_eqb char k); [reflexivity | exact IH].
Qed.

Lemma get_visit (scene_content : str) (d : Profiles) (c char : str) :
  get (visit scene_content d c) char
  = if str_eqb char c
    then Some (count_appearance scene_content c
                 match get d c with Some p => p | None => new_profile end)
    else get d char.
Proof.
  unfold visit; cbv zeta. rewrite get_update, has_key_get.
  destruct (str_eqb char c) eqn:E.
  - apply str_eqb_true in E. subst char.
    destruct (get d c) as [p|] eqn:G; [rewrite G; reflexivity|].
    rewrite get_new, G, str_eqb_refl. reflexivity.
  - destruct (get d c) as [p|]; [reflexivity|].
    rewrite get_new, E. destruct (get d char); reflexivity.
Qed.

Lemma seen_in_more (char scene_content c : str) (turns : list (str * str)) :
  seen_in char (turns ++ [(scene_content, c)])
  = seen_in char turns ++ (if str_eqb char c then [scene_content] else []).
Proof.
  unfold seen_in. rewrite filter_app, map_app. simpl.
  destruct (str_eqb char c); reflexivity.
Qed.

Lemma profile_from_more (c scene_content : str) (seen : list str)
  (p : Profile) :
  write_notes p = profile_from c seen ->
  write_notes (count_appearance scene_content c p)
  = profile_from c (seen ++ [scene_content]).
Proof.
  destruct p as [a sp ap es no tr su dc]. unfold write_notes, profile_from.
  cbv zeta. simpl. intros H. injection H as Ha Hsp Hap Hes _ Htr Hsu Hdc.
  subst a sp ap es tr su dc.
  rewrite length_map, length_seq, length_app, map_app, list_sum_app.
  simpl length. simpl map. simpl list_sum.
  rewrite Nat.add_0_r.
  replace (seq 1 (length seen + 1)) with (seq 1 (length seen) ++ [length seen + 1]).
  - rewrite map_app. reflexivity.
  - rewrite Nat.add_1_r, seq_S. reflexivity.
Qed.

Lemma tabled_visit (d : Profiles) (turns : list (str * str))
  (scene_content c : str) :
  tabled d turns ->
  tabled (visit scene_content d c) (turns ++ [(scene_content, c)]).
Proof.
  intros T char. rewrite get_visit, seen_in_more.
  destruct (str_eqb char c) eqn:E.
  - apply str_eqb_true in E. subst char. specialize (T c).
    simpl option_map.
    destruct (seen_in c turns) as [|s0 seen] eqn:S.
    + destruct (get d c) as [p|]; [discriminate T|].
      simpl app. unfold entry_of. f_equal.
      apply (@profile_from_more c scene_content [] new_profile).
      reflexivity.
    + destruct (get d c) as [p|]; [|discriminate T].
      assert (T' : write_notes p = profile_from c (s0 :: seen)).
      { cbn [option_map entry_of] in T. congruence. }
      change (entry_of c ((s0 :: seen) ++ [scene_content]))
        with (Some (profile_from c ((s0 :: seen) ++ [scene_content]))).
      f_equal. apply profile_from_more. exact T'.
  - rewrite app_nil_r. apply T.
Qed.

Lemma tabled_turns (turns : list (str * str)) :
  forall d done,
    tabled d done ->
    tabled (fold_left (fun d v => visit (fst v) d (snd v)) turns d)
      (done ++ turns).
Proof.
  induction turns as [|[sc c] turns IH]; intros d done T; simpl.
  - rewrite app_nil_r. exact T.
  - replace (done ++ (sc, c) :: turns) with ((done ++ [(sc, c)]) ++ turns)
      by (rewrite <- app_assoc; reflexivity).
    apply IH. apply tabled_visit. exact T.
Qed.

Lemma visit_scenes_turns (scriptorly_scenes : list Scene) :
  forall d,
    fold_left visit_scene scriptorly_scenes d
    = fold_left (fun d v => visit (fst v) d (snd v))
        (visits scriptorly_scenes) d.
Proof.
  induction scriptorly_scenes as [|scene l IH]; intros d; [reflexivity|].
  unfold visits. simpl flat_map. rewrite fold_left_app.
  fold (visits l). rewrite <- IH. simpl fold_left at 1. f_equal.
  unfold visit_scene. generalize (characters scene) d. clear.
  induction l as [|c l IH]; intros d; [reflexivity | apply IH].
Qed.

Lemma character_profiles_table (scriptorly_scenes : list Scene) (char : str) :
  get (character_profiles scriptorly_scenes) char
  = entry_of char (mentions char scriptorly_scenes).
Proof.
  unfold character_profiles, mentions.
  rewrite get_notes, visit_scenes_turns.
  apply (@tabled_turns (visits scriptorly_scenes) [] []).
  intros c. reflexivity.
Qed.

(** X16. The table of the characters of the result: a character has an
    entry exactly when a scene of the result lists it; its appearances
    are the number of these scenes, its scene identifiers are [scene_001]
    to [scene_00n] for its n appearances, numbered by appearance and not
    by the place of the scene in the script, its count of dialogue lines
    adds the occurrences of its upper-case name in the contents of these
    scenes, and its note states the two numbers. *)
Theorem characters_table_counts_scenes
  (textwrap_wrap : str -> nat -> list str) (Metadata Quality : Type)
  (metadata : Metadata) (pages_data : list Page) (quality : Quality)
  (total_pages : nat) :
  exists report,
    _format_for_scriptorly textwrap_wrap metadata pages_data quality
      total_pages = Some report
    /\ _parse_sequential_content textwrap_wrap pages_data
       = Some (out_scenes report)
    /\ totalPages report = total_pages
    /\ enhancedParsing report = true
    /\ forall char,
         get (out_characters report) char
         = match mentions char (out_scenes report) with
           | [] => None
           | seen => Some (profile_from char seen)
           end.
Proof.
  unfold _format_for_scriptorly.
  destruct (parse_total textwrap_wrap pages_data) as [result ->].
  eexists. split; [reflexivity|]. simpl.
  split; [reflexivity|]. split; [reflexivity|]. split; [reflexivity|].
  intros char. rewrite character_profiles_table. unfold entry_of.
  destruct (mentions char result); reflexivity.
Qed.

(** ** A second pass of artifact repair *)







Section Stutter.

Variable fl : flags.
Hypothesis ignores_case : ignorecase fl = true.





Section OneLetter.

Variables (r : re) (test : ascii -> bool).
Hypothesis r_one : one_char fl r test.





End OneLetter.








End Stutter.










